(** * Privacy-pool protocol engine: crypto.ts, merkle.ts, zkproof.ts, privacyPool.ts

    A shallow embedding of the client-side protocol code.  JavaScript
    [bigint]s are [Z]; array indices and tree levels are [nat]; a [number]
    that the code compares with 0 or takes the remainder of is a [Z];
    a thrown [Error] is the [Err] case of [result].  The Poseidon
    permutation comes from circomlibjs and is a parameter of the
    development ([poseidon1], [poseidon2]). *)

From Stdlib Require Import String Ascii.
From Stdlib Require Import ZArith List Bool Lia Arith PeanoNat.
Import ListNotations.

Set Implicit Arguments.

(** ** Thrown errors and the error monad *)

Inductive error : Type :=
| TreeAtCapacity                 (* Error('Tree at capacity') *)
| InvalidLeafIndex (i : Z)       (* Error(`Invalid leaf index: ${leafIndex}`) *)
| InvalidNoteFormat              (* Error("Invalid note format") *)
| UnsupportedNoteVersion         (* Error(`Unsupported note version: ${version}`) *)
| BigIntSyntaxError              (* SyntaxError thrown by BigInt(string) *)
| PoseidonInputError             (* circomlibjs rejects the input array *)
| UndefinedTypeError             (* TypeError: a method called on undefined *)
| NoDepositsFound                (* Error('No deposits found in contract') *)
| CommitmentNotFound             (* Error('Commitment not found in tree. ...') *)
| AssociationRootNotSet          (* Error('Association root not set. ...') *)
| FetchFailed                    (* a contract query threw or returned no result *)
| ProverFailed                   (* Error(`Failed to generate ZK proof: ...`) *)
| OutOfFuel.                     (* a bounded loop of the model ran dry; never a JS error *)

Inductive result (A : Type) : Type :=
| Ok (a : A)
| Err (e : error).

Arguments Ok {A} a.
Arguments Err {A} e.

Definition bind {A B : Type} (r : result A) (k : A -> result B) : result B :=
  match r with
  | Ok a => k a
  | Err e => Err e
  end.

Notation "x <- r ;; k" := (bind r (fun x => k))
  (at level 61, r at next level, right associativity).

Definition isErr {A : Type} (r : result A) : bool :=
  match r with
  | Ok _ => false
  | Err _ => true
  end.

(** A runtime value stored in a [bigint[]]: a bigint, or [undefined] when
    an array was read out of range. *)
Inductive jsval : Type :=
| Big (n : Z)
| Undefined.

Definition jsval_eqb (a b : jsval) : bool :=
  match a, b with
  | Big x, Big y => Z.eqb x y
  | Undefined, Undefined => true
  | _, _ => false
  end.

(** [arr[i]] for a natural index: [undefined] out of range. *)
Definition js_nth (arr : list jsval) (i : nat) : jsval := nth i arr Undefined.

(** [arr[i]] for an integral [number] index. *)
Definition js_index (arr : list jsval) (i : Z) : jsval :=
  if (i <? 0)%Z then Undefined else js_nth arr (Z.to_nat i).

(** ** JavaScript built-ins used by the code

    Strings are sequences of code units below 256.  A [number] holding an
    integer or [NaN] is a [number]; integers are exact, which is what a
    double gives up to [Number.MAX_SAFE_INTEGER]. *)

Inductive number : Type :=
| Int (z : Z)
| NaN.

Definition MAX_SAFE_INTEGER : Z := 9007199254740991.

Definition hexChars : list ascii :=
  ["0"; "1"; "2"; "3"; "4"; "5"; "6"; "7"; "8"; "9";
   "a"; "b"; "c"; "d"; "e"; "f"]%char.

Definition digitChar (d : Z) : ascii := nth (Z.to_nat d) hexChars "0"%char.

(** The value of a digit character, for radices up to 36. *)
Definition digitValue (c : ascii) : option Z :=
  let n := Z.of_nat (nat_of_ascii c) in
  if ((48 <=? n) && (n <=? 57))%Z then Some (n - 48)%Z
  else if ((97 <=? n) && (n <=? 122))%Z then Some (n - 87)%Z
  else if ((65 <=? n) && (n <=? 90))%Z then Some (n - 55)%Z
  else None.

Definition digitIn (radix : Z) (c : ascii) : option Z :=
  match digitValue c with
  | Some d => if (d <? radix)%Z then Some d else None
  | None => None
  end.

(** Digits of a non-negative integer, least significant first. *)
Fixpoint digitsRev (fuel : nat) (radix n : Z) : list Z :=
  match fuel with
  | O => []
  | S fuel' =>
      (n mod radix)%Z ::
      (if (n / radix =? 0)%Z then [] else digitsRev fuel' radix (n / radix)%Z)
  end.

Definition digitsOf (radix n : Z) : list Z :=
  rev (digitsRev (S (Z.to_nat (Z.log2 n))) radix n).

Definition stringOfDigits (ds : list Z) : string :=
  fold_right (fun d s => String (digitChar d) s) EmptyString ds.

(** The value of a digit list, most significant digit first. *)
Definition digitsValue (radix : Z) (ds : list Z) (acc : Z) : Z :=
  fold_left (fun a d => (a * radix + d)%Z) ds acc.

(** The value of a digit list, least significant digit first. *)
Definition leValue (radix : Z) (ds : list Z) : Z :=
  fold_right (fun d a => (a * radix + d)%Z) 0%Z ds.

Definition isDigit (radix d : Z) : Prop := (0 <= d < radix)%Z.

(** No occurrence of [c] in [s]. *)
Fixpoint lacks (c : ascii) (s : string) : bool :=
  match s with
  | EmptyString => true
  | String x s' => negb (Ascii.eqb x c) && lacks c s'
  end.

(** [BigInt.prototype.toString(radix)]: lower-case digits, no leading
    zero, a minus sign for a negative value. *)
Definition bigintToString (radix n : Z) : string :=
  if (n <? 0)%Z then String "-"%char (stringOfDigits (digitsOf radix (- n)))
  else stringOfDigits (digitsOf radix n).

(** [Number.prototype.toString(radix)] on an integer or [NaN]: the digits
    of the integer, which is what the source prints for an integer up to
    [Number.MAX_SAFE_INTEGER] in magnitude (a larger double is printed
    from its rounded value, in exponent notation from 1e21 on in radix
    10); statements that print a number bound it by that. *)
Definition numberToString (radix : Z) (x : number) : string :=
  match x with
  | Int z => bigintToString radix z
  | NaN => "NaN"%string
  end.

(** White space as [parseInt] and [BigInt] skip it. *)
Definition isWhiteSpace (c : ascii) : bool :=
  let n := nat_of_ascii c in
  (n =? 9) || (n =? 10) || (n =? 11) || (n =? 12) || (n =? 13) || (n =? 32)
  || (n =? 160).

Fixpoint trimStart (s : string) : string :=
  match s with
  | EmptyString => EmptyString
  | String c s' => if isWhiteSpace c then trimStart s' else s
  end.

Fixpoint trimEnd (s : string) : string :=
  match s with
  | EmptyString => EmptyString
  | String c s' =>
      match trimEnd s' with
      | EmptyString => if isWhiteSpace c then EmptyString else String c EmptyString
      | t => String c t
      end
  end.

(** The digits at the front of [s], read to a value; [None] if there is
    no digit. *)
Fixpoint parsePrefix (radix : Z) (s : string) (acc : Z) (seen : bool) : option Z :=
  match s with
  | EmptyString => if seen then Some acc else None
  | String c s' =>
      match digitIn radix c with
      | Some d => parsePrefix radix s' (acc * radix + d)%Z true
      | None => if seen then Some acc else None
      end
  end.

(** The whole of [s] read as digits; [None] if some character is not one. *)
Fixpoint parseDigits (radix : Z) (s : string) (acc : Z) : option Z :=
  match s with
  | EmptyString => Some acc
  | String c s' =>
      match digitIn radix c with
      | Some d => parseDigits radix s' (acc * radix + d)%Z
      | None => None
      end
  end.

Definition parseAll (radix : Z) (s : string) : option Z :=
  match s with
  | EmptyString => None
  | _ => parseDigits radix s 0%Z
  end.

Definition isChar (c : ascii) (a b : ascii) : bool :=
  Ascii.eqb c a || Ascii.eqb c b.

(** [parseInt(s, radix)] for radix 10 and 16.  The result is the integer
    the digits spell.  The source returns that integer as long as it is at
    most [Number.MAX_SAFE_INTEGER] in magnitude; beyond it the source
    returns the nearest double, or [Infinity], which [number] does not
    hold, so statements that read a parsed number bound it by that. *)
Definition parseInt (s : string) (radix : Z) : number :=
  let t := trimStart s in
  let '(sign, t1) :=
    match t with
    | String "-"%char r => ((-1)%Z, r)
    | String "+"%char r => (1%Z, r)
    | _ => (1%Z, t)
    end in
  let t2 :=
    match t1 with
    | String "0"%char (String x r) =>
        if (radix =? 16)%Z && isChar x "x"%char "X"%char then r else t1
    | _ => t1
    end in
  match parsePrefix radix t2 0%Z false with
  | Some v => Int (sign * v)%Z
  | None => NaN
  end.

(** [BigInt(s)] on a string: [None] stands for the [SyntaxError]. *)
Definition StringToBigInt (s : string) : option Z :=
  let t := trimEnd (trimStart s) in
  match t with
  | EmptyString => Some 0%Z
  | String "-"%char r => option_map Z.opp (parseAll 10 r)
  | String "+"%char r => parseAll 10 r
  | String "0"%char (String x r) =>
      if isChar x "x"%char "X"%char then parseAll 16 r
      else if isChar x "o"%char "O"%char then parseAll 8 r
      else if isChar x "b"%char "B"%char then parseAll 2 r
      else parseAll 10 t
  | _ => parseAll 10 t
  end.

Definition BigInt (s : string) : result Z :=
  match StringToBigInt s with
  | Some z => Ok z
  | None => Err BigIntSyntaxError
  end.

(** [s.padStart(n, '0')] *)
Definition padStart (n : nat) (s : string) : string :=
  fold_right (fun _ acc => String "0"%char acc) s
    (seq 0 (n - String.length s)).

(** [s.split(sep)] for a one-character separator. *)
Fixpoint split (sep : ascii) (s : string) : list string :=
  match s with
  | EmptyString => [EmptyString]
  | String c s' =>
      if Ascii.eqb c sep then EmptyString :: split sep s'
      else
        match split sep s' with
        | [] => [String c EmptyString]
        | p :: ps => String c p :: ps
        end
  end.

(** [parts.join(sep)] *)
Fixpoint join (sep : ascii) (parts : list string) : string :=
  match parts with
  | [] => EmptyString
  | [p] => p
  | p :: ps => (p ++ String sep (join sep ps))%string
  end.

(** Bytes, as [Uint8Array] and [Buffer] hold them. *)
Definition bytes : Type := list Z.

(** Storing a [number] in a [Uint8Array] cell. *)
Definition toUint8 (x : number) : Z :=
  match x with
  | Int z => (z mod 256)%Z
  | NaN => 0%Z
  end.

(** [target.set(src, offset)] on typed arrays that [src] fits into. *)
Definition arraySet (target src : bytes) (offset : nat) : bytes :=
  firstn offset target ++ src ++ skipn (offset + length src) target.

(** [Buffer.from(hex, 'hex')]: whole pairs of hex digits, up to the first
    pair that is not one. *)
Fixpoint bufferFromHex (fuel : nat) (hex : string) : bytes :=
  match fuel with
  | O => []
  | S fuel' =>
      match hex with
      | String a (String b rest) =>
          match digitIn 16 a, digitIn 16 b with
          | Some x, Some y => (16 * x + y)%Z :: bufferFromHex fuel' rest
          | _, _ => []
          end
      | _ => []
      end
  end.

(** [buffer.toString('hex')] *)
Fixpoint bufferToHex (b : bytes) : string :=
  match b with
  | [] => EmptyString
  | x :: b' =>
      String (digitChar (x / 16)) (String (digitChar (x mod 16)) (bufferToHex b'))
  end.

(** [a.equals(b)] on buffers. *)
Fixpoint bufferEquals (a b : bytes) : bool :=
  match a, b with
  | [], [] => true
  | x :: a', y :: b' => (x =? y)%Z && bufferEquals a' b'
  | _, _ => false
  end.

Definition isByte (x : Z) : Prop := (0 <= x < 256)%Z.

(** The unsigned big-endian integer a byte string denotes. *)
Definition beValue (b : bytes) : Z :=
  fold_left (fun acc x => (acc * 256 + x)%Z) b 0%Z.

(** [bigintToBuffer] of crypto.ts *)
Definition bigintToBuffer (value : Z) : bytes :=
  let hex := padStart 64 (bigintToString 16 value) in
  bufferFromHex (String.length hex) hex.

(** [bufferToBigint] of crypto.ts *)
Definition bufferToBigint (buffer : bytes) : result Z :=
  BigInt ("0x" ++ bufferToHex buffer)%string.

(** ** crypto.ts: deposit notes *)

Definition SNARK_SCALAR_FIELD : Z :=
  21888242871839275222246405745257275088548364400416034343698204186575808495617.

Definition FIXED_AMOUNT_STROOPS : Z := 1000000000.

Record DepositNote : Type := mkNote {
  nullifier : Z;
  secret : Z;
  value : Z;
  label : Z;
  leafIndex : number
}.

(** [encodeNote] *)
Definition encodeNote (note : DepositNote) : string :=
  let parts :=
    [ "opaque"%string;
      "1"%string;
      bigintToString 16 (nullifier note);
      bigintToString 16 (secret note);
      bigintToString 16 (value note);
      bigintToString 16 (label note);
      numberToString 16 (leafIndex note) ] in
  join "-"%char parts.

Definition number_eqb (a : number) (z : Z) : bool :=
  match a with
  | Int x => (x =? z)%Z
  | NaN => false
  end.

(** [decodeNote] *)
Definition decodeNote (noteString : string) : result DepositNote :=
  let parts := split "-"%char noteString in
  if negb (length parts =? 7)
     || negb (String.eqb (nth 0 parts EmptyString) "opaque")
  then Err InvalidNoteFormat
  else
    let version := parseInt (nth 1 parts EmptyString) 10 in
    if negb (number_eqb version 1) then Err UnsupportedNoteVersion
    else
      n <- BigInt ("0x" ++ nth 2 parts EmptyString)%string ;;
      s <- BigInt ("0x" ++ nth 3 parts EmptyString)%string ;;
      v <- BigInt ("0x" ++ nth 4 parts EmptyString)%string ;;
      l <- BigInt ("0x" ++ nth 5 parts EmptyString)%string ;;
      Ok (mkNote n s v l (parseInt (nth 6 parts EmptyString) 16)).

(** A note as the protocol produces it: field elements and amounts are
    not negative, the leaf index is a tree index. *)
Definition nonNegativeNote (note : DepositNote) : Prop :=
  (0 <= nullifier note)%Z /\ (0 <= secret note)%Z /\ (0 <= value note)%Z
  /\ (0 <= label note)%Z
  /\ exists z, leafIndex note = Int z /\ (0 <= z <= MAX_SAFE_INTEGER)%Z.

(** ** zkproof.ts *)

Record Groth16Proof : Type := mkProof {
  pi_a : string * string * string;
  pi_b : (string * string) * (string * string) * (string * string);
  pi_c : string * string * string;
  protocol : string;
  curve : string
}.

Record WithdrawCircuitInput : Type := mkCircuitInput {
  ci_withdrawnValue : string;
  ci_stateRoot : string;
  ci_associationRoot : string;
  ci_label : string;
  ci_value : string;
  ci_nullifier : string;
  ci_secret : string;
  ci_stateSiblings : list string;
  ci_stateIndex : string;
  ci_labelIndex : string;
  ci_labelSiblings : list string
}.

(** The loop body of [fieldElementToBytes]:
    [bytes[i] = parseInt(hex.substr(i * 2, 2), 16)]. *)
Definition hexByteAt (hex : string) (i : nat) : Z :=
  toUint8 (parseInt (substring (i * 2) 2 hex) 16).

(** [fieldElementToBytes] *)
Definition fieldElementToBytes (value : string) : result bytes :=
  bi <- BigInt value ;;
  let hex := padStart 64 (bigintToString 16 bi) in
  Ok (map (hexByteAt hex) (seq 0 32)).

Definition zeroBytes (n : nat) : bytes := repeat 0%Z n.

(** [g1PointToBytes] *)
Definition g1PointToBytes (point : string * string * string) : result bytes :=
  let '(x, y, _) := point in
  xBytes <- fieldElementToBytes x ;;
  yBytes <- fieldElementToBytes y ;;
  Ok (arraySet (arraySet (zeroBytes 64) xBytes 0) yBytes 32).

(** [g2PointToBytes] *)
Definition g2PointToBytes
    (point : (string * string) * (string * string) * (string * string))
    : result bytes :=
  let '((x0, x1), (y0, y1), _) := point in
  x0Bytes <- fieldElementToBytes x0 ;;
  x1Bytes <- fieldElementToBytes x1 ;;
  y0Bytes <- fieldElementToBytes y0 ;;
  y1Bytes <- fieldElementToBytes y1 ;;
  Ok (arraySet (arraySet (arraySet (arraySet (zeroBytes 128)
        x0Bytes 0) x1Bytes 32) y0Bytes 64) y1Bytes 96).

(** [serializeProofForSoroban] *)
Definition serializeProofForSoroban (proof : Groth16Proof) : result bytes :=
  aBytes <- g1PointToBytes (pi_a proof) ;;
  bBytes <- g2PointToBytes (pi_b proof) ;;
  cBytes <- g1PointToBytes (pi_c proof) ;;
  Ok (arraySet (arraySet (arraySet (zeroBytes 256) aBytes 0) bBytes 64) cBytes 192).

(** [view.setUint32(0, n, false)]: four bytes, big-endian. *)
Definition uint32BE (n : Z) : bytes :=
  let m := (n mod 4294967296)%Z in
  [ (m / 16777216)%Z; (m / 65536 mod 256)%Z; (m / 256 mod 256)%Z; (m mod 256)%Z ].

(** The [for] loop of [serializePublicSignalsForSoroban]. *)
Fixpoint writeSignals (signals : list string) (i : nat) (out : bytes) : result bytes :=
  match signals with
  | [] => Ok out
  | sig :: rest =>
      fieldBytes <- fieldElementToBytes sig ;;
      writeSignals rest (S i) (arraySet out fieldBytes (4 + i * 32))
  end.

(** [serializePublicSignalsForSoroban] *)
Definition serializePublicSignalsForSoroban (publicSignals : list string)
    : result bytes :=
  let n := length publicSignals in
  let out := arraySet (zeroBytes (4 + n * 32)) (uint32BE (Z.of_nat n)) 0 in
  writeSignals publicSignals 0 out.

(** [generateWithdrawProof]: [snarkjs.groth16.fullProve] behind a
    [try]/[catch] that rethrows every failure as one error. *)
Definition generateWithdrawProof
    (fullProve : WithdrawCircuitInput -> result (Groth16Proof * list string))
    (input : WithdrawCircuitInput) : result (Groth16Proof * list string) :=
  match fullProve input with
  | Ok proved => Ok proved
  | Err _ => Err ProverFailed
  end.

(** [x.toString()] on an array element: a [TypeError] on [undefined]. *)
Definition jsToString (x : jsval) : result string :=
  match x with
  | Big n => Ok (bigintToString 10 n)
  | Undefined => Err UndefinedTypeError
  end.

Fixpoint mapToString (xs : list jsval) : result (list string) :=
  match xs with
  | [] => Ok []
  | x :: xs' =>
      s <- jsToString x ;;
      ss <- mapToString xs' ;;
      Ok (s :: ss)
  end.

(** The argument of [createWithdrawCircuitInput].  [stateIndex] and
    [labelIndex] are JS numbers; they are held as integers. *)
Record WithdrawParams : Type := mkParams {
  p_withdrawnValue : Z;
  p_stateRoot : jsval;
  p_associationRoot : Z;
  p_label : Z;
  p_value : Z;
  p_nullifier : Z;
  p_secret : Z;
  p_stateSiblings : list jsval;
  p_stateIndex : Z;
  p_labelIndex : Z;
  p_labelSiblings : list jsval
}.

(** [while (xs.length < n) xs.push(BigInt(0))] *)
Definition padWithZero (n : nat) (xs : list jsval) : list jsval :=
  xs ++ repeat (Big 0%Z) (n - length xs).

(** The state-sibling list [createWithdrawCircuitInput] passes on: padded
    to 8, then [stateSiblings.length = 8]. *)
Definition circuitStateSiblings (xs : list jsval) : list jsval :=
  firstn 8 (padWithZero 8 xs).

(** The label-sibling list it passes on: padded to 2, never cut. *)
Definition circuitLabelSiblings (xs : list jsval) : list jsval :=
  padWithZero 2 xs.

(** [createWithdrawCircuitInput].  The two indices are printed as
    integers, which is [Number.prototype.toString] on an index up to
    [Number.MAX_SAFE_INTEGER] in magnitude. *)
Definition createWithdrawCircuitInput (params : WithdrawParams)
    : result WithdrawCircuitInput :=
  let stateSiblings := circuitStateSiblings (p_stateSiblings params) in
  let labelSiblings := circuitLabelSiblings (p_labelSiblings params) in
  stateRoot <- jsToString (p_stateRoot params) ;;
  stateStrings <- mapToString stateSiblings ;;
  labelStrings <- mapToString labelSiblings ;;
  Ok (mkCircuitInput
        (bigintToString 10 (p_withdrawnValue params))
        stateRoot
        (bigintToString 10 (p_associationRoot params))
        (bigintToString 10 (p_label params))
        (bigintToString 10 (p_value params))
        (bigintToString 10 (p_nullifier params))
        (bigintToString 10 (p_secret params))
        stateStrings
        (bigintToString 10 (p_stateIndex params))
        (bigintToString 10 (p_labelIndex params))
        labelStrings).

(** ** privacyPool.ts: the contract client and what the handlers do to it *)

(** What the contract client and the prover answer during one call of a
    handler: [Err] when the call throws, [None] when [simulate()] comes
    back without a [result]. *)
Record Contract : Type := mkContract {
  get_commitments : result (option (list bytes));
  get_association_root : result (option bytes);
  get_nullifiers : result (option (list bytes));
  fullProve : WithdrawCircuitInput -> result (Groth16Proof * list string);
  withdraw : bytes -> bytes -> result unit;
  signAndSend : result (list string * option string)
}.

(** The outward calls a handler makes, in order. *)
Inductive event : Type :=
| Queried (name : string)
| ProofRequested (input : WithdrawCircuitInput)
| TxBuilt (proof_bytes pub_signals_bytes : bytes)
| TxSubmitted.

Definition isTxEvent (e : event) : bool :=
  match e with
  | TxBuilt _ _ => true
  | TxSubmitted => true
  | _ => false
  end.

(** A computation that logs its outward calls and may throw. *)
Definition io (A : Type) : Type := (list event * result A)%type.

Definition io_bind {A B : Type} (m : io A) (k : A -> io B) : io B :=
  match m with
  | (tr, Ok a) => let '(tr', r) := k a in (tr ++ tr', r)
  | (tr, Err e) => (tr, Err e)
  end.

Definition lift {A : Type} (r : result A) : io A := ([], r).

Definition call {A : Type} (e : event) (r : result A) : io A := ([e], r).

Notation "x <~ m ;; k" := (io_bind m (fun x => k))
  (at level 61, m at next level, right associativity).

(** [WithdrawResult]: success with the transaction hash, the message of a
    caught error, or the messages the contract returned. *)
Inductive WithdrawResult : Type :=
| WithdrawSuccess (txHash : option string)
| WithdrawError (e : error)
| WithdrawMessages (messages : list string).

(** [if (!result.result) throw new Error('Failed to fetch ...')] *)
Definition requireResult {A : Type} (r : result (option A)) : result A :=
  match r with
  | Ok (Some a) => Ok a
  | Ok None => Err FetchFailed
  | Err e => Err e
  end.

Fixpoint mapResult {A B : Type} (f : A -> result B) (xs : list A) : result (list B) :=
  match xs with
  | [] => Ok []
  | x :: xs' =>
      y <- f x ;;
      ys <- mapResult f xs' ;;
      Ok (y :: ys)
  end.

(** The search loop of [handleWithdraw]: the first index whose buffer
    equals [target]. *)
Fixpoint findIndex (commitments : list bytes) (target : bytes) (i : nat) : option nat :=
  match commitments with
  | [] => None
  | c :: rest => if bufferEquals c target then Some i else findIndex rest target (S i)
  end.

(** A stand-in for the permutation, to run the definitions on concrete
    inputs. *)
Definition mix1 (a : Z) : Z := (a + 1)%Z.
Definition mix2 (a b : Z) : Z := (3 * a + 5 * b + 1)%Z.

(** ** crypto.ts and merkle.ts *)

Section Poseidon.

Set Default Proof Using "Type".

(** The circomlibjs permutation on one and on two field elements, read
    back with [poseidon.F.toObject]. *)
Variable poseidon1 : Z -> Z.
Variable poseidon2 : Z -> Z -> Z.

(** [poseidon(inputs)]: every element is converted with the field's [e],
    which goes through [BigInt(..)] and throws on [undefined]; the code
    only reaches it with at most two elements. *)
Definition poseidon (inputs : list jsval) : result Z :=
  match inputs with
  | [Big a] => Ok (poseidon1 a)
  | [Big a; Big b] => Ok (poseidon2 a b)
  | _ => Err PoseidonInputError
  end.

(** The [for] loop of [poseidonHash]: [result = await poseidonHash([result, inputs[i]])]. *)
Fixpoint poseidonHash_fold (hash2 : list jsval -> result Z) (acc : Z)
    (rest : list jsval) : result Z :=
  match rest with
  | [] => Ok acc
  | x :: rest' => r <- hash2 [Big acc; x] ;; poseidonHash_fold hash2 r rest'
  end.

(** [poseidonHash]; the recursive calls pass two-element arrays, so the
    recursion is two deep at most. *)
Fixpoint poseidonHash_rec (fuel : nat) (inputs : list jsval) : result Z :=
  match fuel with
  | O => Err OutOfFuel
  | S fuel' =>
      if 2 <? length inputs then
        match inputs with
        | in0 :: in1 :: rest =>
            r <- poseidonHash_rec fuel' [in0; in1] ;;
            poseidonHash_fold (poseidonHash_rec fuel') r rest
        | _ => Err PoseidonInputError
        end
      else poseidon inputs
  end.

Definition poseidonHash (inputs : list jsval) : result Z :=
  poseidonHash_rec 2 inputs.

(** [computeCommitment] *)
Definition computeCommitment (value label nullifier secret : Z) : result Z :=
  precommitment <- poseidonHash [Big nullifier; Big secret] ;;
  hashValueLabel <- poseidonHash [Big value; Big label] ;;
  commitment <- poseidonHash [Big hashValueLabel; Big precommitment] ;;
  Ok commitment.

(** [computeNullifierHash] *)
Definition computeNullifierHash (nullifier : Z) : result Z :=
  poseidonHash [Big nullifier].

(** *** Zero values *)

Definition TREE_DEPTH : nat := 8.

(** The loop of [initializeZeroValues], for [i] from 1 to [TREE_DEPTH];
    the store [ZERO_VALUES[i] = ..] lands one past the end and extends
    the array. *)
Fixpoint zeroValues_loop (count i : nat) (zs : list jsval) : result (list jsval) :=
  match count with
  | O => Ok zs
  | S count' =>
      let prevZero := js_nth zs (i - 1) in
      h <- poseidonHash [prevZero; prevZero] ;;
      zeroValues_loop count' (S i) (zs ++ [Big h])
  end.

(** [initializeZeroValues]: the module-level cache makes every call
    return the array the first call built; calls come one after another,
    as every caller awaits them. *)
Definition initializeZeroValues : result (list jsval) :=
  zeroValues_loop TREE_DEPTH 1 [Big 0%Z].

(** *** LeanMerkleTree *)

Record LeanMerkleTree : Type := mkTree {
  leaves : list Z;
  depth : nat
}.

(** [new LeanMerkleTree(depth)] *)
Definition newTree (d : nat) : LeanMerkleTree := mkTree [] d.

(** [addLeaf]: the outcome and the tree afterwards. *)
Definition addLeaf (t : LeanMerkleTree) (leaf : Z) : result nat * LeanMerkleTree :=
  let index := length (leaves t) in
  let maxLeaves := 2 ^ depth t in
  if maxLeaves <=? index then (Err TreeAtCapacity, t)
  else (Ok index, mkTree (leaves t ++ [leaf]) (depth t)).

(** A run of [addLeaf] calls, stopping at the first one that throws. *)
Fixpoint addLeaves (t : LeanMerkleTree) (ls : list Z) : result LeanMerkleTree :=
  match ls with
  | [] => Ok t
  | x :: ls' =>
      match addLeaf t x with
      | (Ok _, t') => addLeaves t' ls'
      | (Err e, _) => Err e
      end
  end.

(** The inner [for (i = 0; i < currentLayer.length; i += 2)] loop shared
    by [computeRoot] and [getMerklePath]. *)
Fixpoint nextLayer (zeroAtLevel : jsval) (currentLayer : list jsval)
    : result (list jsval) :=
  match currentLayer with
  | [] => Ok []
  | [left_] =>
      parent <- poseidonHash [left_; zeroAtLevel] ;;
      Ok [Big parent]
  | left_ :: right_ :: rest =>
      parent <- poseidonHash [left_; right_] ;;
      more <- nextLayer zeroAtLevel rest ;;
      Ok (Big parent :: more)
  end.

(** The [while (currentLayer.length > 1 || level < this.depth)] loop of
    [computeRoot]. *)
Fixpoint computeRoot_loop (fuel d : nat) (zeros currentLayer : list jsval)
    (level : nat) : result jsval :=
  match fuel with
  | O => Err OutOfFuel
  | S fuel' =>
      if (1 <? length currentLayer) || (level <? d) then
        let zeroAtLevel := js_nth zeros level in
        built <- nextLayer zeroAtLevel currentLayer ;;
        let next :=
          if length built =? 0 then built ++ [zeroAtLevel] else built in
        let level' := S level in
        if (d <=? level') && (length next =? 1) then Ok (js_nth next 0)
        else computeRoot_loop fuel' d zeros next level'
      else Ok (js_nth currentLayer 0)
  end.

(** [computeRoot] *)
Definition computeRoot (t : LeanMerkleTree) : result jsval :=
  zeros <- initializeZeroValues ;;
  if length (leaves t) =? 0 then Ok (js_nth zeros (depth t))
  else computeRoot_loop (S (length (leaves t) + depth t)) (depth t) zeros
         (map Big (leaves t)) 0.

(** The [for (level = 0; level < this.depth; level++)] loop of
    [getMerklePath]. *)
Fixpoint getMerklePath_loop (count level : nat) (zeros currentLayer : list jsval)
    (currentIndex : Z) (siblings : list jsval) : result (list jsval) :=
  match count with
  | O => Ok siblings
  | S count' =>
      let zeroAtLevel := js_nth zeros level in
      let siblingIndex :=
        if (Z.rem currentIndex 2 =? 0)%Z then (currentIndex + 1)%Z
        else (currentIndex - 1)%Z in
      let siblings' :=
        if (siblingIndex <? Z.of_nat (length currentLayer))%Z
        then siblings ++ [js_index currentLayer siblingIndex]
        else siblings ++ [zeroAtLevel] in
      built <- nextLayer zeroAtLevel currentLayer ;;
      let next :=
        if length built =? 0 then built ++ [js_nth zeros (S level)] else built in
      getMerklePath_loop count' (S level) zeros next (currentIndex / 2)%Z siblings'
  end.

(** [getMerklePath] *)
Definition getMerklePath (t : LeanMerkleTree) (leafIndex : Z) : result (list jsval) :=
  if (leafIndex <? 0)%Z || (Z.of_nat (length (leaves t)) <=? leafIndex)%Z
  then Err (InvalidLeafIndex leafIndex)
  else
    zeros <- initializeZeroValues ;;
    getMerklePath_loop (depth t) 0 zeros (map Big (leaves t)) leafIndex [].

(** The [for (i = 0; i < this.depth; i++)] loop of [verifyProof]. *)
Fixpoint verifyProof_loop (count i : nat) (siblings : list jsval)
    (currentHash : jsval) (currentIndex : Z) : result jsval :=
  match count with
  | O => Ok currentHash
  | S count' =>
      let sibling := js_nth siblings i in
      let isLeft := (Z.rem currentIndex 2 =? 0)%Z in
      h <- (if isLeft then poseidonHash [currentHash; sibling]
            else poseidonHash [sibling; currentHash]) ;;
      verifyProof_loop count' (S i) siblings (Big h) (currentIndex / 2)%Z
  end.

(** [verifyProof] *)
Definition verifyProof (t : LeanMerkleTree) (leaf : jsval) (leafIndex : Z)
    (siblings : list jsval) (root : jsval) : result bool :=
  if negb (length siblings =? depth t) then Ok false
  else
    currentHash <- verifyProof_loop (depth t) 0 siblings leaf leafIndex ;;
    Ok (jsval_eqb currentHash root).

(** [getMerkleProof(tree, i)] followed by the check of the proof it
    returned: [verifyProof(leaves[i], i, getMerklePath(i), computeRoot())]. *)
Definition verifyOwnPath (t : LeanMerkleTree) (i : nat) : result bool :=
  siblings <- getMerklePath t (Z.of_nat i) ;;
  root <- computeRoot t ;;
  verifyProof t (js_nth (map Big (leaves t)) i) (Z.of_nat i) siblings root.

(** *** privacyPool.ts *)

(** [getMerkleProof] *)
Definition getMerkleProof (t : LeanMerkleTree) (leafIndex : nat)
    : result (list jsval * jsval) :=
  siblings <- getMerklePath t (Z.of_nat leafIndex) ;;
  root <- computeRoot t ;;
  Ok (siblings, root).

(** [LeanMerkleTree.fromBufferLeaves] *)
Definition fromBufferLeaves (buffers : list bytes) (d : nat) : result LeanMerkleTree :=
  ls <- mapResult bufferToBigint buffers ;;
  Ok (mkTree ls d).

(** [getMockAssociationProof]: root, label index, label siblings. *)
Definition getMockAssociationProof (label : Z) : result (Z * Z * list jsval) :=
  zeros <- initializeZeroValues ;;
  level0Hash <- poseidonHash [Big label; js_nth zeros 0] ;;
  associationRoot <- poseidonHash [Big level0Hash; js_nth zeros 1] ;;
  Ok (associationRoot, 0%Z, [js_nth zeros 0; js_nth zeros 1]).

(** What steps 1 to 6 of [handleWithdraw] leave behind; the two copies of
    the file agree on them. *)
Record WithdrawContext : Type := mkContext {
  ctx_note : DepositNote;
  ctx_foundIndex : nat;
  ctx_siblings : list jsval;
  ctx_root : jsval;
  ctx_associationRoot : Z
}.

(** Steps 1 to 6 of [handleWithdraw]: parse the note, fetch the
    commitments, build the tree, find the commitment, take its Merkle
    proof, fetch the association root. *)
Definition withdrawSteps1to6 (c : Contract) (noteString : string) : io WithdrawContext :=
  note <~ lift (decodeNote noteString) ;;
  commitments <~ call (Queried "get_commitments") (requireResult (get_commitments c)) ;;
  _ <~ lift (if length commitments =? 0 then Err NoDepositsFound else Ok tt) ;;
  tree <~ lift (fromBufferLeaves commitments TREE_DEPTH) ;;
  commitment <~ lift (computeCommitment (value note) (label note)
                        (nullifier note) (secret note)) ;;
  let commitmentBuffer := bigintToBuffer commitment in
  foundIndex <~ lift (match findIndex commitments commitmentBuffer 0 with
                      | Some i => Ok i
                      | None => Err CommitmentNotFound
                      end) ;;
  merkleProof <~ lift (getMerkleProof tree foundIndex) ;;
  associationRootBuffer <~
    call (Queried "get_association_root") (requireResult (get_association_root c)) ;;
  associationRoot <~ lift (bufferToBigint associationRootBuffer) ;;
  lift (Ok (mkContext note foundIndex (fst merkleProof) (snd merkleProof)
              associationRoot)).

Definition circuitParams (x : WithdrawContext) (labelIndex : Z)
    (labelSiblings : list jsval) : WithdrawParams :=
  mkParams FIXED_AMOUNT_STROOPS (ctx_root x) (ctx_associationRoot x)
    (label (ctx_note x)) (value (ctx_note x)) (nullifier (ctx_note x))
    (secret (ctx_note x)) (ctx_siblings x) (Z.of_nat (ctx_foundIndex x))
    labelIndex labelSiblings.

(** Steps 11 and 12, and the reading of the outcome. *)
Definition submitWithdraw (c : Contract) (proofBytes pubSignalsBytes : bytes)
    : io WithdrawResult :=
  _ <~ call (TxBuilt proofBytes pubSignalsBytes) (withdraw c proofBytes pubSignalsBytes) ;;
  sent <~ call TxSubmitted (signAndSend c) ;;
  lift (Ok (if length (fst sent) =? 0 then WithdrawSuccess (snd sent)
            else WithdrawMessages (fst sent))).

(** The [catch] of a handler: the thrown error becomes the result. *)
Definition catchWithdraw (m : io WithdrawResult) : list event * WithdrawResult :=
  match m with
  | (tr, Ok r) => (tr, r)
  | (tr, Err e) => (tr, WithdrawError e)
  end.

(** [handleWithdraw], the copy of privacyPool.ts that throws on a zero
    association root and sends a mock proof (lines 246-410). *)
Definition handleWithdraw_demo (c : Contract) (noteString : string)
    : list event * WithdrawResult :=
  catchWithdraw (
    x <~ withdrawSteps1to6 c noteString ;;
    _ <~ lift (if (ctx_associationRoot x =? 0)%Z then Err AssociationRootNotSet
               else Ok tt) ;;
    mockProof <~ lift (getMockAssociationProof (label (ctx_note x))) ;;
    let '(_, labelIndex, labelSiblings) := mockProof in
    _ <~ lift (createWithdrawCircuitInput (circuitParams x labelIndex labelSiblings)) ;;
    nullifierHash <~ lift (computeNullifierHash (nullifier (ctx_note x))) ;;
    let proofBytes := zeroBytes 0 in
    let nullifierBuffer := bigintToBuffer nullifierHash in
    let pubSignalsBytes :=
      arraySet (arraySet (zeroBytes 36) (uint32BE 1) 0) (firstn 32 nullifierBuffer) 4 in
    submitWithdraw c proofBytes pubSignalsBytes).

(** [handleWithdraw], the copy of privacyPool.ts that calls the prover
    (lines 708-845): on a zero association root it takes the mock
    association proof and goes on. *)
Definition handleWithdraw_prover (c : Contract) (noteString : string)
    : list event * WithdrawResult :=
  catchWithdraw (
    x <~ withdrawSteps1to6 c noteString ;;
    mockProof <~ lift (if (ctx_associationRoot x =? 0)%Z
                       then getMockAssociationProof (label (ctx_note x))
                       else getMockAssociationProof (label (ctx_note x))) ;;
    let '(_, labelIndex, labelSiblings) := mockProof in
    circuitInput <~
      lift (createWithdrawCircuitInput (circuitParams x labelIndex labelSiblings)) ;;
    proved <~ call (ProofRequested circuitInput)
                (generateWithdrawProof (fullProve c) circuitInput) ;;
    proofBytes <~ lift (serializeProofForSoroban (fst proved)) ;;
    pubSignalsBytes <~ lift (serializePublicSignalsForSoroban (snd proved)) ;;
    submitWithdraw c proofBytes pubSignalsBytes).

(** The loop of [isNoteSpent] over the fetched nullifiers. *)
Fixpoint nullifierListed (used : list bytes) (nullifierBuffer : bytes) : bool :=
  match used with
  | [] => false
  | usedNullifier :: rest =>
      if bufferEquals usedNullifier nullifierBuffer then true
      else nullifierListed rest nullifierBuffer
  end.

(** The [try] block of [isNoteSpent]. *)
Definition isNoteSpent_try (c : Contract) (noteString : string) : result bool :=
  note <- decodeNote noteString ;;
  nullifierHash <- poseidonHash [Big (nullifier note)] ;;
  let nullifierBuffer := bigintToBuffer nullifierHash in
  fetched <- get_nullifiers c ;;
  match fetched with
  | None => Ok false
  | Some used => Ok (nullifierListed used nullifierBuffer)
  end.

(** [isNoteSpent]: the [catch] returns [false]. *)
Definition isNoteSpent (c : Contract) (noteString : string) : bool :=
  match isNoteSpent_try c noteString with
  | Ok b => b
  | Err _ => false
  end.

(** *** Mathematical counterparts used in the statements *)

(** [zero[0] = 0], [zero[i] = H(zero[i-1], zero[i-1])], for every level. *)
Fixpoint zeroAt (level : nat) : Z :=
  match level with
  | O => 0%Z
  | S l => poseidon2 (zeroAt l) (zeroAt l)
  end.

(** The array [initializeZeroValues] builds, in closed form. *)
Definition zeroTable : list jsval := map Big (map zeroAt (seq 0 (S TREE_DEPTH))).

(** One layer up, the last node of an odd layer paired with [z]. *)
Fixpoint hashLayer (z : Z) (layer : list Z) : list Z :=
  match layer with
  | [] => []
  | [a] => [poseidon2 a z]
  | a :: b :: rest => poseidon2 a b :: hashLayer z rest
  end.

(** [k] layers up from [level]. *)
Fixpoint layersUp (k level : nat) (layer : list Z) : list Z :=
  match k with
  | O => layer
  | S k' => layersUp k' (S level) (hashLayer (zeroAt level) layer)
  end.

(** The sibling of node [i] in a layer, [z] standing for a missing one. *)
Definition siblingOf (z : Z) (layer : list Z) (i : nat) : Z :=
  nth (if Nat.even i then i + 1 else i - 1) layer z.

(** The siblings of node [i] on its way [k] layers up. *)
Fixpoint pathUp (k level : nat) (layer : list Z) (i : nat) : list Z :=
  match k with
  | O => []
  | S k' =>
      siblingOf (zeroAt level) layer i
      :: pathUp k' (S level) (hashLayer (zeroAt level) layer) (Nat.div2 i)
  end.

(** Folding a node with its siblings, the direction taken from the index. *)
Fixpoint foldPath (h : Z) (i : nat) (siblings : list Z) : Z :=
  match siblings with
  | [] => h
  | s :: rest =>
      foldPath (if Nat.even i then poseidon2 h s else poseidon2 s h)
        (Nat.div2 i) rest
  end.

(** Reference full-tree hash, written from the specification: the [n]
    leaves are padded with [zero[0] = 0] to the full width [2^D], and
    every layer is hashed pairwise until one node is left. *)
Fixpoint referenceLayer (layer : list Z) : list Z :=
  match layer with
  | a :: b :: rest => poseidon2 a b :: referenceLayer rest
  | _ => []
  end.

Definition referenceRoot (d : nat) (ls : list Z) : Z :=
  nth 0 (Nat.iter d referenceLayer (ls ++ repeat 0%Z (2 ^ d - length ls))) 0%Z.

(** The left-to-right fold the specification gives for more than two
    inputs. *)
Definition sequentialFold (inputs : list Z) : Z :=
  fold_left poseidon2 (skipn 2 inputs)
    (poseidon2 (nth 0 inputs 0%Z) (nth 1 inputs 0%Z)).

(** *** Further functions of crypto.ts, merkle.ts and privacyPool.ts *)

(** The loop body [value = (value << BigInt(8)) | BigInt(bytes[i])]. *)
Definition shiftInByte (value byte : Z) : Z := Z.lor (Z.shiftl value 8) byte.

(** [generateRandom256Bit]; [random] is what [crypto.getRandomValues]
    wrote into the 32-byte array, cells it left out being 0. *)
Definition generateRandom256Bit (random : bytes) : Z :=
  let value :=
    fold_left shiftInByte (map (fun i => nth i random 0%Z) (seq 0 32)) 0%Z in
  Z.rem value SNARK_SCALAR_FIELD.

(** [generateSecrets]: nullifier and secret, from two draws. *)
Definition generateSecrets (random1 random2 : bytes) : Z * Z :=
  (generateRandom256Bit random1, generateRandom256Bit random2).

(** [new TextEncoder().encode(s)] on code units below 256. *)
Definition utf8Char (c : ascii) : bytes :=
  let n := Z.of_nat (nat_of_ascii c) in
  if (n <? 128)%Z then [n] else [(192 + n / 64)%Z; (128 + n mod 64)%Z].

Fixpoint utf8 (s : string) : bytes :=
  match s with
  | EmptyString => []
  | String c s' => utf8Char c ++ utf8 s'
  end.

(** The first loop of [generateLabel], over at most 31 bytes of the
    scope. *)
Definition scopeValue (scope : string) : Z :=
  let scopeBytes := utf8 scope in
  fold_left shiftInByte
    (map (fun i => nth i scopeBytes 0%Z)
       (seq 0 (Nat.min (length scopeBytes) 31))) 0%Z.

(** [generateLabel(scope, nonce)] for an integral nonce. *)
Definition generateLabel (scope : string) (nonce : Z) : result Z :=
  labelHash <- poseidonHash [Big (scopeValue scope); Big nonce] ;;
  Ok (Z.rem labelHash SNARK_SCALAR_FIELD).

(** What [getZeroValue] does: return the value, or throw
    [`Invalid level: ${level}`]. *)
Inductive zeroValueOutcome : Type :=
| ZeroValue (z : jsval)
| InvalidLevel (level : Z)
| ZeroValuesThrew (e : error).

(** [getZeroValue(level)] for an integral level. *)
Definition getZeroValue (level : Z) : zeroValueOutcome :=
  match initializeZeroValues with
  | Ok zeros =>
      if (level <? 0)%Z || (Z.of_nat TREE_DEPTH <? level)%Z then InvalidLevel level
      else ZeroValue (js_index zeros level)
  | Err e => ZeroValuesThrew e
  end.

(** [getLeaves] and [getLeafCount] *)
Definition getLeaves (t : LeanMerkleTree) : list Z := leaves t.
Definition getLeafCount (t : LeanMerkleTree) : nat := length (leaves t).

(** [buildMerkleTreeFromCommitments] *)
Definition buildMerkleTreeFromCommitments (commitments : list bytes)
    : result LeanMerkleTree :=
  fromBufferLeaves commitments TREE_DEPTH.

(** [siblingsToCircuitInput] *)
Definition siblingsToCircuitInput (siblings : list jsval) : result (list string) :=
  mapToString siblings.

(** The outcome of [validateNote]: the note, or the message of the error
    caught. *)
Inductive NoteValidation : Type :=
| ValidNote (note : DepositNote)
| InvalidNote (e : error).

(** [validateNote] *)
Definition validateNote (noteString : string) : NoteValidation :=
  match (note <- decodeNote noteString ;;
         _ <- computeCommitment (value note) (label note) (nullifier note)
                (secret note) ;;
         Ok note) with
  | Ok note => ValidNote note
  | Err e => InvalidNote e
  end.










(** The bytes a list of hex digits spells, two digits a byte. *)
Fixpoint pairBytes (ds : list Z) : bytes :=
  match ds with
  | a :: b :: rest => (a * 16 + b)%Z :: pairBytes rest
  | _ => []
  end.

(** The hex digits of a byte string, two a byte. *)
Fixpoint nibbles (b : bytes) : list Z :=
  match b with
  | [] => []
  | x :: b' => (x / 16)%Z :: (x mod 16)%Z :: nibbles b'
  end.

(** The 64 hex digits [padStart(64, '0')] leaves of a value. *)
Definition digits64 (v : Z) : list Z :=
  repeat 0%Z (64 - length (digitsOf 16 v)) ++ digitsOf 16 v.

(** *** Sample data for running the handlers *)

Definition sampleNote : DepositNote :=
  mkNote 11 22 FIXED_AMOUNT_STROOPS 33 (Int 0).

Definition sampleProof : Groth16Proof :=
  mkProof ("1", "2", "1")%string
    (("3", "4"), ("5", "6"), ("1", "0"))%string
    ("7", "8", "1")%string "groth16"%string "bn128"%string.

(** A pool that holds the sample note's deposit alone; the association
    root is whatever the authority has stored. *)
Definition samplePool (associationRoot : bytes) (used : list bytes) : Contract :=
  mkContract
    (Ok (Some [bigintToBuffer
                 (poseidon2 (poseidon2 (value sampleNote) (label sampleNote))
                    (poseidon2 (nullifier sampleNote) (secret sampleNote)))]))
    (Ok (Some associationRoot))
    (Ok (Some used))
    (fun _ => Ok (sampleProof, ["9"; "1000000000"; "10"; "0"]%string))
    (fun _ _ => Ok tt)
    (Ok ([], Some "txhash"%string)).


(** ** Proofs *)

(** *** Hashing *)

Lemma poseidonHash_pair (a b : Z) :
  poseidonHash [Big a; Big b] = Ok (poseidon2 a b).
Proof. reflexivity. Qed.

Lemma poseidonHash_undefined_r (a : Z) :
  poseidonHash [Big a; Undefined] = Err PoseidonInputError.
Proof. reflexivity. Qed.

Lemma poseidonHash_fold_pairs (acc : Z) (rest : list Z) :
  poseidonHash_fold (poseidonHash_rec 1) acc (map Big rest)
  = Ok (fold_left poseidon2 rest acc).
Proof.
  revert acc. induction rest as [|x rest IH]; intros acc; simpl.
  - reflexivity.
  - apply IH.
Qed.

(** *** The zero table *)

Lemma initializeZeroValues_table : initializeZeroValues = Ok zeroTable.
Proof. reflexivity. Qed.

Lemma zeroTable_inside (level : nat) :
  level <= TREE_DEPTH -> js_nth zeroTable level = Big (zeroAt level).
Proof.
  intros Hle. unfold js_nth, zeroTable.
  change Undefined with ((fun _ : Z => Undefined) 0%Z).
  rewrite nth_indep with (d' := Big 0%Z)
    by (rewrite !length_map, length_seq; lia).
  rewrite (map_nth Big), (map_nth zeroAt) with (d := 0).
  rewrite seq_nth by lia. reflexivity.
Qed.

Lemma zeroTable_outside (level : nat) :
  TREE_DEPTH < level -> js_nth zeroTable level = Undefined.
Proof.
  intros Hlt. unfold js_nth, zeroTable.
  apply nth_overflow. rewrite !length_map, length_seq. lia.
Qed.

(** *** Layers *)

Lemma list_pair_ind (A : Type) (P : list A -> Prop) :
  P [] -> (forall a, P [a]) -> (forall a b l, P l -> P (a :: b :: l)) ->
  forall l, P l.
Proof.
  intros H0 H1 H2.
  fix IH 1. intros [|a [|b l]].
  - exact H0.
  - apply H1.
  - apply H2, IH.
Qed.

Lemma nextLayer_Big (z : Z) (l : list Z) :
  nextLayer (Big z) (map Big l) = Ok (map Big (hashLayer z l)).
Proof.
  induction l as [|a|a b l IH] using list_pair_ind.
  - reflexivity.
  - reflexivity.
  - cbn [map nextLayer hashLayer]. rewrite poseidonHash_pair. cbn [bind].
    rewrite IH. reflexivity.
Qed.

Lemma hashLayer_length (z : Z) (l : list Z) :
  length (hashLayer z l) = Nat.div2 (S (length l)).
Proof.
  induction l as [|a|a b l IH] using list_pair_ind.
  - reflexivity.
  - reflexivity.
  - cbn [hashLayer length]. rewrite IH. reflexivity.
Qed.

Lemma hashLayer_nonempty (z : Z) (l : list Z) :
  l <> [] -> hashLayer z l <> [].
Proof. destruct l as [|a [|b l]]; simpl; congruence. Qed.

Lemma div2_S_pow (n k : nat) :
  n <= 2 ^ S k -> Nat.div2 (S n) <= 2 ^ k.
Proof.
  rewrite Nat.pow_succ_r'. generalize (2 ^ k). intros q Hn.
  pose proof (Nat.div2_odd (S n)) as Hodd.
  destruct (Nat.odd (S n)); simpl Nat.b2n in Hodd; lia.
Qed.

Lemma layersUp_length_one (k level : nat) (l : list Z) :
  l <> [] -> length l <= 2 ^ k -> length (layersUp k level l) = 1.
Proof.
  revert level l. induction k as [|k IH]; intros level l Hne Hlen.
  - simpl in *. destruct l; [congruence|]. simpl in *. lia.
  - cbn [layersUp]. apply IH.
    + now apply hashLayer_nonempty.
    + rewrite hashLayer_length. now apply div2_S_pow.
Qed.

(** The parent of node [i] is the hash of the node and its sibling, the
    order taken from the parity of [i]. *)
Lemma nth_hashLayer (z : Z) (l : list Z) (i : nat) :
  i < length l ->
  nth (Nat.div2 i) (hashLayer z l) 0%Z
  = if Nat.even i then poseidon2 (nth i l 0%Z) (siblingOf z l i)
    else poseidon2 (siblingOf z l i) (nth i l 0%Z).
Proof.
  revert i. induction l as [|a|a b l IH] using list_pair_ind; intros i Hi.
  - simpl in Hi. lia.
  - simpl in Hi. assert (i = 0) by lia. subst i. reflexivity.
  - destruct i as [|[|i]].
    + reflexivity.
    + reflexivity.
    + cbn [length] in Hi. assert (Hi' : i < length l) by lia.
      specialize (IH i Hi').
      change (Nat.div2 (S (S i))) with (S (Nat.div2 i)).
      change (Nat.even (S (S i))) with (Nat.even i).
      cbn [hashLayer nth]. rewrite IH.
      unfold siblingOf.
      change (Nat.even (S (S i))) with (Nat.even i).
      destruct (Nat.even i) eqn:Hev.
      * replace (S (S i) + 1) with (S (S (i + 1))) by lia. reflexivity.
      * destruct i as [|i]; [discriminate|].
        replace (S (S (S i)) - 1) with (S (S (S i - 1))) by lia. reflexivity.
Qed.

Lemma div2_lt_hashLayer (z : Z) (l : list Z) (i : nat) :
  i < length l -> Nat.div2 i < length (hashLayer z l).
Proof.
  intros Hi. rewrite hashLayer_length.
  pose proof (Nat.div2_odd i) as Hi2.
  pose proof (Nat.div2_odd (S (length l))) as Hl2.
  destruct (Nat.odd i), (Nat.odd (S (length l))); simpl Nat.b2n in *; lia.
Qed.

(** Folding node [i] with the siblings collected on its way up gives a
    node of the layer reached. *)
Lemma foldPath_pathUp (k level : nat) (l : list Z) (i : nat) :
  i < length l ->
  exists j, j < length (layersUp k level l)
    /\ foldPath (nth i l 0%Z) i (pathUp k level l i)
       = nth j (layersUp k level l) 0%Z.
Proof.
  revert level l i. induction k as [|k IH]; intros level l i Hi.
  - exists i. split; [exact Hi|reflexivity].
  - cbn [pathUp foldPath layersUp].
    rewrite <- (nth_hashLayer (zeroAt level) l Hi).
    apply IH. now apply div2_lt_hashLayer.
Qed.

Lemma foldPath_root (k level : nat) (l : list Z) (i : nat) :
  i < length l -> length l <= 2 ^ k ->
  foldPath (nth i l 0%Z) i (pathUp k level l i) = nth 0 (layersUp k level l) 0%Z.
Proof.
  intros Hi Hlen.
  destruct (foldPath_pathUp k level l Hi) as [j [Hj Heq]].
  assert (Hne : l <> []) by (destruct l; simpl in *; [lia|congruence]).
  rewrite (layersUp_length_one k level Hne Hlen) in Hj.
  assert (j = 0) by lia. subst j. exact Heq.
Qed.

Lemma pathUp_length (k level : nat) (l : list Z) (i : nat) :
  length (pathUp k level l i) = k.
Proof.
  revert level l i. induction k as [|k IH]; intros; simpl; [reflexivity|].
  now rewrite IH.
Qed.

(** *** Index arithmetic of the loops *)

Lemma rem2_even (i : nat) : (Z.rem (Z.of_nat i) 2 =? 0)%Z = Nat.even i.
Proof.
  rewrite Z.rem_mod_nonneg by lia.
  rewrite <- Zeven_mod.
  rewrite <- Nat.negb_odd, <- Z.negb_odd. f_equal.
  pose proof (Nat.odd_spec i) as Hn. pose proof (Z.odd_spec (Z.of_nat i)) as Hz.
  destruct (Nat.odd i), (Z.odd (Z.of_nat i)); try reflexivity; exfalso.
  - destruct Hn as [[m Hm] _]; [reflexivity|].
    assert (Z.Odd (Z.of_nat i)) by (exists (Z.of_nat m); lia).
    apply Hz in H. discriminate.
  - destruct Hz as [[m Hm] _]; [reflexivity|].
    assert (Nat.Odd i) by (exists (Z.to_nat m); lia).
    apply Hn in H. discriminate.
Qed.

Lemma half_div2 (i : nat) : (Z.of_nat i / 2)%Z = Z.of_nat (Nat.div2 i).
Proof. now rewrite Nat2Z.inj_div2, Z.div2_div. Qed.

Lemma js_nth_Big (l : list Z) (i : nat) :
  i < length l -> js_nth (map Big l) i = Big (nth i l 0%Z).
Proof.
  intros Hi. unfold js_nth.
  rewrite nth_indep with (d' := Big 0%Z) by (now rewrite length_map).
  apply (map_nth Big).
Qed.

(** *** The loops of merkle.ts against their mathematical counterparts *)

Lemma length_zero_false (A : Type) (l : list A) :
  l <> [] -> (length l =? 0) = false.
Proof. destruct l; [congruence|reflexivity]. Qed.

Lemma getMerklePath_loop_pathUp (count level : nat) (l : list Z) (i : nat)
    (acc : list jsval) :
  level + count <= S TREE_DEPTH -> i < length l ->
  getMerklePath_loop count level zeroTable (map Big l) (Z.of_nat i) acc
  = Ok (acc ++ map Big (pathUp count level l i)).
Proof.
  revert level l i acc.
  induction count as [|count IH]; intros level l i acc Hlev Hi.
  - simpl. now rewrite app_nil_r.
  - cbn [getMerklePath_loop pathUp].
    rewrite zeroTable_inside by lia.
    rewrite nextLayer_Big. cbn [bind].
    assert (Hne : l <> []) by (destruct l; simpl in *; [lia|congruence]).
    rewrite length_zero_false
      by (intros Hmap; apply map_eq_nil in Hmap; revert Hmap;
          now apply hashLayer_nonempty).
    rewrite half_div2, rem2_even, length_map.
    rewrite IH by (try lia; now apply div2_lt_hashLayer).
    f_equal. cbn [map].
    match goal with
    | |- ?sibs ++ _ = _ =>
        assert (Hs : sibs = acc ++ [Big (siblingOf (zeroAt level) l i)])
    end.
    { unfold siblingOf, js_index.
      destruct (Nat.even i) eqn:Hev.
      - destruct (Z.of_nat i + 1 <? Z.of_nat (length l))%Z eqn:Hin.
        + apply Z.ltb_lt in Hin.
          replace (Z.of_nat i + 1 <? 0)%Z with false
            by (symmetry; apply Z.ltb_ge; lia).
          replace (Z.to_nat (Z.of_nat i + 1)) with (i + 1) by lia.
          rewrite js_nth_Big by lia.
          do 3 f_equal. apply nth_indep. lia.
        + apply Z.ltb_ge in Hin. rewrite nth_overflow by lia. reflexivity.
      - destruct i as [|i]; [discriminate|].
        replace (Z.of_nat (S i) - 1 <? Z.of_nat (length l))%Z with true
          by (symmetry; apply Z.ltb_lt; lia).
        replace (Z.of_nat (S i) - 1 <? 0)%Z with false
          by (symmetry; apply Z.ltb_ge; lia).
        replace (Z.to_nat (Z.of_nat (S i) - 1)) with (S i - 1) by lia.
        rewrite js_nth_Big by lia.
        do 3 f_equal. apply nth_indep. lia. }
    rewrite Hs, <- app_assoc. reflexivity.
Qed.

Lemma verifyProof_loop_foldPath (sibs pre : list Z) (h : Z) (i : nat) :
  verifyProof_loop (length sibs) (length pre) (map Big (pre ++ sibs)) (Big h)
    (Z.of_nat i)
  = Ok (Big (foldPath h i sibs)).
Proof.
  revert pre h i. induction sibs as [|s sibs IH]; intros pre h i.
  - reflexivity.
  - cbn [length verifyProof_loop foldPath].
    rewrite js_nth_Big by (rewrite length_app; simpl; lia).
    rewrite app_nth2 by lia. rewrite Nat.sub_diag. cbn [nth].
    rewrite rem2_even, half_div2.
    replace (pre ++ s :: sibs) with ((pre ++ [s]) ++ sibs)
      by (now rewrite <- app_assoc).
    replace (S (length pre)) with (length (pre ++ [s]))
      by (rewrite length_app; simpl; lia).
    destruct (Nat.even i); rewrite poseidonHash_pair; cbn [bind]; apply IH.
Qed.

Lemma computeRoot_loop_layersUp (k fuel d level : nat) (l : list Z) :
  level + k = d -> d <= S TREE_DEPTH -> l <> [] -> length l <= 2 ^ k ->
  k < fuel ->
  computeRoot_loop fuel d zeroTable (map Big l) level
  = Ok (Big (nth 0 (layersUp k level l) 0%Z)).
Proof.
  revert fuel level l.
  induction k as [|k IH]; intros fuel level l Hd Hmax Hne Hlen Hfuel.
  - destruct fuel as [|fuel]; [lia|].
    cbn [computeRoot_loop layersUp]. rewrite length_map.
    assert (Hone : length l = 1)
      by (destruct l; simpl in *; [congruence|lia]).
    rewrite Hone.
    replace (level <? d) with false by (symmetry; apply Nat.ltb_ge; lia).
    cbn [Nat.ltb Nat.leb orb]. f_equal. apply js_nth_Big. lia.
  - destruct fuel as [|fuel]; [lia|].
    cbn [computeRoot_loop layersUp].
    replace (level <? d) with true by (symmetry; apply Nat.ltb_lt; lia).
    rewrite orb_true_r.
    rewrite zeroTable_inside by lia.
    rewrite nextLayer_Big. cbn [bind].
    pose proof (hashLayer_nonempty (zeroAt level) Hne) as Hne'.
    rewrite length_zero_false
      by (intros Hmap; apply map_eq_nil in Hmap; contradiction).
    assert (Hlen' : length (hashLayer (zeroAt level) l) <= 2 ^ k)
      by (rewrite hashLayer_length; now apply div2_S_pow).
    destruct ((d <=? S level) && (length (map Big (hashLayer (zeroAt level) l)) =? 1))
      eqn:Hbreak.
    + apply andb_true_iff in Hbreak. destruct Hbreak as [Hd' _].
      apply Nat.leb_le in Hd'. assert (k = 0) by lia. subst k.
      cbn [layersUp]. f_equal. apply js_nth_Big.
      destruct (hashLayer (zeroAt level) l); simpl; [congruence|lia].
    + assert (Hk : k <> 0).
      { intros ->. apply andb_false_iff in Hbreak. destruct Hbreak as [Hd'|Hlen1].
        - apply Nat.leb_gt in Hd'. lia.
        - apply Nat.eqb_neq in Hlen1. rewrite length_map in Hlen1.
          simpl in Hlen'. destruct (hashLayer (zeroAt level) l); simpl in *;
            [congruence|lia]. }
      apply IH; trivial; lia.
Qed.

(** *** Building a tree with [addLeaf] *)

Lemma addLeaves_ok (ls : list Z) (t : LeanMerkleTree) :
  length (leaves t) + length ls <= 2 ^ depth t ->
  addLeaves t ls = Ok (mkTree (leaves t ++ ls) (depth t)).
Proof.
  revert t. induction ls as [|x ls IH]; intros [lv d] Hlen.
  - simpl. now rewrite app_nil_r.
  - cbn [addLeaves leaves depth] in *. simpl length in Hlen.
    unfold addLeaf. cbn [leaves depth].
    replace (2 ^ d <=? length lv) with false by (symmetry; apply Nat.leb_gt; lia).
    rewrite IH by (cbn [leaves depth]; rewrite length_app; simpl; lia).
    cbn [leaves depth]. now rewrite <- app_assoc.
Qed.

(** *** The reference hash against the layered one *)

Lemma referenceLayer_repeat (z : Z) (m : nat) :
  referenceLayer (repeat z (2 * m)) = repeat (poseidon2 z z) m.
Proof.
  induction m as [|m IH]; [reflexivity|].
  replace (2 * S m) with (S (S (2 * m))) by lia.
  cbn [repeat referenceLayer]. now rewrite IH.
Qed.

(** Hashing a zero-padded full layer pairwise is hashing the filled part
    with the odd node paired with zero, and padding the result with the
    next zero. *)
Lemma referenceLayer_padded (z : Z) (l : list Z) (m : nat) :
  length l <= 2 * m ->
  referenceLayer (l ++ repeat z (2 * m - length l))
  = hashLayer z l ++ repeat (poseidon2 z z) (m - length (hashLayer z l)).
Proof.
  revert m. induction l as [|a|a b l IH] using list_pair_ind; intros m Hlen.
  - cbn [app length hashLayer]. rewrite !Nat.sub_0_r. apply referenceLayer_repeat.
  - destruct m as [|m]; [simpl in Hlen; lia|].
    cbn [length hashLayer app].
    replace (2 * S m - 1) with (S (2 * m)) by lia.
    cbn [repeat referenceLayer]. rewrite referenceLayer_repeat.
    now replace (S m - 1) with m by lia.
  - destruct m as [|m]; [simpl in Hlen; lia|].
    cbn [length] in Hlen.
    cbn [length hashLayer app referenceLayer].
    replace (2 * S m - S (S (length l))) with (2 * m - length l) by lia.
    rewrite IH by lia. reflexivity.
Qed.

Lemma iter_referenceLayer (k level : nat) (l : list Z) :
  length l <= 2 ^ k ->
  Nat.iter k referenceLayer (l ++ repeat (zeroAt level) (2 ^ k - length l))
  = layersUp k level l
    ++ repeat (zeroAt (level + k)) (1 - length (layersUp k level l)).
Proof.
  revert level l. induction k as [|k IH]; intros level l Hlen.
  - cbn [Nat.iter nat_rect layersUp]. now rewrite Nat.add_0_r.
  - rewrite Nat.iter_succ_r. cbn [layersUp].
    rewrite Nat.pow_succ_r' in *.
    rewrite referenceLayer_padded by exact Hlen.
    change (poseidon2 (zeroAt level) (zeroAt level)) with (zeroAt (S level)).
    rewrite IH.
    + now rewrite Nat.add_succ_r.
    + rewrite hashLayer_length.
      apply div2_S_pow. now rewrite Nat.pow_succ_r'.
Qed.

Lemma layersUp_nil (k level : nat) : layersUp k level [] = [].
Proof. revert level. induction k as [|k IH]; intros level; [reflexivity|apply IH]. Qed.

Lemma referenceRoot_layersUp (d : nat) (ls : list Z) :
  ls <> [] -> length ls <= 2 ^ d ->
  referenceRoot d ls = nth 0 (layersUp d 0 ls) 0%Z.
Proof.
  intros Hne Hlen. unfold referenceRoot.
  change 0%Z with (zeroAt 0) at 1.
  rewrite iter_referenceLayer by exact Hlen.
  rewrite (layersUp_length_one d 0 Hne Hlen). cbn [Nat.sub repeat].
  now rewrite app_nil_r.
Qed.

Lemma referenceRoot_empty (d : nat) : referenceRoot d [] = zeroAt d.
Proof.
  unfold referenceRoot.
  change 0%Z with (zeroAt 0) at 1.
  rewrite iter_referenceLayer by (simpl; lia).
  now rewrite layersUp_nil.
Qed.

Lemma computeRoot_nonempty (d : nat) (ls : list Z) :
  d <= S TREE_DEPTH -> ls <> [] -> length ls <= 2 ^ d ->
  computeRoot (mkTree ls d) = Ok (Big (nth 0 (layersUp d 0 ls) 0%Z)).
Proof.
  intros Hd Hne Hlen. unfold computeRoot.
  rewrite initializeZeroValues_table. cbn [bind leaves depth].
  rewrite length_zero_false by exact Hne.
  apply computeRoot_loop_layersUp; trivial; lia.
Qed.

Lemma computeRoot_empty (d : nat) :
  computeRoot (mkTree [] d) = Ok (js_nth zeroTable d).
Proof. reflexivity. Qed.

Lemma getMerklePath_pathUp (d : nat) (ls : list Z) (i : nat) :
  d <= S TREE_DEPTH -> i < length ls ->
  getMerklePath (mkTree ls d) (Z.of_nat i) = Ok (map Big (pathUp d 0 ls i)).
Proof.
  intros Hd Hi. unfold getMerklePath. cbn [leaves depth].
  replace (Z.of_nat i <? 0)%Z with false by (symmetry; apply Z.ltb_ge; lia).
  replace (Z.of_nat (length ls) <=? Z.of_nat i)%Z with false
    by (symmetry; apply Z.leb_gt; lia).
  cbn [orb]. rewrite initializeZeroValues_table. cbn [bind].
  now rewrite getMerklePath_loop_pathUp by (trivial; lia).
Qed.

Lemma verifyProof_foldPath (d : nat) (ls sibs : list Z) (h r : Z) (i : nat) :
  length sibs = d ->
  verifyProof (mkTree ls d) (Big h) (Z.of_nat i) (map Big sibs) (Big r)
  = Ok (foldPath h i sibs =? r)%Z.
Proof.
  intros Hlen. unfold verifyProof. cbn [depth].
  rewrite length_map, Hlen, Nat.eqb_refl. cbn [negb].
  rewrite <- Hlen.
  change (map Big sibs) with (map Big (sibs)).
  change 0 with (length (@nil Z)) at 1.
  rewrite verifyProof_loop_foldPath. reflexivity.
Qed.

(** *** Claims on crypto.ts and merkle.ts *)

(** C1, amended.  For every depth [1 <= d <= TREE_DEPTH + 1], every
    sequence of at most [2^d] leaves inserted with [addLeaf] and every
    index [i] below the leaf count, [getMerklePath(i)] and [computeRoot()]
    return, and [verifyProof(leaves[i], i, getMerklePath(i), computeRoot())]
    returns [true]. *)
Theorem own_path_verifies (d : nat) (ls : list Z) (i : nat) :
  1 <= d <= S TREE_DEPTH -> length ls <= 2 ^ d -> i < length ls ->
  addLeaves (newTree d) ls = Ok (mkTree ls d)
  /\ exists siblings root,
       getMerklePath (mkTree ls d) (Z.of_nat i) = Ok siblings
       /\ computeRoot (mkTree ls d) = Ok root
       /\ verifyProof (mkTree ls d) (js_nth (map Big ls) i) (Z.of_nat i)
            siblings root = Ok true.
Proof.
  intros [_ Hd] Hlen Hi. split.
  - now rewrite addLeaves_ok by (simpl; lia).
  - assert (Hne : ls <> []) by (destruct ls; simpl in *; [lia|congruence]).
    exists (map Big (pathUp d 0 ls i)), (Big (nth 0 (layersUp d 0 ls) 0%Z)).
    split; [now apply getMerklePath_pathUp|].
    split; [now apply computeRoot_nonempty|].
    rewrite js_nth_Big by exact Hi.
    rewrite verifyProof_foldPath by apply pathUp_length.
    rewrite foldPath_root by trivial.
    now rewrite Z.eqb_refl.
Qed.

(** Beyond the zero table a lone leaf has no path: level 9 pads with
    [zeros[9]], which is [undefined], and the hash throws. *)
Lemma getMerklePath_depth10 :
  getMerklePath (mkTree [5%Z] 10) 0 = Err PoseidonInputError.
Proof. reflexivity. Qed.

(** C2, amended.  For every depth [d <= TREE_DEPTH], and for
    [d = TREE_DEPTH + 1] when the tree is not empty, and every leaf count
    [n <= 2^d], [computeRoot] after [n] inserts equals the reference
    full-tree hash of the leaves padded with zeros; the empty tree of depth
    [d <= TREE_DEPTH] has root [zero[d]]; at depth 3 the roots after
    inserting 5, and then 7, are [H(H(H(5, zero[0]), zero[1]), zero[2])] and
    [H(H(H(5, 7), zero[1]), zero[2])]. *)
Theorem computeRoot_reference :
  (forall (d : nat) (ls : list Z),
     length ls <= 2 ^ d ->
     d <= TREE_DEPTH \/ (d = S TREE_DEPTH /\ ls <> []) ->
     addLeaves (newTree d) ls = Ok (mkTree ls d)
     /\ computeRoot (mkTree ls d) = Ok (Big (referenceRoot d ls)))
  /\ (forall d : nat, d <= TREE_DEPTH ->
        computeRoot (newTree d) = Ok (Big (zeroAt d)))
  /\ (fst (addLeaf (newTree 3) 5%Z) = Ok 0
      /\ computeRoot (snd (addLeaf (newTree 3) 5%Z))
         = Ok (Big (poseidon2 (poseidon2 (poseidon2 5 (zeroAt 0)) (zeroAt 1))
                      (zeroAt 2))))
  /\ (fst (addLeaf (snd (addLeaf (newTree 3) 5%Z)) 7%Z) = Ok 1
      /\ computeRoot (snd (addLeaf (snd (addLeaf (newTree 3) 5%Z)) 7%Z))
         = Ok (Big (poseidon2 (poseidon2 (poseidon2 5 7) (zeroAt 1))
                      (zeroAt 2)))).
Proof.
  split; [|split; [|split]].
  - intros d ls Hlen Hd. split.
    + now rewrite addLeaves_ok by (simpl; lia).
    + destruct ls as [|x ls].
      * destruct Hd as [Hd|[_ Hne]]; [|congruence].
        rewrite computeRoot_empty, zeroTable_inside by exact Hd.
        now rewrite referenceRoot_empty.
      * rewrite computeRoot_nonempty by (trivial; try congruence; lia).
        rewrite referenceRoot_layersUp by (trivial; congruence).
        reflexivity.
  - intros d Hd. unfold newTree.
    now rewrite computeRoot_empty, zeroTable_inside.
  - split; reflexivity.
  - split; reflexivity.
Qed.

(** An empty tree one level deeper than the zero table reads
    [zeros[9]], which is [undefined]. *)
Lemma computeRoot_depth9_empty : computeRoot (newTree 9) = Ok Undefined.
Proof. reflexivity. Qed.

(** C3.  [computeCommitment(value, label, nullifier, secret)] returns
    [H(H(value, label), H(nullifier, secret))] for the two-input Poseidon
    hash [H]; the result is a function of the four arguments alone. *)
Theorem computeCommitment_formula (value label nullifier secret : Z) :
  computeCommitment value label nullifier secret
  = Ok (poseidon2 (poseidon2 value label) (poseidon2 nullifier secret)).
Proof. reflexivity. Qed.

(** C4.  For every input list of length above 2, [poseidonHash] is the
    left-to-right fold of the two-input hash: it starts from
    [H(in[0], in[1])] and goes on with [h = H(h, in[i])] for [i = 2 .. n-1]. *)
Theorem poseidonHash_sequential (inputs : list Z) :
  2 < length inputs ->
  poseidonHash (map Big inputs) = Ok (sequentialFold inputs).
Proof.
  intros Hlen.
  destruct inputs as [|in0 [|in1 [|in2 rest]]]; simpl in Hlen; try lia.
  unfold poseidonHash, sequentialFold.
  cbn [poseidonHash_rec map length Nat.ltb Nat.leb].
  change (poseidonHash_rec 1 [Big in0; Big in1]) with (Ok (poseidon2 in0 in1)).
  cbn [bind nth skipn].
  apply (poseidonHash_fold_pairs (poseidon2 in0 in1) (in2 :: rest)).
Qed.

(** C5.  [addLeaf(leaf)] returns the 0-based insertion index, the leaf
    count before the insert, and appends the leaf when the tree holds
    fewer than [2^d] leaves; it throws 'Tree at capacity' exactly when the
    index would be [>= 2^d], and then the leaf sequence is unchanged. *)
Theorem addLeaf_index_or_full (t : LeanMerkleTree) (leaf : Z) :
  (length (leaves t) < 2 ^ depth t ->
     addLeaf t leaf
     = (Ok (length (leaves t)), mkTree (leaves t ++ [leaf]) (depth t)))
  /\ (isErr (fst (addLeaf t leaf)) = true <-> 2 ^ depth t <= length (leaves t))
  /\ (2 ^ depth t <= length (leaves t) ->
        addLeaf t leaf = (Err TreeAtCapacity, t)).
Proof.
  clear poseidon1 poseidon2.
  unfold addLeaf.
  destruct (2 ^ depth t <=? length (leaves t)) eqn:Hfull.
  - apply Nat.leb_le in Hfull. cbn [fst isErr].
    split; [lia|]. split; [tauto|reflexivity].
  - apply Nat.leb_gt in Hfull. cbn [fst isErr].
    split; [reflexivity|]. split; [|lia].
    split; [discriminate|lia].
Qed.

(** *** Digits and strings *)

Lemma hex_digit_cases (d : Z) :
  isDigit 16 d ->
  In d [0; 1; 2; 3; 4; 5; 6; 7; 8; 9; 10; 11; 12; 13; 14; 15]%Z.
Proof.
  clear poseidon1 poseidon2.
  unfold isDigit. intros Hd. simpl.
  assert (d = 0 \/ d = 1 \/ d = 2 \/ d = 3 \/ d = 4 \/ d = 5 \/ d = 6 \/ d = 7
          \/ d = 8 \/ d = 9 \/ d = 10 \/ d = 11 \/ d = 12 \/ d = 13 \/ d = 14
          \/ d = 15)%Z by lia.
  intuition auto.
Qed.

Ltac hex_cases d H :=
  let Hin := fresh "Hin" in
  pose proof (hex_digit_cases H) as Hin; simpl in Hin;
  repeat (destruct Hin as [Hin|Hin]; [subst d|]); [..|contradiction].

Lemma digitIn_digitChar (radix d : Z) :
  (radix <= 16)%Z -> isDigit radix d -> digitIn radix (digitChar d) = Some d.
Proof.
  intros Hr Hd.
  assert (H16 : isDigit 16 d) by (unfold isDigit in *; lia).
  unfold digitIn.
  assert (Hv : digitValue (digitChar d) = Some d) by (hex_cases d H16; reflexivity).
  rewrite Hv. replace (d <? radix)%Z with true; [reflexivity|].
  symmetry. apply Z.ltb_lt. apply Hd.
Qed.

Lemma digitChar_plain (d : Z) :
  isDigit 16 d ->
  isWhiteSpace (digitChar d) = false
  /\ Ascii.eqb (digitChar d) "-"%char = false
  /\ Ascii.eqb (digitChar d) "+"%char = false
  /\ isChar (digitChar d) "x"%char "X"%char = false.
Proof. intros Hd. hex_cases d Hd; repeat split; reflexivity. Qed.

Lemma digitsValue_app (radix : Z) (xs ys : list Z) (acc : Z) :
  digitsValue radix (xs ++ ys) acc = digitsValue radix ys (digitsValue radix xs acc).
Proof. apply fold_left_app. Qed.

Lemma digitsValue_rev (radix : Z) (ds : list Z) :
  digitsValue radix (rev ds) 0 = leValue radix ds.
Proof.
  unfold digitsValue, leValue.
  rewrite <- (rev_involutive ds) at 2.
  now rewrite fold_left_rev_right.
Qed.

Lemma digitsRev_value (radix : Z) (fuel : nat) (n : Z) :
  (2 <= radix)%Z -> (0 <= n < 2 ^ Z.of_nat fuel)%Z ->
  leValue radix (digitsRev fuel radix n) = n.
Proof.
  intros Hr. revert n. induction fuel as [|fuel IH]; intros n Hn.
  - simpl in *. lia.
  - cbn [digitsRev leValue fold_right].
    pose proof (Z.div_mod n radix ltac:(lia)) as Hdm.
    destruct (n / radix =? 0)%Z eqn:Hq.
    + apply Z.eqb_eq in Hq. simpl. rewrite Hq in Hdm. lia.
    + fold (leValue radix (digitsRev fuel radix (n / radix))).
      rewrite IH; [lia|].
      split; [apply Z.div_pos; lia|].
      apply Z.div_lt_upper_bound; [lia|].
      rewrite Nat2Z.inj_succ, Z.pow_succ_r in Hn by lia.
      nia.
Qed.

Lemma digitsRev_range (radix : Z) (fuel : nat) (n : Z) :
  (0 < radix)%Z -> Forall (isDigit radix) (digitsRev fuel radix n).
Proof.
  intros Hr. revert n. induction fuel as [|fuel IH]; intros n; [constructor|].
  cbn [digitsRev]. constructor.
  - apply Z.mod_pos_bound. exact Hr.
  - destruct (n / radix =? 0)%Z; [constructor|apply IH].
Qed.

(** A value below [radix^k] has at most [k] digits. *)
Lemma digitsRev_length (radix : Z) (fuel : nat) (n : Z) (k : nat) :
  (2 <= radix)%Z -> (0 <= n < radix ^ Z.of_nat k)%Z -> 1 <= k ->
  length (digitsRev fuel radix n) <= k.
Proof.
  intros Hr. revert n k. induction fuel as [|fuel IH]; intros n k Hn Hk.
  - simpl. lia.
  - cbn [digitsRev length].
    destruct (n / radix =? 0)%Z eqn:Hq; [simpl; lia|].
    apply Z.eqb_neq in Hq.
    destruct k as [|k]; [lia|].
    rewrite Nat2Z.inj_succ, Z.pow_succ_r in Hn by lia.
    assert (Hdiv : (0 <= n / radix < radix ^ Z.of_nat k)%Z).
    { split; [apply Z.div_pos; lia|].
      apply Z.div_lt_upper_bound; lia. }
    destruct k as [|k].
    + simpl in Hdiv. lia.
    + apply le_n_S. apply IH; [exact Hdiv|lia].
Qed.

Lemma log2_fuel (n : Z) :
  (0 <= n)%Z -> (0 <= n < 2 ^ Z.of_nat (S (Z.to_nat (Z.log2 n))))%Z.
Proof.
  intros Hn. split; [exact Hn|].
  rewrite Nat2Z.inj_succ, Z2Nat.id by apply Z.log2_nonneg.
  destruct (Z.eq_dec n 0) as [->|Hne]; [reflexivity|].
  apply Z.log2_spec. lia.
Qed.

Lemma digitsOf_value (radix n : Z) :
  (2 <= radix)%Z -> (0 <= n)%Z -> digitsValue radix (digitsOf radix n) 0 = n.
Proof.
  intros Hr Hn. unfold digitsOf.
  rewrite digitsValue_rev. apply digitsRev_value; [exact Hr|].
  now apply log2_fuel.
Qed.

Lemma digitsOf_range (radix n : Z) :
  (0 < radix)%Z -> Forall (isDigit radix) (digitsOf radix n).
Proof.
  intros Hr. unfold digitsOf. apply Forall_rev. now apply digitsRev_range.
Qed.

Lemma digitsOf_nonempty (radix n : Z) : digitsOf radix n <> [].
Proof.
  unfold digitsOf. cbn [digitsRev].
  intros Hnil. apply (f_equal (@length Z)) in Hnil.
  rewrite length_rev in Hnil. simpl in Hnil. lia.
Qed.

Lemma digitsOf_length (radix n : Z) (k : nat) :
  (2 <= radix)%Z -> (0 <= n < radix ^ Z.of_nat k)%Z -> 1 <= k ->
  length (digitsOf radix n) <= k.
Proof.
  intros Hr Hn Hk. unfold digitsOf. rewrite length_rev.
  now apply digitsRev_length.
Qed.

Lemma isDigit_16 (radix d : Z) : (radix <= 16)%Z -> isDigit radix d -> isDigit 16 d.
Proof. unfold isDigit. lia. Qed.

Lemma parseDigits_stringOfDigits (radix : Z) (ds : list Z) (acc : Z) :
  (radix <= 16)%Z -> Forall (isDigit radix) ds ->
  parseDigits radix (stringOfDigits ds) acc = Some (digitsValue radix ds acc).
Proof.
  intros Hr Hds. revert acc. induction Hds as [|d ds Hd Hds IH]; intros acc.
  - reflexivity.
  - cbn [stringOfDigits fold_right parseDigits].
    rewrite digitIn_digitChar by trivial. apply IH.
Qed.

Lemma parsePrefix_stringOfDigits (radix : Z) (ds : list Z) (acc : Z) :
  (radix <= 16)%Z -> Forall (isDigit radix) ds ->
  parsePrefix radix (stringOfDigits ds) acc true = Some (digitsValue radix ds acc).
Proof.
  intros Hr Hds. revert acc. induction Hds as [|d ds Hd Hds IH]; intros acc.
  - reflexivity.
  - cbn [stringOfDigits fold_right parsePrefix].
    rewrite digitIn_digitChar by trivial. apply IH.
Qed.

Lemma parseAll_stringOfDigits (radix : Z) (ds : list Z) :
  (radix <= 16)%Z -> Forall (isDigit radix) ds -> ds <> [] ->
  parseAll radix (stringOfDigits ds) = Some (digitsValue radix ds 0).
Proof.
  intros Hr Hds Hne. destruct ds as [|d ds]; [congruence|].
  unfold parseAll. cbn [stringOfDigits fold_right].
  now apply (parseDigits_stringOfDigits (ds := d :: ds)).
Qed.

Lemma stringOfDigits_cons (d : Z) (ds : list Z) :
  stringOfDigits (d :: ds) = String (digitChar d) (stringOfDigits ds).
Proof. reflexivity. Qed.

Lemma lacks_stringOfDigits (ds : list Z) :
  Forall (isDigit 16) ds -> lacks "-"%char (stringOfDigits ds) = true.
Proof.
  induction 1 as [|d ds Hd Hds IH]; [reflexivity|].
  rewrite stringOfDigits_cons. cbn [lacks].
  destruct (digitChar_plain Hd) as [_ [Hdash _]].
  now rewrite Hdash, IH.
Qed.

Lemma trimEnd_stringOfDigits (ds : list Z) :
  Forall (isDigit 16) ds -> trimEnd (stringOfDigits ds) = stringOfDigits ds.
Proof.
  induction 1 as [|d ds Hd Hds IH]; [reflexivity|].
  rewrite stringOfDigits_cons. cbn [trimEnd]. rewrite IH.
  destruct (digitChar_plain Hd) as [Hws _].
  destruct (stringOfDigits ds); [now rewrite Hws|reflexivity].
Qed.

Lemma trimEnd_cons (c : ascii) (s : string) :
  trimEnd s = s -> s <> EmptyString -> trimEnd (String c s) = String c s.
Proof.
  intros Hs Hne. cbn [trimEnd]. rewrite Hs.
  destruct s; [congruence|reflexivity].
Qed.

Lemma stringOfDigits_nonempty (ds : list Z) :
  ds <> [] -> stringOfDigits ds <> EmptyString.
Proof. destruct ds; [congruence|discriminate]. Qed.

Lemma bigintToString_nonneg (radix n : Z) :
  (0 <= n)%Z -> bigintToString radix n = stringOfDigits (digitsOf radix n).
Proof.
  intros Hn. unfold bigintToString.
  now replace (n <? 0)%Z with false by (symmetry; apply Z.ltb_ge; lia).
Qed.

(** [BigInt("0x" + n.toString(16))] is [n] for a non-negative [n]. *)
Lemma BigInt_hex (n : Z) :
  (0 <= n)%Z -> BigInt ("0x" ++ bigintToString 16 n) = Ok n.
Proof.
  intros Hn. rewrite bigintToString_nonneg by exact Hn.
  pose proof (digitsOf_range n (radix := 16) ltac:(lia)) as Hrange.
  pose proof (@digitsOf_nonempty 16 n) as Hne.
  unfold BigInt, StringToBigInt.
  change ("0x" ++ stringOfDigits (digitsOf 16 n))%string
    with (String "0" (String "x" (stringOfDigits (digitsOf 16 n)))).
  change (trimStart (String "0" (String "x" (stringOfDigits (digitsOf 16 n)))))
    with (String "0" (String "x" (stringOfDigits (digitsOf 16 n)))).
  rewrite !trimEnd_cons;
    try (now apply trimEnd_stringOfDigits);
    try (now apply stringOfDigits_nonempty);
    try discriminate.
  - change (isChar "x" "x" "X") with true. cbv iota.
    rewrite parseAll_stringOfDigits by (trivial; lia).
    now rewrite digitsOf_value by lia.
  - rewrite trimEnd_cons;
      [reflexivity|now apply trimEnd_stringOfDigits|now apply stringOfDigits_nonempty].
Qed.

(** [parseInt] on a string that starts with neither white space, a sign
    nor a [0x] prefix reads the digits at its front. *)
Lemma parseInt_plain (c : ascii) (s : string) (radix : Z) :
  isWhiteSpace c = false ->
  Ascii.eqb c "-"%char = false -> Ascii.eqb c "+"%char = false ->
  match s with
  | String x _ => isChar x "x"%char "X"%char = false
  | EmptyString => True
  end ->
  parseInt (String c s) radix
  = match parsePrefix radix (String c s) 0 false with
    | Some v => Int (1 * v)
    | None => NaN
    end.
Proof.
  intros Hws Hm Hp Hx. unfold parseInt. cbn [trimStart]. rewrite Hws.
  destruct c as [b0 b1 b2 b3 b4 b5 b6 b7].
  destruct b0, b1, b2, b3, b4, b5, b6, b7;
    try discriminate Hm; try discriminate Hp; cbv beta iota zeta;
    try reflexivity.
  destruct s as [|x r]; [reflexivity|].
  rewrite Hx, andb_false_r. reflexivity.
Qed.

Lemma parseInt_stringOfDigits (ds : list Z) :
  Forall (isDigit 16) ds -> ds <> [] ->
  parseInt (stringOfDigits ds) 16 = Int (digitsValue 16 ds 0).
Proof.
  intros Hds Hne. destruct ds as [|d ds]; [congruence|].
  inversion Hds as [|? ? Hd Hds']; subst.
  rewrite stringOfDigits_cons.
  destruct (digitChar_plain Hd) as [Hws [Hm [Hp _]]].
  rewrite parseInt_plain; trivial.
  - cbn [parsePrefix]. rewrite digitIn_digitChar by (trivial; lia).
    rewrite parsePrefix_stringOfDigits by (trivial; lia).
    f_equal. unfold digitsValue. cbn [fold_left]. lia.
  - destruct ds as [|d' ds]; [exact I|].
    inversion Hds' as [|? ? Hd' _]; subst.
    rewrite stringOfDigits_cons. apply (digitChar_plain Hd').
Qed.

(** *** [split] and [join] *)

Lemma split_lacks (sep : ascii) (s : string) :
  lacks sep s = true -> split sep s = [s].
Proof.
  induction s as [|c s IH]; intros Hl; [reflexivity|].
  cbn [lacks] in Hl. apply andb_true_iff in Hl. destruct Hl as [Hc Hs].
  apply negb_true_iff in Hc.
  cbn [split]. rewrite Hc, IH by exact Hs. reflexivity.
Qed.

Lemma split_app_sep (sep : ascii) (p rest : string) :
  lacks sep p = true ->
  split sep (p ++ String sep rest) = p :: split sep rest.
Proof.
  induction p as [|c p IH]; intros Hl.
  - cbn [String.append split]. now rewrite Ascii.eqb_refl.
  - cbn [lacks] in Hl. apply andb_true_iff in Hl. destruct Hl as [Hc Hp].
    apply negb_true_iff in Hc.
    cbn [String.append split]. rewrite Hc, IH by exact Hp. reflexivity.
Qed.

Lemma split_join (sep : ascii) (parts : list string) :
  parts <> [] -> Forall (fun p => lacks sep p = true) parts ->
  split sep (join sep parts) = parts.
Proof.
  intros Hne Hall. induction Hall as [|p ps Hp Hps IH]; [congruence|].
  destruct ps as [|q ps].
  - cbn [join]. now apply split_lacks.
  - change (join sep (p :: q :: ps)) with (p ++ String sep (join sep (q :: ps)))%string.
    rewrite split_app_sep by exact Hp.
    rewrite IH by discriminate. reflexivity.
Qed.

(** *** Claims on the note codec *)

Lemma hexField_lacks (n : Z) :
  (0 <= n)%Z -> lacks "-"%char (bigintToString 16 n) = true.
Proof.
  intros Hn. rewrite bigintToString_nonneg by exact Hn.
  apply lacks_stringOfDigits. apply digitsOf_range. lia.
Qed.

Lemma parseInt_hex (z : Z) :
  (0 <= z)%Z -> parseInt (bigintToString 16 z) 16 = Int z.
Proof.
  intros Hz. rewrite bigintToString_nonneg by exact Hz.
  rewrite parseInt_stringOfDigits
    by (try apply digitsOf_range; try apply digitsOf_nonempty; lia).
  now rewrite digitsOf_value by lia.
Qed.

Lemma decode_encode (note : DepositNote) :
  nonNegativeNote note -> decodeNote (encodeNote note) = Ok note.
Proof.
  destruct note as [n s v l idx].
  intros (Hn & Hs & Hv & Hl & z & Hidx & Hz & _). cbn [nullifier secret value label leafIndex] in *.
  subst idx. unfold decodeNote, encodeNote.
  cbn [nullifier secret value label leafIndex numberToString].
  rewrite split_join; [|discriminate|].
  - cbn [length Nat.eqb negb nth orb].
    change (negb (String.eqb "opaque" "opaque")) with false.
    change (parseInt "1" 10) with (Int 1).
    cbn [number_eqb Z.eqb Pos.eqb negb].
    rewrite !BigInt_hex by assumption. cbn [bind].
    now rewrite parseInt_hex by exact Hz.
  - repeat constructor; try reflexivity; now apply hexField_lacks.
Qed.

(** C7, amended.  For every DepositNote whose four bigint fields are
    non-negative and whose leaf index is a non-negative safe integer,
    decoding the encoded note string gives the note back, and encoding
    that again gives the same string; a string with 6 fields instead of 7
    is rejected with 'Invalid note format'. *)
Theorem note_roundtrip (note : DepositNote) :
  nonNegativeNote note ->
  decodeNote (encodeNote note) = Ok note
  /\ (note' <- decodeNote (encodeNote note) ;; Ok (encodeNote note'))
     = Ok (encodeNote note)
  /\ (forall s : string,
        length (split "-"%char s) = 6 -> decodeNote s = Err InvalidNoteFormat).
Proof.
  intros Hnote. split; [|split].
  - now apply decode_encode.
  - now rewrite decode_encode.
  - intros s Hsix. unfold decodeNote. now rewrite Hsix.
Qed.

(** *** Claims on the proof and signal encoders *)

Lemma stringOfDigits_length (ds : list Z) :
  String.length (stringOfDigits ds) = length ds.
Proof. induction ds as [|d ds IH]; [reflexivity|]. simpl. now rewrite IH. Qed.

Lemma stringOfDigits_app (xs ys : list Z) :
  stringOfDigits (xs ++ ys) = (stringOfDigits xs ++ stringOfDigits ys)%string.
Proof. induction xs as [|x xs IH]; [reflexivity|]. simpl. now f_equal. Qed.

Lemma padding_zeros (a k : nat) (s : string) :
  fold_right (fun _ acc => String "0"%char acc) s (seq a k)
  = (stringOfDigits (repeat 0%Z k) ++ s)%string.
Proof.
  revert a. induction k as [|k IH]; intros a; [reflexivity|].
  cbn [seq fold_right repeat]. rewrite IH. reflexivity.
Qed.

Lemma padStart_stringOfDigits (n : nat) (ds : list Z) :
  padStart n (stringOfDigits ds)
  = stringOfDigits (repeat 0%Z (n - length ds) ++ ds).
Proof.
  unfold padStart. rewrite padding_zeros, stringOfDigits_length.
  now rewrite stringOfDigits_app.
Qed.

Lemma digitsValue_zeros (radix : Z) (k : nat) : digitsValue radix (repeat 0%Z k) 0 = 0%Z.
Proof.
  induction k as [|k IH]; [reflexivity|].
  unfold digitsValue in *. cbn [repeat fold_left].
  now replace (0 * radix + 0)%Z with 0%Z by lia.
Qed.

Lemma substring_0_0 (s : string) : substring 0 0 s = EmptyString.
Proof. destruct s; reflexivity. Qed.

Lemma hexByteAt_head (a b : Z) (s : string) :
  isDigit 16 a -> isDigit 16 b ->
  hexByteAt (String (digitChar a) (String (digitChar b) s)) 0 = (a * 16 + b)%Z.
Proof.
  intros Ha Hb. unfold hexByteAt. cbn [Nat.mul substring].
  rewrite substring_0_0.
  change (String (digitChar a) (String (digitChar b) EmptyString))
    with (stringOfDigits [a; b]).
  rewrite (parseInt_stringOfDigits (ds := [a; b]))
    by (try discriminate; repeat (constructor; trivial)).
  unfold digitsValue. cbn [fold_left toUint8].
  unfold isDigit in *. rewrite Z.mod_small; lia.
Qed.

Lemma hexByteAt_tail (ca cb : ascii) (s : string) (i : nat) :
  hexByteAt (String ca (String cb s)) (S i) = hexByteAt s i.
Proof. reflexivity. Qed.

(** The bytes read off an even-length digit string denote the number the
    digits denote. *)
Lemma hexBytes_value (k : nat) (ds : list Z) (acc : Z) :
  length ds = 2 * k -> Forall (isDigit 16) ds ->
  fold_left (fun a x => (a * 256 + x)%Z)
    (map (hexByteAt (stringOfDigits ds)) (seq 0 k)) acc
  = digitsValue 16 ds acc
  /\ Forall isByte (map (hexByteAt (stringOfDigits ds)) (seq 0 k)).
Proof.
  revert ds acc. induction k as [|k IH]; intros ds acc Hlen Hds.
  - destruct ds; [|discriminate]. split; [reflexivity|constructor].
  - destruct ds as [|a [|b ds]]; try (simpl in Hlen; lia).
    inversion Hds as [|? ? Ha Hds1]; subst.
    inversion Hds1 as [|? ? Hb Hds2]; subst.
    assert (Hlen' : length ds = 2 * k) by (simpl in Hlen; lia).
    rewrite !stringOfDigits_cons.
    cbn [seq map]. rewrite <- seq_shift, map_map.
    rewrite (map_ext _ (hexByteAt (stringOfDigits ds)))
      by (intros i; apply hexByteAt_tail).
    rewrite hexByteAt_head by trivial.
    destruct (IH ds ((acc * 16 + a) * 16 + b)%Z Hlen' Hds2) as [Hval Hbytes].
    split.
    + cbn [fold_left]. unfold digitsValue at 1. cbn [fold_left].
      fold (digitsValue 16 ds ((acc * 16 + a) * 16 + b)).
      rewrite <- Hval. f_equal. lia.
    + constructor; [|exact Hbytes]. unfold isByte, isDigit in *. lia.
Qed.

Lemma fieldElementToBytes_value (value : string) (v : Z) :
  BigInt value = Ok v -> (0 <= v < 2 ^ 256)%Z ->
  exists word,
    fieldElementToBytes value = Ok word
    /\ length word = 32 /\ Forall isByte word /\ beValue word = v.
Proof.
  intros Hbi Hv. unfold fieldElementToBytes. rewrite Hbi. cbn [bind].
  eexists. split; [reflexivity|].
  rewrite bigintToString_nonneg by lia.
  rewrite padStart_stringOfDigits.
  assert (Hlen : length (digitsOf 16 v) <= 64)
    by (apply digitsOf_length; [lia| |lia]; change (16 ^ Z.of_nat 64)%Z with (2 ^ 256)%Z; lia).
  set (ds := repeat 0%Z (64 - length (digitsOf 16 v)) ++ digitsOf 16 v).
  assert (Hds : Forall (isDigit 16) ds).
  { apply Forall_app. split.
    - apply Forall_forall. intros x Hx. apply repeat_spec in Hx. subst x.
      unfold isDigit. lia.
    - apply digitsOf_range. lia. }
  assert (Hlen64 : length ds = 2 * 32)
    by (unfold ds; rewrite length_app, repeat_length; lia).
  destruct (hexBytes_value 32 0 Hlen64 Hds) as [Hval Hbytes].
  split; [now rewrite length_map, length_seq|].
  split; [exact Hbytes|].
  unfold beValue. rewrite Hval. unfold ds.
  rewrite digitsValue_app, digitsValue_zeros.
  apply digitsOf_value; lia.
Qed.

Lemma fieldElementToBytes_length (value : string) (word : bytes) :
  fieldElementToBytes value = Ok word -> length word = 32.
Proof.
  unfold fieldElementToBytes. destruct (BigInt value); cbn [bind]; [|discriminate].
  intros Hw. injection Hw as <-. reflexivity.
Qed.

(** Writing [src] right after the part of a zeroed array already filled. *)
Lemma arraySet_fill (pre src : bytes) (rest offset n : nat) :
  offset = length pre -> n = length src + rest ->
  arraySet (pre ++ zeroBytes n) src offset = (pre ++ src) ++ zeroBytes rest.
Proof.
  intros -> ->. unfold arraySet, zeroBytes.
  rewrite firstn_app, firstn_all, Nat.sub_diag, firstn_O, app_nil_r.
  rewrite skipn_app, skipn_all2 by lia.
  replace (length pre + length src - length pre) with (length src) by lia.
  rewrite repeat_app, skipn_app, skipn_all2 by (rewrite repeat_length; lia).
  rewrite repeat_length, Nat.sub_diag, skipn_O.
  now rewrite <- app_assoc.
Qed.

Lemma arraySet_start (src : bytes) (rest n : nat) :
  n = length src + rest ->
  arraySet (zeroBytes n) src 0 = src ++ zeroBytes rest.
Proof. intros Hn. now apply (arraySet_fill [] src rest). Qed.

Lemma g1PointToBytes_words (x y z : string) (wx wy : bytes) :
  fieldElementToBytes x = Ok wx -> fieldElementToBytes y = Ok wy ->
  g1PointToBytes (x, y, z) = Ok (wx ++ wy).
Proof.
  intros Hx Hy. unfold g1PointToBytes. rewrite Hx, Hy. cbn [bind].
  pose proof (fieldElementToBytes_length _ Hx) as Lx.
  pose proof (fieldElementToBytes_length _ Hy) as Ly.
  rewrite (arraySet_start wx 32) by (simpl; lia).
  rewrite (arraySet_fill wx wy 0) by (simpl; lia).
  cbn [app zeroBytes repeat]. now rewrite app_nil_r.
Qed.

Lemma g2PointToBytes_words (x0 x1 y0 y1 : string) (z : string * string)
    (w0 w1 w2 w3 : bytes) :
  fieldElementToBytes x0 = Ok w0 -> fieldElementToBytes x1 = Ok w1 ->
  fieldElementToBytes y0 = Ok w2 -> fieldElementToBytes y1 = Ok w3 ->
  g2PointToBytes ((x0, x1), (y0, y1), z) = Ok (w0 ++ w1 ++ w2 ++ w3).
Proof.
  intros H0 H1 H2 H3. unfold g2PointToBytes. rewrite H0, H1, H2, H3. cbn [bind].
  pose proof (fieldElementToBytes_length _ H0) as L0.
  pose proof (fieldElementToBytes_length _ H1) as L1.
  pose proof (fieldElementToBytes_length _ H2) as L2.
  pose proof (fieldElementToBytes_length _ H3) as L3.
  rewrite (arraySet_start w0 96) by (simpl; lia).
  rewrite (arraySet_fill w0 w1 64) by (simpl; lia).
  rewrite (arraySet_fill (w0 ++ w1) w2 32)
    by (rewrite ?length_app; simpl; lia).
  rewrite (arraySet_fill ((w0 ++ w1) ++ w2) w3 0)
    by (rewrite ?length_app; simpl; lia).
  cbn [app zeroBytes repeat]. now rewrite app_nil_r, <- !app_assoc.
Qed.

Lemma serializeProof_points (proof : Groth16Proof) (a b c : bytes) :
  g1PointToBytes (pi_a proof) = Ok a -> length a = 64 ->
  g2PointToBytes (pi_b proof) = Ok b -> length b = 128 ->
  g1PointToBytes (pi_c proof) = Ok c -> length c = 64 ->
  serializeProofForSoroban proof = Ok (a ++ b ++ c).
Proof.
  intros Ha La Hb Lb Hc Lc. unfold serializeProofForSoroban.
  rewrite Ha, Hb, Hc. cbn [bind].
  rewrite (arraySet_start a 192) by (simpl; lia).
  rewrite (arraySet_fill a b 64) by (simpl; lia).
  rewrite (arraySet_fill (a ++ b) c 0)
    by (rewrite ?length_app; simpl; lia).
  cbn [app zeroBytes repeat]. now rewrite app_nil_r, <- !app_assoc.
Qed.

Lemma writeSignals_words (signals : list string) (words : list bytes)
    (i : nat) (pre : bytes) :
  mapResult fieldElementToBytes signals = Ok words ->
  length pre = 4 + i * 32 ->
  writeSignals signals i (pre ++ zeroBytes (length signals * 32))
  = Ok (pre ++ concat words).
Proof.
  revert words i pre. induction signals as [|sig rest IH]; intros words i pre Hw Hpre.
  - cbn in Hw. injection Hw as <-. reflexivity.
  - cbn [mapResult] in Hw.
    destruct (fieldElementToBytes sig) as [w|] eqn:Hsig; cbn [bind] in Hw; [|discriminate].
    destruct (mapResult fieldElementToBytes rest) as [ws|] eqn:Hrest;
      cbn [bind] in Hw; [|discriminate].
    injection Hw as <-.
    pose proof (fieldElementToBytes_length _ Hsig) as Lw.
    cbn [writeSignals length]. rewrite Hsig. cbn [bind].
    rewrite (arraySet_fill pre w (length rest * 32)) by (simpl; lia).
    rewrite (IH ws (S i)) by (trivial; rewrite length_app; lia).
    cbn [concat]. now rewrite <- app_assoc.
Qed.

Lemma serializePublicSignals_words (signals : list string) (words : list bytes) :
  mapResult fieldElementToBytes signals = Ok words ->
  serializePublicSignalsForSoroban signals
  = Ok (uint32BE (Z.of_nat (length signals)) ++ concat words).
Proof.
  intros Hw. unfold serializePublicSignalsForSoroban.
  rewrite (arraySet_start (uint32BE (Z.of_nat (length signals)))
             (length signals * 32)) by (simpl; lia).
  now apply writeSignals_words.
Qed.

(** C6, amended.  The encoders do not reduce: for every value
    [0 <= v < 2^256] the emitted 32-byte big-endian word denotes [v]
    itself, which is [v] modulo the scalar field when [v] is below the
    field modulus; a serialized proof is the eight coordinate words in
    the order A, B, C, and the serialized public signals are the
    big-endian count followed by one such word per signal. *)
Theorem encoders_emit_value_unreduced :
  (forall (value : string) (v : Z),
     BigInt value = Ok v -> (0 <= v < 2 ^ 256)%Z ->
     exists word,
       fieldElementToBytes value = Ok word
       /\ length word = 32 /\ Forall isByte word /\ beValue word = v
       /\ ((v < SNARK_SCALAR_FIELD)%Z ->
           beValue word = (v mod SNARK_SCALAR_FIELD)%Z))
  /\ (forall (ax ay az cx cy cz bx0 bx1 by0 by1 : string) (bz : string * string)
        (prot crv : string) (wax way wbx0 wbx1 wby0 wby1 wcx wcy : bytes),
        fieldElementToBytes ax = Ok wax -> fieldElementToBytes ay = Ok way ->
        fieldElementToBytes bx0 = Ok wbx0 -> fieldElementToBytes bx1 = Ok wbx1 ->
        fieldElementToBytes by0 = Ok wby0 -> fieldElementToBytes by1 = Ok wby1 ->
        fieldElementToBytes cx = Ok wcx -> fieldElementToBytes cy = Ok wcy ->
        serializeProofForSoroban
          (mkProof (ax, ay, az) ((bx0, bx1), (by0, by1), bz) (cx, cy, cz) prot crv)
        = Ok ((wax ++ way) ++ (wbx0 ++ wbx1 ++ wby0 ++ wby1) ++ (wcx ++ wcy)))
  /\ (forall (signals : list string) (words : list bytes),
        mapResult fieldElementToBytes signals = Ok words ->
        serializePublicSignalsForSoroban signals
        = Ok (uint32BE (Z.of_nat (length signals)) ++ concat words)).
Proof.
  split; [|split].
  - intros value v Hbi Hv.
    destruct (fieldElementToBytes_value value Hbi Hv) as (word & Hw & Hl & Hb & Hval).
    exists word. repeat split; trivial.
    intros Hlt. rewrite Z.mod_small; [exact Hval|lia].
  - intros. apply serializeProof_points; cbn [pi_a pi_b pi_c].
    + now apply g1PointToBytes_words.
    + rewrite length_app.
      erewrite !fieldElementToBytes_length by eassumption. reflexivity.
    + now apply g2PointToBytes_words.
    + rewrite !length_app.
      erewrite !fieldElementToBytes_length by eassumption. reflexivity.
    + now apply g1PointToBytes_words.
    + rewrite length_app.
      erewrite !fieldElementToBytes_length by eassumption. reflexivity.
  - intros signals words Hw. now apply serializePublicSignals_words.
Qed.

(** *** Claims on depth mismatches *)

Lemma mapToString_Big (xs : list Z) :
  mapToString (map Big xs) = Ok (map (bigintToString 10) xs).
Proof.
  induction xs as [|x xs IH]; [reflexivity|].
  cbn [map mapToString jsToString bind]. now rewrite IH.
Qed.

Lemma padWithZero_Big (n : nat) (xs : list Z) :
  padWithZero n (map Big xs) = map Big (xs ++ repeat 0%Z (n - length xs)).
Proof.
  unfold padWithZero. rewrite length_map, map_app. f_equal.
  induction (n - length xs) as [|k IH]; [reflexivity|]. simpl. now rewrite IH.
Qed.

Lemma circuitStateSiblings_length (xs : list jsval) :
  length (circuitStateSiblings xs) = 8.
Proof.
  unfold circuitStateSiblings, padWithZero.
  rewrite length_firstn, length_app, repeat_length. lia.
Qed.

Lemma circuitSiblings_Big (stateSiblings labelSiblings : list Z) :
  mapToString (circuitStateSiblings (map Big stateSiblings))
  = Ok (map (bigintToString 10)
          (firstn 8 (stateSiblings ++ repeat 0%Z (8 - length stateSiblings))))
  /\ mapToString (circuitLabelSiblings (map Big labelSiblings))
     = Ok (map (bigintToString 10)
             (labelSiblings ++ repeat 0%Z (2 - length labelSiblings))).
Proof.
  unfold circuitStateSiblings, circuitLabelSiblings.
  rewrite !padWithZero_Big, firstn_map, !mapToString_Big. now split.
Qed.

(** C8, amended.  A sibling list whose length differs from the depth
    raises no error: [verifyProof] returns [false], and
    [createWithdrawCircuitInput] returns a circuit input whose state
    siblings are the given ones zero-padded and cut to exactly 8 and
    whose label siblings are the given ones zero-padded to at least 2,
    whatever the other fields are; with indices that are safe integers
    the whole input is the decimal strings of the fields. *)
Theorem depth_mismatch_tolerated :
  (forall (t : LeanMerkleTree) (leaf : jsval) (leafIndex : Z)
      (siblings : list jsval) (root : jsval),
     length siblings <> depth t ->
     verifyProof t leaf leafIndex siblings root = Ok false)
  /\ (forall (withdrawnValue stateRoot associationRoot label value nullifier
         secret stateIndex labelIndex : Z) (stateSiblings labelSiblings : list Z),
        exists input,
          createWithdrawCircuitInput
            (mkParams withdrawnValue (Big stateRoot) associationRoot label value
               nullifier secret (map Big stateSiblings) stateIndex labelIndex
               (map Big labelSiblings))
          = Ok input
          /\ ci_stateSiblings input
             = map (bigintToString 10)
                 (firstn 8 (stateSiblings
                            ++ repeat 0%Z (8 - length stateSiblings)))
          /\ ci_labelSiblings input
             = map (bigintToString 10)
                 (labelSiblings ++ repeat 0%Z (2 - length labelSiblings))
          /\ ((- MAX_SAFE_INTEGER <= stateIndex <= MAX_SAFE_INTEGER)%Z ->
              (- MAX_SAFE_INTEGER <= labelIndex <= MAX_SAFE_INTEGER)%Z ->
              input
              = mkCircuitInput
                  (bigintToString 10 withdrawnValue)
                  (bigintToString 10 stateRoot)
                  (bigintToString 10 associationRoot)
                  (bigintToString 10 label)
                  (bigintToString 10 value)
                  (bigintToString 10 nullifier)
                  (bigintToString 10 secret)
                  (map (bigintToString 10)
                     (firstn 8 (stateSiblings
                                ++ repeat 0%Z (8 - length stateSiblings))))
                  (bigintToString 10 stateIndex)
                  (bigintToString 10 labelIndex)
                  (map (bigintToString 10)
                     (labelSiblings
                      ++ repeat 0%Z (2 - length labelSiblings)))))
  /\ (forall xs : list jsval, length (circuitStateSiblings xs) = 8).
Proof.
  split; [|split].
  - intros t leaf leafIndex siblings root Hne. unfold verifyProof.
    apply Nat.eqb_neq in Hne. now rewrite Hne.
  - intros.
    destruct (circuitSiblings_Big stateSiblings labelSiblings) as [Hss Hls].
    unfold createWithdrawCircuitInput.
    cbn [p_withdrawnValue p_stateRoot p_associationRoot p_label p_value
         p_nullifier p_secret p_stateSiblings p_stateIndex p_labelIndex
         p_labelSiblings jsToString bind].
    rewrite Hss, Hls. cbn [bind].
    eexists. split; [reflexivity|].
    cbn [ci_stateSiblings ci_labelSiblings]. repeat split.
  - apply circuitStateSiblings_length.
Qed.

(** *** Claims on privacyPool.ts *)

Lemma io_bind_trace (A B : Type) (m : io A) (k : A -> io B) :
  existsb isTxEvent (fst m) = false ->
  (forall a, existsb isTxEvent (fst (k a)) = false) ->
  existsb isTxEvent (fst (io_bind m k)) = false.
Proof.
  intros Hm Hk. destruct m as [tr [a|e]]; cbn [io_bind fst] in *.
  - specialize (Hk a). destruct (k a) as [tr' r]. cbn [fst] in *.
    rewrite existsb_app, Hm, Hk. reflexivity.
  - exact Hm.
Qed.

(** Steps 1 to 6 only query the contract. *)
Lemma withdrawSteps1to6_quiet (c : Contract) (noteString : string) :
  existsb isTxEvent (fst (withdrawSteps1to6 c noteString)) = false.
Proof.
  unfold withdrawSteps1to6.
  repeat (apply io_bind_trace; [reflexivity|intros ?]).
  reflexivity.
Qed.

(** The copy that checks the root: whenever a zero association root has
    been fetched, the handler stops with 'Association root not set' and
    has built and submitted nothing. *)
Lemma handleWithdraw_demo_zero_root (c : Contract) (noteString : string)
    (tr : list event) (x : WithdrawContext) :
  withdrawSteps1to6 c noteString = (tr, Ok x) ->
  ctx_associationRoot x = 0%Z ->
  handleWithdraw_demo c noteString = (tr, WithdrawError AssociationRootNotSet)
  /\ existsb isTxEvent tr = false.
Proof.
  intros Hsteps Hzero. split.
  - unfold handleWithdraw_demo. rewrite Hsteps. cbn [io_bind].
    rewrite Hzero. cbn [Z.eqb lift io_bind catchWithdraw].
    now rewrite app_nil_r.
  - pose proof (withdrawSteps1to6_quiet c noteString) as Hq.
    now rewrite Hsteps in Hq.
Qed.

Lemma nullifierListed_In (used : list bytes) (target : bytes) :
  nullifierListed used target = true
  <-> exists u, In u used /\ bufferEquals u target = true.
Proof.
  induction used as [|u used IH]; cbn [nullifierListed In].
  - split; [discriminate|intros [u [[] _]]].
  - destruct (bufferEquals u target) eqn:Hu.
    + split; [intros _; exists u; auto|reflexivity].
    + rewrite IH. split.
      * intros [u' [Hin Heq]]. exists u'. auto.
      * intros [u' [[->|Hin] Heq]]; [congruence|]. exists u'. auto.
Qed.

(** C10.  [isNoteSpent] returns [true] exactly when the note decodes, the
    nullifiers are fetched, and the 32-byte buffer of the note's nullifier
    hash equals one of them; a malformed note, a failed fetch and an
    absent result all give [false], and no error leaves the function. *)
Theorem isNoteSpent_only_when_listed (c : Contract) (noteString : string) :
  (isNoteSpent c noteString = true
   <-> exists note used u,
         decodeNote noteString = Ok note
         /\ get_nullifiers c = Ok (Some used)
         /\ In u used
         /\ bufferEquals u (bigintToBuffer (poseidon1 (nullifier note))) = true)
  /\ (forall e, decodeNote noteString = Err e -> isNoteSpent c noteString = false)
  /\ (forall e, get_nullifiers c = Err e -> isNoteSpent c noteString = false)
  /\ (get_nullifiers c = Ok None -> isNoteSpent c noteString = false).
Proof.
  unfold isNoteSpent, isNoteSpent_try.
  destruct (decodeNote noteString) as [note|e0] eqn:Hdec; cbn [bind].
  - change (poseidonHash [Big (nullifier note)]) with (Ok (poseidon1 (nullifier note))).
    cbn [bind].
    destruct (get_nullifiers c) as [[used|]|e1] eqn:Hget; cbn [bind].
    + split; [|repeat split; intros; discriminate].
      rewrite nullifierListed_In. split.
      * intros [u [Hin Heq]]. exists note, used, u. auto.
      * intros (note' & used' & u & Hn & Hu & Hin & Heq).
        injection Hn as <-. injection Hu as <-. exists u. auto.
    + split; [|repeat split; intros; try discriminate; reflexivity].
      split; [discriminate|].
      intros (note' & used' & u & _ & Hu & _). discriminate.
    + split; [|repeat split; intros; try discriminate; reflexivity].
      split; [discriminate|].
      intros (note' & used' & u & _ & Hu & _). discriminate.
  - split; [|repeat split; intros; reflexivity].
    split; [discriminate|].
    intros (note' & used' & u & Hn & _). discriminate.
Qed.

(** ** Further properties of the code *)

(** *** Bytes and buffers *)

Lemma shiftInByte_add (value byte : Z) :
  isByte byte -> shiftInByte value byte = (value * 256 + byte)%Z.
Proof.
  clear poseidon1 poseidon2.
  intros Hb. unfold shiftInByte, isByte in *.
  assert (Hland : Z.land (Z.shiftl value 8) byte = 0%Z).
  { apply Z.bits_inj'. intros n Hn.
    rewrite Z.land_spec, Z.bits_0.
    destruct (Z.ltb_spec n 8) as [Hlow|Hhigh].
    - now rewrite Z.shiftl_spec_low.
    - destruct (Z.eq_dec byte 0) as [->|Hne].
      + now rewrite Z.bits_0, andb_false_r.
      + assert (Hlog : (Z.log2 byte < 8)%Z)
          by (apply Z.log2_lt_pow2; [lia|change (2 ^ 8)%Z with 256%Z; lia]).
        rewrite (Z.bits_above_log2 byte n) by lia.
        apply andb_false_r. }
  pose proof (Z.add_lor_land (Z.shiftl value 8) byte) as Hadd.
  rewrite Hland in Hadd.
  rewrite (Z.shiftl_mul_pow2 value 8) in Hadd at 2 by lia.
  change (2 ^ 8)%Z with 256%Z in Hadd. lia.
Qed.

Lemma fold_shiftInByte (bs : bytes) (acc : Z) :
  Forall isByte bs ->
  fold_left shiftInByte bs acc = fold_left (fun a x => (a * 256 + x)%Z) bs acc.
Proof.
  intros Hbs. revert acc. induction Hbs as [|b bs Hb Hbs IH]; intros acc.
  - reflexivity.
  - cbn [fold_left]. rewrite shiftInByte_add by exact Hb. apply IH.
Qed.

Lemma map_nth_seq (A : Type) (l : list A) (d : A) :
  map (fun i => nth i l d) (seq 0 (length l)) = l.
Proof.
  induction l as [|x l IH]; [reflexivity|].
  cbn [length seq map nth]. rewrite <- seq_shift, map_map. cbn [nth].
  now rewrite IH.
Qed.

Lemma beValue_bounds (bs : bytes) :
  Forall isByte bs -> (0 <= beValue bs < 256 ^ Z.of_nat (length bs))%Z.
Proof.
  clear poseidon1 poseidon2.
  intros Hbs. unfold beValue.
  assert (H : forall acc n, (0 <= acc < 256 ^ Z.of_nat n)%Z ->
            (0 <= fold_left (fun a x => (a * 256 + x)%Z) bs acc
             < 256 ^ Z.of_nat (n + length bs))%Z).
  { induction Hbs as [|b bs Hb Hbs IH]; intros acc n Hacc.
    - simpl. now rewrite Nat.add_0_r.
    - cbn [fold_left length].
      replace (n + S (length bs)) with (S n + length bs) by lia.
      apply IH. rewrite Nat2Z.inj_succ, Z.pow_succ_r by lia.
      unfold isByte in Hb. lia. }
  apply (H 0%Z 0). simpl. lia.
Qed.

(** *** Fixed-width hex digits *)

Lemma pairBytes_hexBytes (k : nat) (ds : list Z) :
  length ds = 2 * k -> Forall (isDigit 16) ds ->
  map (hexByteAt (stringOfDigits ds)) (seq 0 k) = pairBytes ds.
Proof.
  clear poseidon1 poseidon2.
  revert ds. induction k as [|k IH]; intros ds Hlen Hds.
  - destruct ds; [reflexivity|discriminate].
  - destruct ds as [|a [|b ds]]; try (simpl in Hlen; lia).
    inversion Hds as [|? ? Ha Hds1]; subst.
    inversion Hds1 as [|? ? Hb Hds2]; subst.
    rewrite !stringOfDigits_cons.
    cbn [seq map pairBytes]. rewrite <- seq_shift, map_map.
    rewrite (map_ext _ (hexByteAt (stringOfDigits ds)))
      by (intros i; apply hexByteAt_tail).
    rewrite hexByteAt_head by trivial.
    rewrite IH by (trivial; simpl in Hlen; lia). reflexivity.
Qed.

Lemma pairBytes_bufferFromHex (ds : list Z) (fuel : nat) :
  Forall (isDigit 16) ds -> length ds <= 2 * fuel ->
  bufferFromHex fuel (stringOfDigits ds) = pairBytes ds.
Proof.
  clear poseidon1 poseidon2.
  revert ds. induction fuel as [|fuel IH]; intros ds Hds Hlen.
  - destruct ds; [reflexivity|simpl in Hlen; lia].
  - destruct ds as [|a [|b ds]]; [reflexivity|reflexivity|].
    inversion Hds as [|? ? Ha Hds1]; subst.
    inversion Hds1 as [|? ? Hb Hds2]; subst.
    rewrite !stringOfDigits_cons. cbn [bufferFromHex pairBytes].
    rewrite !digitIn_digitChar by (trivial; lia).
    rewrite IH by (trivial; simpl in Hlen; lia).
    f_equal. lia.
Qed.

Lemma digits64_spec (v : Z) :
  (0 <= v < 2 ^ 256)%Z ->
  length (digits64 v) = 64 /\ Forall (isDigit 16) (digits64 v)
  /\ digitsValue 16 (digits64 v) 0 = v.
Proof.
  clear poseidon1 poseidon2.
  intros Hv. unfold digits64.
  assert (Hlen : length (digitsOf 16 v) <= 64)
    by (apply digitsOf_length; [lia| |lia];
        change (16 ^ Z.of_nat 64)%Z with (2 ^ 256)%Z; lia).
  split; [rewrite length_app, repeat_length; lia|]. split.
  - apply Forall_app. split.
    + apply Forall_forall. intros x Hx. apply repeat_spec in Hx. subst x.
      unfold isDigit. lia.
    + apply digitsOf_range. lia.
  - rewrite digitsValue_app, digitsValue_zeros. apply digitsOf_value; lia.
Qed.

Lemma pairBytes_value (ds : list Z) (acc : Z) (k : nat) :
  length ds = 2 * k -> Forall (isDigit 16) ds ->
  length (pairBytes ds) = k /\ Forall isByte (pairBytes ds)
  /\ fold_left (fun a x => (a * 256 + x)%Z) (pairBytes ds) acc
     = digitsValue 16 ds acc.
Proof.
  clear poseidon1 poseidon2.
  intros Hlen Hds.
  rewrite <- (pairBytes_hexBytes k) by trivial.
  destruct (hexBytes_value k acc Hlen Hds) as [Hval Hbytes].
  split; [now rewrite length_map, length_seq|]. split; trivial.
Qed.

Lemma bigintToBuffer_digits (v : Z) :
  (0 <= v < 2 ^ 256)%Z -> bigintToBuffer v = pairBytes (digits64 v).
Proof.
  clear poseidon1 poseidon2.
  intros Hv. unfold bigintToBuffer.
  rewrite bigintToString_nonneg by lia.
  rewrite padStart_stringOfDigits. fold (digits64 v).
  destruct (digits64_spec Hv) as (Hlen & Hds & _).
  apply pairBytes_bufferFromHex; [exact Hds|].
  rewrite stringOfDigits_length. lia.
Qed.

Lemma fieldElementToBytes_digits (value : string) (v : Z) :
  BigInt value = Ok v -> (0 <= v < 2 ^ 256)%Z ->
  fieldElementToBytes value = Ok (pairBytes (digits64 v)).
Proof.
  clear poseidon1 poseidon2.
  intros Hbi Hv. unfold fieldElementToBytes. rewrite Hbi. cbn [bind].
  rewrite bigintToString_nonneg by lia.
  rewrite padStart_stringOfDigits. fold (digits64 v).
  destruct (digits64_spec Hv) as (Hlen & Hds & _).
  now rewrite (pairBytes_hexBytes 32) by (trivial; lia).
Qed.

Lemma bigintToBuffer_spec (v : Z) :
  (0 <= v < 2 ^ 256)%Z ->
  length (bigintToBuffer v) = 32 /\ Forall isByte (bigintToBuffer v)
  /\ beValue (bigintToBuffer v) = v.
Proof.
  clear poseidon1 poseidon2.
  intros Hv. rewrite bigintToBuffer_digits by exact Hv.
  destruct (digits64_spec Hv) as (Hlen & Hds & Hval).
  destruct (@pairBytes_value (digits64 v) 0 32 Hlen Hds) as (Hl & Hb & Hf).
  repeat split; trivial. unfold beValue. now rewrite Hf.
Qed.

Lemma BigInt_0x_digits (ds : list Z) :
  Forall (isDigit 16) ds -> ds <> [] ->
  BigInt ("0x" ++ stringOfDigits ds) = Ok (digitsValue 16 ds 0).
Proof.
  clear poseidon1 poseidon2.
  intros Hds Hne. unfold BigInt, StringToBigInt.
  change ("0x" ++ stringOfDigits ds)%string
    with (String "0" (String "x" (stringOfDigits ds))).
  change (trimStart (String "0" (String "x" (stringOfDigits ds))))
    with (String "0" (String "x" (stringOfDigits ds))).
  assert (Hx : trimEnd (String "x" (stringOfDigits ds))
               = String "x" (stringOfDigits ds))
    by (apply trimEnd_cons;
        [now apply trimEnd_stringOfDigits|now apply stringOfDigits_nonempty]).
  rewrite trimEnd_cons by (trivial; discriminate).
  change (isChar "x" "x" "X") with true. cbv iota.
  now rewrite parseAll_stringOfDigits by (trivial; lia).
Qed.

Lemma bufferToHex_nibbles (b : bytes) :
  Forall isByte b ->
  bufferToHex b = stringOfDigits (nibbles b)
  /\ Forall (isDigit 16) (nibbles b)
  /\ forall acc, digitsValue 16 (nibbles b) acc
                 = fold_left (fun a x => (a * 256 + x)%Z) b acc.
Proof.
  clear poseidon1 poseidon2.
  induction 1 as [|x b Hx Hb (IHhex & IHdig & IHval)].
  - repeat split; constructor.
  - unfold isByte in Hx.
    assert (Hhi : isDigit 16 (x / 16))
      by (unfold isDigit; split;
          [apply Z.div_pos; lia|apply Z.div_lt_upper_bound; lia]).
    assert (Hlo : isDigit 16 (x mod 16))
      by (unfold isDigit; apply Z.mod_pos_bound; lia).
    cbn [bufferToHex nibbles]. rewrite IHhex. split; [reflexivity|].
    split; [constructor; [exact Hhi|constructor; [exact Hlo|exact IHdig]]|].
    intros acc. unfold digitsValue in *. cbn [fold_left].
    rewrite IHval. f_equal.
    pose proof (Z.div_mod x 16 ltac:(lia)). lia.
Qed.

Lemma pairBytes_nibbles (b : bytes) :
  Forall isByte b -> pairBytes (nibbles b) = b.
Proof.
  clear poseidon1 poseidon2.
  induction 1 as [|x b Hx Hb IH]; [reflexivity|].
  cbn [nibbles pairBytes]. rewrite IH. f_equal.
  pose proof (Z.div_mod x 16 ltac:(lia)). lia.
Qed.

Lemma nibbles_length (b : bytes) : length (nibbles b) = 2 * length b.
Proof.
  clear poseidon1 poseidon2.
  induction b as [|x b IH]; [reflexivity|]. cbn [nibbles length]. lia.
Qed.

(** Two digit strings of one length that denote the same number are the
    same string. *)
Lemma leValue_inj (radix : Z) (xs ys : list Z) :
  length xs = length ys ->
  Forall (isDigit radix) xs -> Forall (isDigit radix) ys ->
  leValue radix xs = leValue radix ys -> xs = ys.
Proof.
  clear poseidon1 poseidon2.
  intros Hlen Hxs. revert ys Hlen.
  induction Hxs as [|x xs Hx Hxs IH]; intros ys Hlen Hys Hval.
  - destruct ys; [reflexivity|discriminate].
  - destruct ys as [|y ys]; [discriminate|].
    inversion Hys as [|? ? Hy Hys']; subst.
    cbn [leValue fold_right] in Hval.
    fold (leValue radix xs) in Hval. fold (leValue radix ys) in Hval.
    unfold isDigit in Hx, Hy.
    assert (Heq : leValue radix xs = leValue radix ys) by nia.
    assert (x = y) by nia. subst y.
    f_equal. apply IH; trivial. simpl in Hlen. lia.
Qed.

Lemma digitsValue_inj (radix : Z) (xs ys : list Z) :
  length xs = length ys ->
  Forall (isDigit radix) xs -> Forall (isDigit radix) ys ->
  digitsValue radix xs 0 = digitsValue radix ys 0 -> xs = ys.
Proof.
  intros Hlen Hxs Hys Hval.
  rewrite <- (rev_involutive xs), <- (rev_involutive ys) in Hval.
  rewrite !digitsValue_rev in Hval.
  apply leValue_inj in Hval;
    [|now rewrite !length_rev|now apply Forall_rev|now apply Forall_rev].
  rewrite <- (rev_involutive xs), <- (rev_involutive ys). now f_equal.
Qed.

Lemma bufferToBigint_value (b : bytes) :
  Forall isByte b -> b <> [] -> bufferToBigint b = Ok (beValue b).
Proof.
  clear poseidon1 poseidon2.
  intros Hb Hne. destruct (bufferToHex_nibbles Hb) as (Hhex & Hdig & Hnv).
  unfold bufferToBigint. rewrite Hhex, BigInt_0x_digits.
  - now rewrite Hnv.
  - exact Hdig.
  - destruct b; [congruence|discriminate].
Qed.

(** X1.  [bigintToBuffer] writes a value below 2^256 as 32 bytes, and
    [bufferToBigint] reads the value back. *)
Theorem buffer_of_bigint_roundtrip (v : Z) :
  (0 <= v < 2 ^ 256)%Z ->
  length (bigintToBuffer v) = 32
  /\ Forall isByte (bigintToBuffer v)
  /\ bufferToBigint (bigintToBuffer v) = Ok v.
Proof.
  clear poseidon1 poseidon2.
  intros Hv.
  destruct (bigintToBuffer_spec Hv) as (Hlen & Hbytes & Hval).
  repeat split; trivial.
  rewrite bufferToBigint_value; [now rewrite Hval|exact Hbytes|].
  intros Hnil. rewrite Hnil in Hlen. discriminate.
Qed.

(** X2.  [bufferToBigint] throws on the empty buffer and reads any other
    buffer as an unsigned big-endian integer; [bigintToBuffer] of what it
    read from a 32-byte buffer is that buffer. *)
Theorem bigint_of_buffer (b : bytes) :
  Forall isByte b ->
  (b = [] -> bufferToBigint b = Err BigIntSyntaxError)
  /\ (b <> [] -> bufferToBigint b = Ok (beValue b))
  /\ (length b = 32 -> bigintToBuffer (beValue b) = b).
Proof.
  intros Hb. destruct (bufferToHex_nibbles Hb) as (Hhex & Hdig & Hnv).
  split; [intros ->; reflexivity|]. split.
  - intros Hne. now apply bufferToBigint_value.
  - intros Hlen.
    pose proof (beValue_bounds Hb) as Hbound. rewrite Hlen in Hbound.
    change (256 ^ Z.of_nat 32)%Z with (2 ^ 256)%Z in Hbound.
    rewrite bigintToBuffer_digits by exact Hbound.
    destruct (digits64_spec Hbound) as (Hl64 & Hd64 & Hv64).
    assert (Heq : digits64 (beValue b) = nibbles b).
    { apply (@digitsValue_inj 16); trivial.
      - rewrite nibbles_length. lia.
      - rewrite Hv64, Hnv. reflexivity. }
    rewrite Heq. now apply pairBytes_nibbles.
Qed.

(** *** The Merkle tree *)

Lemma getMerklePath_loop_length (count level : nat) (zeros layer : list jsval)
    (index : Z) (acc siblings : list jsval) :
  getMerklePath_loop count level zeros layer index acc = Ok siblings ->
  length siblings = length acc + count.
Proof.
  revert level layer index acc.
  induction count as [|count IH]; intros level layer index acc Hloop.
  - cbn in Hloop. injection Hloop as <-. lia.
  - cbn [getMerklePath_loop] in Hloop.
    destruct (nextLayer (js_nth zeros level) layer) as [built|e];
      cbn [bind] in Hloop; [|discriminate].
    apply IH in Hloop. rewrite Hloop.
    destruct (_ <? _)%Z; rewrite length_app; simpl; lia.
Qed.

Lemma poseidonHash_two_error (a b : jsval) (e : error) :
  poseidonHash [a; b] = Err e -> e = PoseidonInputError.
Proof.
  destruct a, b; cbn; intros H; try discriminate H; now injection H as <-.
Qed.

Lemma nextLayer_error (zeroAtLevel : jsval) (layer : list jsval) (e : error) :
  nextLayer zeroAtLevel layer = Err e -> e = PoseidonInputError.
Proof.
  revert e. induction layer as [|a|a b rest IH] using list_pair_ind; intros e.
  - discriminate.
  - cbn [nextLayer].
    destruct (poseidonHash [a; zeroAtLevel]) as [h|e'] eqn:Hh; cbn [bind];
      [discriminate|].
    intros [= <-]. now apply poseidonHash_two_error in Hh.
  - cbn [nextLayer].
    destruct (poseidonHash [a; b]) as [h|e'] eqn:Hh; cbn [bind].
    + destruct (nextLayer zeroAtLevel rest) as [more|e''] eqn:Hmore;
        cbn [bind]; [discriminate|].
      intros [= <-]. now apply IH.
    + intros [= <-]. now apply poseidonHash_two_error in Hh.
Qed.

Lemma getMerklePath_loop_error (count level : nat) (zeros layer : list jsval)
    (index : Z) (acc : list jsval) (e : error) :
  getMerklePath_loop count level zeros layer index acc = Err e ->
  e = PoseidonInputError.
Proof.
  revert level layer index acc.
  induction count as [|count IH]; intros level layer index acc Hloop.
  - discriminate.
  - cbn [getMerklePath_loop] in Hloop.
    destruct (nextLayer (js_nth zeros level) layer) as [built|e'] eqn:Hbuilt;
      cbn [bind] in Hloop.
    + now apply IH in Hloop.
    + injection Hloop as <-. now apply nextLayer_error in Hbuilt.
Qed.

(** X3.  For an integer index, [getMerklePath] throws 'Invalid leaf
    index' exactly when the index is outside [0, leaf count), on the
    empty tree for every index.  For an index inside, it returns when the
    depth is within the zero table, and its only failure at a greater
    depth is the hash thrown on [undefined].  What it returns has exactly
    [depth] siblings, whatever the depth and the number of leaves. *)
Theorem getMerklePath_shape (t : LeanMerkleTree) (leafIndex : Z) :
  (- MAX_SAFE_INTEGER <= leafIndex <= MAX_SAFE_INTEGER)%Z ->
  ((leafIndex < 0 \/ Z.of_nat (getLeafCount t) <= leafIndex)%Z
   <-> getMerklePath t leafIndex = Err (InvalidLeafIndex leafIndex))
  /\ ((0 <= leafIndex < Z.of_nat (getLeafCount t))%Z ->
      (depth t <= S TREE_DEPTH ->
       exists siblings, getMerklePath t leafIndex = Ok siblings)
      /\ (forall e, getMerklePath t leafIndex = Err e ->
                    e = PoseidonInputError))
  /\ (forall siblings,
        getMerklePath t leafIndex = Ok siblings ->
        (0 <= leafIndex < Z.of_nat (getLeafCount t))%Z
        /\ length siblings = depth t).
Proof.
  intros _.
  assert (Hin : (0 <= leafIndex < Z.of_nat (getLeafCount t))%Z ->
                (depth t <= S TREE_DEPTH ->
                 exists siblings, getMerklePath t leafIndex = Ok siblings)
                /\ (forall e, getMerklePath t leafIndex = Err e ->
                              e = PoseidonInputError)).
  { unfold getLeafCount. intros Hrange. split.
    - intros Hd. destruct t as [ls d]. cbn [leaves depth] in *.
      exists (map Big (pathUp d 0 ls (Z.to_nat leafIndex))).
      rewrite <- (Z2Nat.id leafIndex) at 1 by lia.
      apply getMerklePath_pathUp; [exact Hd|lia].
    - intros e. unfold getMerklePath.
      replace (leafIndex <? 0)%Z with false by (symmetry; apply Z.ltb_ge; lia).
      replace (Z.of_nat (length (leaves t)) <=? leafIndex)%Z with false
        by (symmetry; apply Z.leb_gt; lia).
      cbn [orb]. rewrite initializeZeroValues_table. cbn [bind].
      apply getMerklePath_loop_error. }
  split; [|split; [exact Hin|]].
  - split.
    + unfold getMerklePath, getLeafCount. intros [Hneg|Hbig].
      * now replace (leafIndex <? 0)%Z with true by (symmetry; apply Z.ltb_lt; lia).
      * replace (Z.of_nat (length (leaves t)) <=? leafIndex)%Z with true
          by (symmetry; apply Z.leb_le; lia).
        now rewrite orb_true_r.
    + intros Herr.
      destruct (Z.lt_ge_cases leafIndex 0) as [Hneg|Hnn]; [now left|].
      destruct (Z.le_gt_cases (Z.of_nat (getLeafCount t)) leafIndex)
        as [Hbig|Hsmall]; [now right|].
      exfalso. destruct (Hin (conj Hnn Hsmall)) as [_ Hkind].
      specialize (Hkind _ Herr). discriminate.
  - unfold getMerklePath, getLeafCount.
    destruct (Z.ltb_spec leafIndex 0) as [Hneg|Hnn]; cbn [orb]; [discriminate|].
    destruct (Z.leb_spec (Z.of_nat (length (leaves t))) leafIndex) as [Hbig|Hlt];
      [discriminate|].
    intros siblings Hpath. split; [lia|].
    rewrite initializeZeroValues_table in Hpath. cbn [bind] in Hpath.
    now apply getMerklePath_loop_length in Hpath.
Qed.

(** X4.  On a tree within the zero table, the path of leaf [i] is
    accepted by [verifyProof] against the tree's root and against no
    other root. *)
Theorem verifyProof_accepts_only_root (d : nat) (ls : list Z) (i : nat) :
  d <= S TREE_DEPTH -> length ls <= 2 ^ d -> i < length ls ->
  exists siblings root,
    getMerklePath (mkTree ls d) (Z.of_nat i) = Ok siblings
    /\ computeRoot (mkTree ls d) = Ok (Big root)
    /\ forall claimed : jsval,
         verifyProof (mkTree ls d) (js_nth (map Big ls) i) (Z.of_nat i)
           siblings claimed
         = Ok (jsval_eqb (Big root) claimed).
Proof.
  intros Hd Hlen Hi.
  assert (Hne : ls <> []) by (destruct ls; simpl in *; [lia|congruence]).
  exists (map Big (pathUp d 0 ls i)), (nth 0 (layersUp d 0 ls) 0%Z).
  split; [now apply getMerklePath_pathUp|].
  split; [now apply computeRoot_nonempty|].
  intros claimed. rewrite js_nth_Big by exact Hi.
  destruct claimed as [r|].
  - rewrite verifyProof_foldPath by apply pathUp_length.
    now rewrite foldPath_root by trivial.
  - unfold verifyProof. cbn [depth].
    rewrite length_map, pathUp_length, Nat.eqb_refl. cbn [negb].
    pose proof (@verifyProof_loop_foldPath (pathUp d 0 ls i) [] (nth i ls 0%Z) i)
      as Hloop.
    rewrite pathUp_length in Hloop. cbn [length app] in Hloop.
    rewrite Hloop. reflexivity.
Qed.

Lemma verifyProof_loop_index (count i : nat) (siblings : list jsval)
    (h : jsval) (index k : Z) :
  verifyProof_loop count i siblings h (index + k * 2 ^ Z.of_nat count)
  = verifyProof_loop count i siblings h index.
Proof.
  revert i h index k. induction count as [|count IH]; intros i h index k.
  - reflexivity.
  - cbn [verifyProof_loop].
    rewrite Nat2Z.inj_succ, Z.pow_succ_r by lia.
    assert (Hrem : (Z.rem (index + k * (2 * 2 ^ Z.of_nat count)) 2 =? 0)%Z
                   = (Z.rem index 2 =? 0)%Z).
    { apply eq_true_iff_eq. rewrite !Z.eqb_eq, !Z.rem_mod_eq_0 by lia.
      replace (index + k * (2 * 2 ^ Z.of_nat count))%Z
        with (index + (k * 2 ^ Z.of_nat count) * 2)%Z by lia.
      now rewrite Z.mod_add by lia. }
    rewrite Hrem.
    replace ((index + k * (2 * 2 ^ Z.of_nat count)) / 2)%Z
      with (index / 2 + k * 2 ^ Z.of_nat count)%Z.
    + destruct (Z.rem index 2 =? 0)%Z;
        (destruct (poseidonHash _); cbn [bind]; [apply IH|reflexivity]).
    + replace (index + k * (2 * 2 ^ Z.of_nat count))%Z
        with (index + (k * 2 ^ Z.of_nat count) * 2)%Z by lia.
      now rewrite Z.div_add by lia.
Qed.

(** X5.  [verifyProof] does not check the leaf index against the tree:
    it reads it modulo [2^depth] only.  Two integer indices that the
    source's numbers hold exactly and that differ by a multiple of
    [2^depth] get the same answer, negative ones included. *)
Theorem verifyProof_index_modulo (t : LeanMerkleTree) (leaf : jsval)
    (leafIndex k : Z) (siblings : list jsval) (root : jsval) :
  (- MAX_SAFE_INTEGER <= leafIndex <= MAX_SAFE_INTEGER)%Z ->
  (- MAX_SAFE_INTEGER <= leafIndex + k * 2 ^ Z.of_nat (depth t)
   <= MAX_SAFE_INTEGER)%Z ->
  verifyProof t leaf (leafIndex + k * 2 ^ Z.of_nat (depth t)) siblings root
  = verifyProof t leaf leafIndex siblings root.
Proof.
  intros _ _. unfold verifyProof. destruct (negb _); [reflexivity|].
  now rewrite verifyProof_loop_index.
Qed.

Lemma computeRoot_referenceRoot (d : nat) (ls : list Z) :
  length ls <= 2 ^ d -> d <= TREE_DEPTH ->
  computeRoot (mkTree ls d) = Ok (Big (referenceRoot d ls)).
Proof.
  intros Hlen Hd. destruct ls as [|x ls].
  - rewrite computeRoot_empty, zeroTable_inside by exact Hd.
    now rewrite referenceRoot_empty.
  - rewrite computeRoot_nonempty by (trivial; try congruence; lia).
    now rewrite referenceRoot_layersUp by (trivial; congruence).
Qed.

(** X6.  The root does not tell a leaf 0 from an empty slot: appending
    the leaf 0 to a tree with room left does not change [computeRoot]. *)
Theorem zero_leaf_keeps_root (d : nat) (ls : list Z) :
  d <= TREE_DEPTH -> length ls < 2 ^ d ->
  fst (addLeaf (mkTree ls d) 0%Z) = Ok (length ls)
  /\ computeRoot (snd (addLeaf (mkTree ls d) 0%Z)) = computeRoot (mkTree ls d).
Proof.
  intros Hd Hlen. unfold addLeaf. cbn [leaves depth].
  replace (2 ^ d <=? length ls) with false by (symmetry; apply Nat.leb_gt; lia).
  cbn [fst snd]. split; [reflexivity|].
  rewrite !computeRoot_referenceRoot by (trivial; rewrite ?length_app; simpl; lia).
  do 2 f_equal. unfold referenceRoot. do 2 f_equal.
  rewrite <- app_assoc, length_app. cbn [length app].
  replace (2 ^ d - length ls) with (S (2 ^ d - (length ls + 1))) by lia.
  reflexivity.
Qed.

(** X7.  [getMockAssociationProof(label)] is the proof of a depth-2 tree
    holding the label alone: its root is that tree's [computeRoot], its
    siblings are that tree's [getMerklePath(0)], and [verifyProof]
    accepts them. *)
Theorem mock_association_proof_is_tree_proof (label : Z) :
  exists root siblings,
    getMockAssociationProof label = Ok (root, 0%Z, siblings)
    /\ computeRoot (mkTree [label] 2) = Ok (Big root)
    /\ getMerklePath (mkTree [label] 2) 0 = Ok siblings
    /\ verifyProof (mkTree [label] 2) (Big label) 0 siblings (Big root) = Ok true.
Proof.
  exists (poseidon2 (poseidon2 label (zeroAt 0)) (zeroAt 1)),
         [Big (zeroAt 0); Big (zeroAt 1)].
  repeat split; try reflexivity.
  unfold verifyProof. cbn. now rewrite Z.eqb_refl.
Qed.

(** X8.  [getZeroValue(level)] throws 'Invalid level' outside
    [0, TREE_DEPTH]; inside it returns [zero[level]], which is 0 at level
    0, the hash of the level below with itself above it, and the root
    [computeRoot] gives the empty tree of that depth. *)
Theorem getZeroValue_levels (level : Z) :
  ((level < 0 \/ Z.of_nat TREE_DEPTH < level)%Z ->
     getZeroValue level = InvalidLevel level)
  /\ (forall l : nat, level = Z.of_nat l -> l <= TREE_DEPTH ->
        getZeroValue level = ZeroValue (Big (zeroAt l))
        /\ computeRoot (newTree l) = Ok (Big (zeroAt l))
        /\ (l = 0 -> zeroAt l = 0%Z)
        /\ (forall l', l = S l' ->
              zeroAt l = poseidon2 (zeroAt l') (zeroAt l'))).
Proof.
  unfold getZeroValue. rewrite initializeZeroValues_table. split.
  - intros Hout.
    destruct (Z.ltb_spec level 0); [reflexivity|].
    destruct (Z.ltb_spec (Z.of_nat TREE_DEPTH) level); [reflexivity|lia].
  - intros l -> Hl.
    replace (Z.of_nat l <? 0)%Z with false by (symmetry; apply Z.ltb_ge; lia).
    replace (Z.of_nat TREE_DEPTH <? Z.of_nat l)%Z with false
      by (symmetry; apply Z.ltb_ge; lia).
    cbn [orb]. unfold js_index.
    replace (Z.of_nat l <? 0)%Z with false by (symmetry; apply Z.ltb_ge; lia).
    rewrite Nat2Z.id, zeroTable_inside by exact Hl.
    split; [reflexivity|]. split.
    + unfold newTree. now rewrite computeRoot_empty, zeroTable_inside.
    + split; [now intros ->|now intros l' ->].
Qed.

(** X9.  Rebuilding the tree from the contract's 32-byte buffers gives
    the tree the inserts built: for at most [2^TREE_DEPTH] leaves below
    2^256, [buildMerkleTreeFromCommitments] of the leaves' buffers equals
    the result of adding the leaves one by one, so leaves, paths and root
    agree. *)
Theorem mirror_tree_is_inserted_tree (ls : list Z) :
  Forall (fun x => (0 <= x < 2 ^ 256)%Z) ls -> length ls <= 2 ^ TREE_DEPTH ->
  buildMerkleTreeFromCommitments (map bigintToBuffer ls)
  = addLeaves (newTree TREE_DEPTH) ls
  /\ addLeaves (newTree TREE_DEPTH) ls = Ok (mkTree ls TREE_DEPTH).
Proof.
  intros Hls Hlen.
  rewrite addLeaves_ok by (cbn [newTree leaves depth length]; lia).
  cbn [newTree leaves depth app]. split; [|reflexivity].
  unfold buildMerkleTreeFromCommitments, fromBufferLeaves.
  assert (Hmap : mapResult bufferToBigint (map bigintToBuffer ls) = Ok ls).
  { clear Hlen. induction Hls as [|x ls Hx Hls IH]; [reflexivity|].
    cbn [map mapResult].
    destruct (bigintToBuffer_spec Hx) as (Hl & Hb & Hv).
    rewrite bufferToBigint_value, Hv; trivial.
    - cbn [bind]. now rewrite IH.
    - intros Hnil. rewrite Hnil in Hl. discriminate. }
  now rewrite Hmap.
Qed.

(** *** Decimal strings *)

Lemma digitChar_decimal (d : Z) :
  isDigit 10 d ->
  isChar (digitChar d) "x" "X" = false
  /\ isChar (digitChar d) "o" "O" = false
  /\ isChar (digitChar d) "b" "B" = false.
Proof.
  clear poseidon1 poseidon2.
  unfold isDigit. intros Hd.
  assert (d = 0 \/ d = 1 \/ d = 2 \/ d = 3 \/ d = 4 \/ d = 5 \/ d = 6 \/ d = 7
          \/ d = 8 \/ d = 9)%Z as Hcases by lia.
  repeat (destruct Hcases as [->|Hcases]; [repeat split; reflexivity|]).
  subst d. repeat split; reflexivity.
Qed.

(** [BigInt] on a string that starts with neither white space, a sign nor
    a radix prefix reads it as decimal digits. *)
Lemma StringToBigInt_plain (c : ascii) (s : string) :
  isWhiteSpace c = false ->
  Ascii.eqb c "-"%char = false -> Ascii.eqb c "+"%char = false ->
  match s with
  | String x _ =>
      isChar x "x" "X" = false /\ isChar x "o" "O" = false
      /\ isChar x "b" "B" = false
  | EmptyString => True
  end ->
  trimEnd (String c s) = String c s ->
  StringToBigInt (String c s) = parseAll 10 (String c s).
Proof.
  intros Hws Hm Hp Hx Htrim. unfold StringToBigInt.
  cbn [trimStart]. rewrite Hws, Htrim.
  destruct c as [b0 b1 b2 b3 b4 b5 b6 b7].
  destruct b0, b1, b2, b3, b4, b5, b6, b7;
    try discriminate Hm; try discriminate Hp; try reflexivity.
  destruct s as [|x r]; [reflexivity|].
  destruct Hx as (Hx1 & Hx2 & Hx3). now rewrite Hx1, Hx2, Hx3.
Qed.

Lemma isDigit_10_16 (ds : list Z) :
  Forall (isDigit 10) ds -> Forall (isDigit 16) ds.
Proof.
  clear poseidon1 poseidon2.
  apply Forall_impl. unfold isDigit. lia.
Qed.

Lemma StringToBigInt_decimal_digits (ds : list Z) :
  Forall (isDigit 10) ds -> ds <> [] ->
  StringToBigInt (stringOfDigits ds) = Some (digitsValue 10 ds 0).
Proof.
  intros Hds Hne. destruct ds as [|d ds]; [congruence|].
  pose proof (isDigit_10_16 Hds) as Hds16.
  inversion Hds as [|? ? Hd Hds']; subst.
  inversion Hds16 as [|? ? Hd16 _]; subst.
  destruct (digitChar_plain Hd16) as (Hws & Hm & Hp & _).
  pose proof (trimEnd_stringOfDigits Hds16) as Htrim.
  rewrite stringOfDigits_cons in *.
  rewrite StringToBigInt_plain; trivial.
  - change (String (digitChar d) (stringOfDigits ds))
      with (stringOfDigits (d :: ds)).
    apply parseAll_stringOfDigits; [lia|exact Hds|discriminate].
  - destruct ds as [|d' ds]; [exact I|].
    inversion Hds' as [|? ? Hd' _]; subst.
    rewrite stringOfDigits_cons. now apply digitChar_decimal.
Qed.

Lemma BigInt_decimal (n : Z) : BigInt (bigintToString 10 n) = Ok n.
Proof.
  unfold BigInt, bigintToString.
  destruct (Z.ltb_spec n 0) as [Hneg|Hnn].
  - pose proof (digitsOf_range (- n) (radix := 10) ltac:(lia)) as Hds.
    pose proof (@digitsOf_nonempty 10 (- n)) as Hne.
    unfold StringToBigInt.
    change (trimStart (String "-" (stringOfDigits (digitsOf 10 (- n)))))
      with (String "-" (stringOfDigits (digitsOf 10 (- n)))).
    rewrite trimEnd_cons
      by (try apply trimEnd_stringOfDigits; try apply stringOfDigits_nonempty;
          trivial; now apply isDigit_10_16).
    cbv iota beta.
    rewrite parseAll_stringOfDigits by (trivial; lia).
    rewrite digitsOf_value by lia. cbn [option_map]. f_equal. lia.
  - rewrite StringToBigInt_decimal_digits
      by (try apply digitsOf_range; try apply digitsOf_nonempty; lia).
    now rewrite digitsOf_value by lia.
Qed.

Lemma mapResult_BigInt_decimal (xs : list Z) :
  mapResult BigInt (map (bigintToString 10) xs) = Ok xs.
Proof.
  induction xs as [|x xs IH]; [reflexivity|].
  cbn [map mapResult]. rewrite BigInt_decimal. cbn [bind]. now rewrite IH.
Qed.

(** X10.  The decimal strings handed to the circuit read back as the
    bigints they were made from, negative ones too: [BigInt(n.toString())]
    is [n], and [siblingsToCircuitInput] followed by [BigInt] on every
    string is the identity. *)
Theorem circuit_strings_read_back (n : Z) (siblings : list Z) :
  BigInt (bigintToString 10 n) = Ok n
  /\ exists strings,
       siblingsToCircuitInput (map Big siblings) = Ok strings
       /\ length strings = length siblings
       /\ mapResult BigInt strings = Ok siblings.
Proof.
  split; [apply BigInt_decimal|].
  exists (map (bigintToString 10) siblings).
  unfold siblingsToCircuitInput. rewrite mapToString_Big.
  split; [reflexivity|]. split; [apply length_map|].
  apply mapResult_BigInt_decimal.
Qed.

(** X11.  The two 32-byte encoders agree: for a value below 2^256 the
    word [fieldElementToBytes] makes of its decimal string is the buffer
    [bigintToBuffer] makes of the value. *)
Theorem signal_word_is_bigint_buffer (v : Z) :
  (0 <= v < 2 ^ 256)%Z ->
  fieldElementToBytes (bigintToString 10 v) = Ok (bigintToBuffer v).
Proof.
  intros Hv.
  rewrite (@fieldElementToBytes_digits _ v (BigInt_decimal v) Hv).
  now rewrite bigintToBuffer_digits.
Qed.

(** *** The encoders' sizes *)

Lemma fieldElementToBytes_error (value : string) (e : error) :
  fieldElementToBytes value = Err e -> e = BigIntSyntaxError.
Proof.
  clear poseidon1 poseidon2.
  unfold fieldElementToBytes, BigInt.
  destruct (StringToBigInt value); cbn [bind]; [discriminate|].
  now intros [= <-].
Qed.

Lemma writeSignals_error (signals : list string) (i : nat) (out : bytes)
    (e : error) :
  writeSignals signals i out = Err e -> e = BigIntSyntaxError.
Proof.
  clear poseidon1 poseidon2.
  revert i out. induction signals as [|sig rest IH]; intros i out Hw;
    [discriminate|].
  cbn [writeSignals] in Hw.
  destruct (fieldElementToBytes sig) as [fb|e'] eqn:Hsig; cbn [bind] in Hw.
  - now apply IH in Hw.
  - injection Hw as <-. now apply fieldElementToBytes_error in Hsig.
Qed.

Lemma writeSignals_inv (signals : list string) (i : nat) (out w : bytes) :
  writeSignals signals i out = Ok w ->
  exists words, mapResult fieldElementToBytes signals = Ok words.
Proof.
  clear poseidon1 poseidon2.
  revert i out. induction signals as [|sig rest IH]; intros i out Hw.
  - now exists [].
  - cbn [writeSignals] in Hw. cbn [mapResult].
    destruct (fieldElementToBytes sig) as [fb|]; cbn [bind] in *; [|discriminate].
    destruct (IH _ _ Hw) as [words Hwords]. rewrite Hwords.
    now exists (fb :: words).
Qed.

Lemma mapResult_words_length (signals : list string) (words : list bytes) :
  mapResult fieldElementToBytes signals = Ok words ->
  length (concat words) = length signals * 32.
Proof.
  clear poseidon1 poseidon2.
  revert words. induction signals as [|sig rest IH]; intros words Hw.
  - cbn in Hw. injection Hw as <-. reflexivity.
  - cbn [mapResult] in Hw.
    destruct (fieldElementToBytes sig) as [fb|] eqn:Hsig; cbn [bind] in Hw;
      [|discriminate].
    destruct (mapResult fieldElementToBytes rest) as [ws|]; cbn [bind] in Hw;
      [|discriminate].
    injection Hw as <-. cbn [concat length].
    rewrite length_app, (fieldElementToBytes_length _ Hsig), (IH ws eq_refl).
    lia.
Qed.

Lemma serializePublicSignals_size (signals : list string) (w : bytes) :
  serializePublicSignalsForSoroban signals = Ok w ->
  length w = 4 + length signals * 32
  /\ firstn 4 w = uint32BE (Z.of_nat (length signals)).
Proof.
  intros Hw.
  assert (Hwords : exists words, mapResult fieldElementToBytes signals = Ok words)
    by (unfold serializePublicSignalsForSoroban in Hw;
        now apply writeSignals_inv in Hw).
  destruct Hwords as [words Hwords].
  rewrite (serializePublicSignals_words _ Hwords) in Hw. injection Hw as <-.
  split; [|reflexivity].
  cbn [length]. now rewrite (mapResult_words_length _ Hwords).
Qed.

Lemma g1PointToBytes_size (point : string * string * string) :
  match g1PointToBytes point with
  | Ok w => length w = 64
  | Err e => e = BigIntSyntaxError
  end.
Proof.
  destruct point as [[x y] z]. unfold g1PointToBytes.
  destruct (fieldElementToBytes x) as [wx|e] eqn:Hx; cbn [bind];
    [|now apply fieldElementToBytes_error in Hx].
  destruct (fieldElementToBytes y) as [wy|e] eqn:Hy; cbn [bind];
    [|now apply fieldElementToBytes_error in Hy].
  pose proof (@g1PointToBytes_words x y z wx wy Hx Hy) as Hw.
  unfold g1PointToBytes in Hw. rewrite Hx, Hy in Hw. cbn [bind] in Hw.
  injection Hw as ->. rewrite length_app.
  now rewrite (fieldElementToBytes_length _ Hx), (fieldElementToBytes_length _ Hy).
Qed.

Lemma g2PointToBytes_size
    (point : (string * string) * (string * string) * (string * string)) :
  match g2PointToBytes point with
  | Ok w => length w = 128
  | Err e => e = BigIntSyntaxError
  end.
Proof.
  destruct point as [[[x0 x1] [y0 y1]] z]. unfold g2PointToBytes.
  destruct (fieldElementToBytes x0) as [w0|e] eqn:H0; cbn [bind];
    [|now apply fieldElementToBytes_error in H0].
  destruct (fieldElementToBytes x1) as [w1|e] eqn:H1; cbn [bind];
    [|now apply fieldElementToBytes_error in H1].
  destruct (fieldElementToBytes y0) as [w2|e] eqn:H2; cbn [bind];
    [|now apply fieldElementToBytes_error in H2].
  destruct (fieldElementToBytes y1) as [w3|e] eqn:H3; cbn [bind];
    [|now apply fieldElementToBytes_error in H3].
  pose proof (@g2PointToBytes_words x0 x1 y0 y1 z w0 w1 w2 w3 H0 H1 H2 H3) as Hw.
  unfold g2PointToBytes in Hw. rewrite H0, H1, H2, H3 in Hw. cbn [bind] in Hw.
  injection Hw as ->. rewrite !length_app.
  now rewrite (fieldElementToBytes_length _ H0), (fieldElementToBytes_length _ H1),
    (fieldElementToBytes_length _ H2), (fieldElementToBytes_length _ H3).
Qed.

Lemma serializeProof_size (proof : Groth16Proof) :
  match serializeProofForSoroban proof with
  | Ok w => length w = 256
  | Err e => e = BigIntSyntaxError
  end.
Proof.
  pose proof (g1PointToBytes_size (pi_a proof)) as Ha.
  pose proof (g2PointToBytes_size (pi_b proof)) as Hb.
  pose proof (g1PointToBytes_size (pi_c proof)) as Hc.
  destruct (g1PointToBytes (pi_a proof)) as [a|] eqn:Ea;
    [|unfold serializeProofForSoroban; now rewrite Ea].
  destruct (g2PointToBytes (pi_b proof)) as [b|] eqn:Eb;
    [|unfold serializeProofForSoroban; now rewrite Ea, Eb].
  destruct (g1PointToBytes (pi_c proof)) as [c|] eqn:Ec;
    [|unfold serializeProofForSoroban; now rewrite Ea, Eb, Ec].
  rewrite (@serializeProof_points proof a b c Ea Ha Eb Hb Ec Hc).
  rewrite !length_app. lia.
Qed.

(** X12.  Whatever the size of the numbers, a serialized proof is 256
    bytes and serialized public signals are 4 + 32 n bytes that start
    with the big-endian count n; the only failure of either encoder is
    the [SyntaxError] of [BigInt] on a string that is not an integer. *)
Theorem encoders_sizes (proof : Groth16Proof) (signals : list string) :
  match serializeProofForSoroban proof with
  | Ok w => length w = 256
  | Err e => e = BigIntSyntaxError
  end
  /\ match serializePublicSignalsForSoroban signals with
     | Ok w => length w = 4 + length signals * 32
               /\ firstn 4 w = uint32BE (Z.of_nat (length signals))
     | Err e => e = BigIntSyntaxError
     end.
Proof.
  split; [apply serializeProof_size|].
  destruct (serializePublicSignalsForSoroban signals) as [w|e] eqn:Hw.
  - now apply serializePublicSignals_size.
  - unfold serializePublicSignalsForSoroban in Hw.
    now apply writeSignals_error in Hw.
Qed.

(** *** What [decodeNote] returns *)

Lemma digitIn_range (radix : Z) (c : ascii) (d : Z) :
  digitIn radix c = Some d -> (0 <= d < radix)%Z.
Proof.
  clear poseidon1 poseidon2.
  unfold digitIn, digitValue.
  set (n := Z.of_nat (nat_of_ascii c)).
  destruct ((48 <=? n) && (n <=? 57))%Z eqn:H1;
    [|destruct ((97 <=? n) && (n <=? 122))%Z eqn:H2;
      [|destruct ((65 <=? n) && (n <=? 90))%Z eqn:H3; [|discriminate]]].
  - apply andb_prop in H1. destruct H1 as [Ha Hb].
    apply Z.leb_le in Ha. destruct (Z.ltb_spec (n - 48) radix); [|discriminate].
    intros [= <-]. lia.
  - apply andb_prop in H2. destruct H2 as [Ha Hb].
    apply Z.leb_le in Ha. destruct (Z.ltb_spec (n - 87) radix); [|discriminate].
    intros [= <-]. lia.
  - apply andb_prop in H3. destruct H3 as [Ha Hb].
    apply Z.leb_le in Ha. destruct (Z.ltb_spec (n - 55) radix); [|discriminate].
    intros [= <-]. lia.
Qed.

Lemma parseDigits_nonneg (radix : Z) (s : string) (acc v : Z) :
  (0 <= acc)%Z -> parseDigits radix s acc = Some v -> (0 <= v)%Z.
Proof.
  clear poseidon1 poseidon2.
  revert acc. induction s as [|c s IH]; intros acc Hacc Hp; cbn [parseDigits] in Hp.
  - injection Hp as <-. exact Hacc.
  - destruct (digitIn radix c) as [d|] eqn:Hd; [|discriminate].
    apply digitIn_range in Hd. apply IH in Hp; [exact Hp|nia].
Qed.

Lemma parsePrefix_nonneg (radix : Z) (s : string) (acc v : Z) (seen : bool) :
  (0 <= acc)%Z -> parsePrefix radix s acc seen = Some v -> (0 <= v)%Z.
Proof.
  clear poseidon1 poseidon2.
  revert acc seen.
  induction s as [|c s IH]; intros acc seen Hacc Hp; cbn [parsePrefix] in Hp.
  - destruct seen; [|discriminate]. injection Hp as <-. exact Hacc.
  - destruct (digitIn radix c) as [d|] eqn:Hd.
    + apply digitIn_range in Hd. apply IH in Hp; [exact Hp|nia].
    + destruct seen; [|discriminate]. injection Hp as <-. exact Hacc.
Qed.

(** [BigInt("0x" + p)] reads [p], up to white space at its end, as hex
    digits and nothing else. *)
Lemma BigInt_0x (p : string) :
  BigInt ("0x" ++ p)
  = match parseAll 16 (trimEnd p) with
    | Some v => Ok v
    | None => Err BigIntSyntaxError
    end.
Proof.
  clear poseidon1 poseidon2.
  unfold BigInt, StringToBigInt.
  change ("0x" ++ p)%string with (String "0" (String "x" p)).
  change (trimStart (String "0" (String "x" p))) with (String "0" (String "x" p)).
  assert (Ht : trimEnd (String "0" (String "x" p))
               = String "0" (String "x" (trimEnd p))).
  { cbn [trimEnd]. destruct (trimEnd p); reflexivity. }
  rewrite Ht. reflexivity.
Qed.

Lemma BigInt_0x_nonneg (p : string) (v : Z) :
  BigInt ("0x" ++ p) = Ok v -> (0 <= v)%Z.
Proof.
  clear poseidon1 poseidon2.
  rewrite BigInt_0x. unfold parseAll.
  destruct (trimEnd p) as [|c r]; [discriminate|].
  destruct (parseDigits 16 (String c r) 0) as [v'|] eqn:Hp; [|discriminate].
  intros [= <-]. now apply parseDigits_nonneg in Hp.
Qed.

Lemma lacks_trimStart (c : ascii) (s : string) :
  lacks c s = true -> lacks c (trimStart s) = true.
Proof.
  clear poseidon1 poseidon2.
  induction s as [|x s IH]; intros Hl; [reflexivity|].
  cbn [trimStart]. destruct (isWhiteSpace x); [|exact Hl].
  cbn [lacks] in Hl. apply andb_prop in Hl. now apply IH.
Qed.

(** [parseInt] gives a negative number only to a string with a minus
    sign. *)
Lemma parseInt_nonneg (s : string) (radix z : Z) :
  lacks "-"%char s = true -> parseInt s radix = Int z -> (0 <= z)%Z.
Proof.
  clear poseidon1 poseidon2.
  intros Hl. apply (lacks_trimStart "-"%char) in Hl. unfold parseInt.
  destruct (trimStart s) as [|c r]; [discriminate|].
  cbn [lacks] in Hl. apply andb_prop in Hl. destruct Hl as [Hc _].
  apply negb_true_iff in Hc.
  destruct c as [b0 b1 b2 b3 b4 b5 b6 b7].
  destruct b0, b1, b2, b3, b4, b5, b6, b7; try discriminate Hc;
    cbv beta iota zeta; intros Hp;
    match type of Hp with
    | context [parsePrefix ?R ?T 0%Z false] =>
        destruct (parsePrefix R T 0%Z false) as [v|] eqn:Hv; [|discriminate Hp]
    end;
    injection Hp as <-; apply parsePrefix_nonneg in Hv; try lia;
    destruct v; lia.
Qed.

Lemma split_parts_lack (sep : ascii) (s : string) :
  Forall (fun p => lacks sep p = true) (split sep s).
Proof.
  clear poseidon1 poseidon2.
  induction s as [|c s IH]; [repeat constructor|].
  cbn [split]. destruct (Ascii.eqb c sep) eqn:Hc.
  - constructor; [reflexivity|exact IH].
  - destruct (split sep s) as [|q qs].
    + constructor; [|constructor]. cbn [lacks]. now rewrite Hc.
    + inversion IH as [|? ? Hq Hqs]; subst.
      constructor; [|exact Hqs]. cbn [lacks]. now rewrite Hc, Hq.
Qed.

Lemma decode_encode_NaN (n s v l : Z) :
  (0 <= n)%Z -> (0 <= s)%Z -> (0 <= v)%Z -> (0 <= l)%Z ->
  decodeNote (encodeNote (mkNote n s v l NaN)) = Ok (mkNote n s v l NaN).
Proof.
  clear poseidon1 poseidon2.
  intros Hn Hs Hv Hl. unfold decodeNote, encodeNote.
  cbn [nullifier secret value label leafIndex numberToString].
  rewrite split_join; [|discriminate|].
  - cbn [length Nat.eqb negb nth orb].
    change (negb (String.eqb "opaque" "opaque")) with false.
    change (parseInt "1" 10) with (Int 1).
    cbn [number_eqb Z.eqb Pos.eqb negb].
    rewrite !BigInt_hex by assumption. cbn [bind]. reflexivity.
  - repeat constructor; try reflexivity; now apply hexField_lacks.
Qed.

Lemma decodeNote_fields (noteString : string) (note : DepositNote) :
  decodeNote noteString = Ok note ->
  (0 <= nullifier note)%Z /\ (0 <= secret note)%Z /\ (0 <= value note)%Z
  /\ (0 <= label note)%Z
  /\ (leafIndex note = NaN \/ exists z, leafIndex note = Int z /\ (0 <= z)%Z).
Proof.
  clear poseidon1 poseidon2.
  unfold decodeNote.
  pose proof (split_parts_lack "-"%char noteString) as Hparts.
  set (parts := split "-"%char noteString) in *.
  destruct (Nat.eqb_spec (length parts) 7) as [Hlen|]; [|discriminate].
  cbn [negb orb].
  destruct (negb (String.eqb (nth 0 parts EmptyString) "opaque")); [discriminate|].
  destruct (negb (number_eqb (parseInt (nth 1 parts EmptyString) 10) 1));
    [discriminate|].
  destruct (BigInt ("0x" ++ nth 2 parts EmptyString)) as [n|] eqn:Hn;
    [|discriminate].
  destruct (BigInt ("0x" ++ nth 3 parts EmptyString)) as [s|] eqn:Hs;
    [|discriminate].
  destruct (BigInt ("0x" ++ nth 4 parts EmptyString)) as [v|] eqn:Hv;
    [|discriminate].
  destruct (BigInt ("0x" ++ nth 5 parts EmptyString)) as [l|] eqn:Hl;
    [|discriminate].
  cbn [bind]. intros [= <-]. cbn [nullifier secret value label leafIndex].
  apply BigInt_0x_nonneg in Hn, Hs, Hv, Hl.
  repeat (split; [assumption|]).
  destruct (parseInt (nth 6 parts EmptyString) 16) as [z|] eqn:Hidx;
    [right|now left].
  exists z. split; [reflexivity|].
  apply parseInt_nonneg in Hidx; [exact Hidx|].
  apply (proj1 (Forall_nth _ parts) Hparts). lia.
Qed.

Lemma decodeNote_reencodes (noteString : string) (note : DepositNote) :
  decodeNote noteString = Ok note ->
  (forall z, leafIndex note = Int z -> (z <= MAX_SAFE_INTEGER)%Z) ->
  decodeNote (encodeNote note) = Ok note.
Proof.
  clear poseidon1 poseidon2.
  intros Hdec Hsafe.
  destruct (decodeNote_fields _ Hdec) as (Hn & Hs & Hv & Hl & Hidx).
  destruct note as [n s v l idx].
  cbn [nullifier secret value label leafIndex] in *.
  destruct Hidx as [->|[z [-> Hz]]].
  - now apply decode_encode_NaN.
  - apply decode_encode. repeat (split; [assumption|]).
    exists z. split; [reflexivity|]. split; [exact Hz|]. now apply Hsafe.
Qed.

(** X13.  Whatever string it is given, a note [decodeNote] returns has a
    non-negative nullifier, secret, value and label.  When its leaf index
    is [NaN] or an integer not above [Number.MAX_SAFE_INTEGER], the range
    in which [parseInt] is exact, that index is not negative, and
    encoding the note and decoding it again gives the same note. *)
Theorem decodeNote_returns_encodable_note (noteString : string)
    (note : DepositNote) :
  decodeNote noteString = Ok note ->
  ((0 <= nullifier note)%Z /\ (0 <= secret note)%Z /\ (0 <= value note)%Z
   /\ (0 <= label note)%Z)
  /\ ((forall z, leafIndex note = Int z -> (z <= MAX_SAFE_INTEGER)%Z) ->
      (leafIndex note = NaN
       \/ exists z, leafIndex note = Int z
                    /\ (0 <= z <= MAX_SAFE_INTEGER)%Z)
      /\ decodeNote (encodeNote note) = Ok note).
Proof.
  clear poseidon1 poseidon2.
  intros Hdec.
  destruct (decodeNote_fields _ Hdec) as (Hn & Hs & Hv & Hl & Hidx).
  split; [repeat split; assumption|].
  intros Hsafe. split.
  - destruct Hidx as [Hnan|[z [Hz Hnn]]]; [now left|right].
    exists z. split; [exact Hz|]. split; [exact Hnn|now apply Hsafe].
  - now apply (@decodeNote_reencodes noteString).
Qed.

Lemma computeCommitment_value (value label nullifier secret : Z) :
  computeCommitment value label nullifier secret
  = Ok (poseidon2 (poseidon2 value label) (poseidon2 nullifier secret)).
Proof. reflexivity. Qed.

Lemma validateNote_decodeNote (noteString : string) :
  validateNote noteString
  = match decodeNote noteString with
    | Ok note => ValidNote note
    | Err e => InvalidNote e
    end.
Proof.
  unfold validateNote. destruct (decodeNote noteString) as [note|e]; cbn [bind].
  - now rewrite computeCommitment_value.
  - reflexivity.
Qed.

(** X14.  [validateNote] accepts exactly the strings [decodeNote]
    decodes and hands back the decoded note, and fails with
    [decodeNote]'s error otherwise: the commitment it computes from the
    note cannot make it reject anything.  In particular it accepts every
    encoded note of non-negative fields. *)
Theorem validateNote_accepts_what_decodes (noteString : string) :
  (forall note, validateNote noteString = ValidNote note
                <-> decodeNote noteString = Ok note)
  /\ (forall e, validateNote noteString = InvalidNote e
                <-> decodeNote noteString = Err e)
  /\ (forall note, nonNegativeNote note ->
        validateNote (encodeNote note) = ValidNote note).
Proof.
  split; [|split].
  - intros note. rewrite validateNote_decodeNote.
    destruct (decodeNote noteString); split; congruence.
  - intros e. rewrite validateNote_decodeNote.
    destruct (decodeNote noteString); split; congruence.
  - intros note Hnote. rewrite validateNote_decodeNote.
    now rewrite decode_encode.
Qed.

(** *** Secrets and labels *)

Lemma nth_isByte (bs : bytes) (i : nat) : Forall isByte bs -> isByte (nth i bs 0%Z).
Proof.
  clear poseidon1 poseidon2.
  intros Hbs. destruct (Nat.lt_ge_cases i (length bs)) as [Hi|Hi].
  - now apply (proj1 (Forall_nth _ bs) Hbs).
  - rewrite nth_overflow by exact Hi. unfold isByte. lia.
Qed.

Lemma fold_bytes_nonneg (bs : bytes) (acc : Z) :
  Forall isByte bs -> (0 <= acc)%Z ->
  (0 <= fold_left (fun a x => (a * 256 + x)%Z) bs acc)%Z.
Proof.
  clear poseidon1 poseidon2.
  intros Hbs. revert acc. induction Hbs as [|b bs Hb Hbs IH]; intros acc Hacc.
  - exact Hacc.
  - cbn [fold_left]. apply IH. unfold isByte in Hb. lia.
Qed.

Lemma generateRandom256Bit_nonneg (random : bytes) :
  Forall isByte random ->
  (0 <= generateRandom256Bit random < SNARK_SCALAR_FIELD)%Z.
Proof.
  clear poseidon1 poseidon2.
  intros Hbs. unfold generateRandom256Bit.
  assert (Hall : Forall isByte (map (fun i => nth i random 0%Z) (seq 0 32))).
  { apply Forall_map, Forall_forall. intros i _. now apply nth_isByte. }
  rewrite fold_shiftInByte by exact Hall.
  pose proof (fold_bytes_nonneg Hall (Z.le_refl 0)) as Hnn.
  rewrite Z.rem_mod_nonneg by (trivial; reflexivity).
  apply Z.mod_pos_bound. reflexivity.
Qed.

(** X15.  [generateRandom256Bit] returns the big-endian value of the 32
    random bytes reduced modulo the field: a value in [0, p), whatever
    the bytes; [generateSecrets] returns two such values. *)
Theorem generateRandom256Bit_in_field (random : bytes) :
  length random = 32 -> Forall isByte random ->
  generateRandom256Bit random = (beValue random mod SNARK_SCALAR_FIELD)%Z
  /\ (0 <= generateRandom256Bit random < SNARK_SCALAR_FIELD)%Z
  /\ (forall random' : bytes, Forall isByte random' ->
        (0 <= snd (generateSecrets random random') < SNARK_SCALAR_FIELD)%Z
        /\ fst (generateSecrets random random') = generateRandom256Bit random).
Proof.
  clear poseidon1 poseidon2.
  intros Hlen Hbs. split; [|split].
  - unfold generateRandom256Bit. rewrite <- Hlen, map_nth_seq.
    rewrite fold_shiftInByte by exact Hbs.
    pose proof (beValue_bounds Hbs) as Hb. unfold beValue in *.
    apply Z.rem_mod_nonneg; [lia|reflexivity].
  - now apply generateRandom256Bit_nonneg.
  - intros random' Hbs'. split; [|reflexivity].
    cbn [generateSecrets snd]. now apply generateRandom256Bit_nonneg.
Qed.

Lemma map_nth_firstn (A : Type) (l : list A) (d : A) (k : nat) :
  map (fun i => nth i l d) (seq 0 (Nat.min (length l) k)) = firstn k l.
Proof.
  clear poseidon1 poseidon2.
  rewrite <- (map_nth_seq (firstn k l) d) at 1.
  rewrite length_firstn, Nat.min_comm.
  apply map_ext_in. intros i Hi. apply in_seq in Hi.
  rewrite nth_firstn.
  destruct (Nat.ltb_spec i k); [reflexivity|lia].
Qed.

Lemma utf8_bytes (s : string) : Forall isByte (utf8 s).
Proof.
  clear poseidon1 poseidon2.
  induction s as [|c s IH]; [constructor|].
  cbn [utf8]. apply Forall_app. split; [|exact IH].
  unfold utf8Char. pose proof (nat_ascii_bounded c) as Hc.
  set (n := Z.of_nat (nat_of_ascii c)).
  assert (Hn : (0 <= n < 256)%Z) by (unfold n; lia).
  destruct (Z.ltb_spec n 128).
  - repeat constructor; unfold isByte; lia.
  - pose proof (Z.mod_pos_bound n 64 ltac:(lia)).
    assert (n / 64 < 4)%Z by (apply Z.div_lt_upper_bound; lia).
    assert (0 <= n / 64)%Z by (apply Z.div_pos; lia).
    repeat constructor; unfold isByte; lia.
Qed.

Lemma firstn_isByte (k : nat) (bs : bytes) :
  Forall isByte bs -> Forall isByte (firstn k bs).
Proof.
  clear poseidon1 poseidon2.
  intros Hbs. revert k. induction Hbs as [|b bs Hb Hbs IH]; intros k.
  - rewrite firstn_nil. constructor.
  - destruct k; [constructor|]. cbn [firstn]. constructor; [exact Hb|apply IH].
Qed.

Lemma scopeValue_prefix (scope : string) :
  scopeValue scope = beValue (firstn 31 (utf8 scope)).
Proof.
  clear poseidon1 poseidon2.
  unfold scopeValue. rewrite map_nth_firstn.
  apply fold_shiftInByte. apply firstn_isByte, utf8_bytes.
Qed.

(** X16.  [generateLabel] reads at most the first 31 UTF-8 bytes of the
    scope, as a big-endian number below 2^248: scopes that agree on
    those bytes get the same label for the same nonce.  When the hash
    of the scope value and the nonce is a field element, the final
    [% SNARK_SCALAR_FIELD] leaves it as it is. *)
Theorem generateLabel_reads_31_bytes (scope scope' : string) (nonce : Z) :
  scopeValue scope = beValue (firstn 31 (utf8 scope))
  /\ (0 <= scopeValue scope < 2 ^ 248)%Z
  /\ (firstn 31 (utf8 scope) = firstn 31 (utf8 scope') ->
      generateLabel scope nonce = generateLabel scope' nonce)
  /\ ((0 <= poseidon2 (scopeValue scope) nonce < SNARK_SCALAR_FIELD)%Z ->
      generateLabel scope nonce = Ok (poseidon2 (scopeValue scope) nonce)).
Proof.
  split; [apply scopeValue_prefix|]. split; [|split].
  - rewrite scopeValue_prefix.
    assert (Hb : Forall isByte (firstn 31 (utf8 scope)))
      by apply firstn_isByte, utf8_bytes.
    pose proof (beValue_bounds Hb) as Hrange.
    pose proof (length_firstn 31 (utf8 scope)) as Hlen.
    assert (Hpow : (256 ^ Z.of_nat (length (firstn 31 (utf8 scope)))
                    <= 256 ^ 31)%Z)
      by (apply Z.pow_le_mono_r; lia).
    change (2 ^ 248)%Z with (256 ^ 31)%Z. lia.
  - intros Hsame. unfold generateLabel.
    now rewrite !scopeValue_prefix, Hsame.
  - intros Hfield. unfold generateLabel. rewrite poseidonHash_pair.
    cbn [bind]. f_equal. apply Z.rem_small. exact Hfield.
Qed.

(** *** Deposits *)



(** *** Withdrawals *)

Lemma bufferEquals_eq (a b : bytes) : bufferEquals a b = true <-> a = b.
Proof.
  clear poseidon1 poseidon2.
  revert b. induction a as [|x a IH]; intros [|y b]; cbn [bufferEquals];
    try (split; [discriminate|congruence]); [tauto|].
  rewrite andb_true_iff, Z.eqb_eq, IH. split; [intros [-> ->]|intros [= -> ->]]; auto.
Qed.

Lemma findIndex_first (commitments : list bytes) (target : bytes) (start : nat) :
  match findIndex commitments target start with
  | Some i =>
      exists k, i = start + k /\ nth_error commitments k = Some target
                /\ ~ In target (firstn k commitments)
  | None => ~ In target commitments
  end.
Proof.
  clear poseidon1 poseidon2.
  revert start. induction commitments as [|c rest IH]; intros start.
  - cbn. tauto.
  - cbn [findIndex]. destruct (bufferEquals c target) eqn:Hc.
    + apply bufferEquals_eq in Hc. subst c. exists 0.
      repeat split; [lia|]. cbn. tauto.
    + assert (Hne : c <> target).
      { intros ->. rewrite (proj2 (bufferEquals_eq target target) eq_refl) in Hc.
        discriminate. }
      specialize (IH (S start)).
      destruct (findIndex rest target (S start)) as [i|].
      * destruct IH as (k & -> & Hk & Hnot). exists (S k).
        repeat split; [lia|exact Hk|].
        cbn [firstn In]. tauto.
      * cbn [In]. tauto.
Qed.

(** X18.  The search loop of [handleWithdraw] finds the first buffer
    equal to the commitment's: the index it returns holds the target and
    no earlier index does, and it finds nothing exactly when no buffer
    of the list equals the target. *)
Theorem findIndex_finds_first (commitments : list bytes) (target : bytes) :
  (forall i, findIndex commitments target 0 = Some i
             <-> nth_error commitments i = Some target
                 /\ ~ In target (firstn i commitments))
  /\ (findIndex commitments target 0 = None <-> ~ In target commitments).
Proof.
  clear poseidon1 poseidon2.
  pose proof (findIndex_first commitments target 0) as Hfirst.
  assert (Huniq : forall i j,
            nth_error commitments i = Some target ->
            ~ In target (firstn i commitments) ->
            nth_error commitments j = Some target ->
            ~ In target (firstn j commitments) -> i = j).
  { intros i j Hi Hni Hj Hnj.
    destruct (Nat.lt_trichotomy i j) as [Hlt|[Heq|Hgt]]; [|exact Heq|].
    - exfalso. apply Hnj. apply nth_error_In with (n := i).
      rewrite nth_error_firstn.
      destruct (Nat.ltb_spec i j); [exact Hi|lia].
    - exfalso. apply Hni. apply nth_error_In with (n := j).
      rewrite nth_error_firstn.
      destruct (Nat.ltb_spec j i); [exact Hj|lia]. }
  destruct (findIndex commitments target 0) as [i0|].
  - destruct Hfirst as (k & -> & Hk & Hnot). cbn [Nat.add]. split.
    + intros i. split.
      * intros [= <-]. auto.
      * intros [Hi Hni]. f_equal. now apply Huniq.
    + split; [discriminate|]. intros Hnone. exfalso. apply Hnone.
      now apply nth_error_In with (n := k).
  - split.
    + intros i. split; [discriminate|]. intros [Hi _]. exfalso.
      apply Hfirst. now apply nth_error_In with (n := i).
    + tauto.
Qed.

Lemma io_bind_pair (A B : Type) (tr : list event) (r : result A) (k : A -> io B) :
  io_bind (tr, r) k
  = match r with
    | Ok a => (tr ++ fst (k a), snd (k a))
    | Err e => (tr, Err e)
    end.
Proof.
  clear poseidon1 poseidon2.
  destruct r as [a|e]; cbn [io_bind]; [|reflexivity]. now destruct (k a).
Qed.

Lemma io_bind_lift (A B : Type) (r : result A) (k : A -> io B) :
  io_bind (lift r) k
  = match r with
    | Ok a => k a
    | Err e => ([], Err e)
    end.
Proof.
  clear poseidon1 poseidon2.
  unfold lift. rewrite io_bind_pair. destruct r as [a|e]; [|reflexivity].
  now destruct (k a).
Qed.

Lemma io_bind_call (A B : Type) (ev : event) (r : result A) (k : A -> io B) :
  io_bind (call ev r) k
  = match r with
    | Ok a => (ev :: fst (k a), snd (k a))
    | Err e => ([ev], Err e)
    end.
Proof.
  clear poseidon1 poseidon2.
  unfold call. now rewrite io_bind_pair.
Qed.

Lemma catchWithdraw_pair (tr : list event) (r : result WithdrawResult) :
  catchWithdraw (tr, r)
  = (tr, match r with Ok w => w | Err e => WithdrawError e end).
Proof. clear poseidon1 poseidon2. now destruct r. Qed.

(** Running a handler up to its next outward call or fallible step. *)
Ltac io_run :=
  repeat first [ rewrite !io_bind_lift
               | rewrite !io_bind_call
               | rewrite !io_bind_pair
               | progress cbv beta iota ].

(** Steps 1 to 6 make their two queries in order, and none before the
    note has been decoded. *)
Lemma withdrawSteps1to6_calls (c : Contract) (noteString : string) :
  match withdrawSteps1to6 c noteString with
  | (tr, Ok x) =>
      tr = [Queried "get_commitments"; Queried "get_association_root"]
      /\ decodeNote noteString = Ok (ctx_note x)
  | (tr, Err e) =>
      (tr = [] /\ decodeNote noteString = Err e)
      \/ ((exists note, decodeNote noteString = Ok note)
          /\ (tr = [Queried "get_commitments"]
              \/ tr = [Queried "get_commitments"; Queried "get_association_root"]))
  end.
Proof.
  unfold withdrawSteps1to6. rewrite io_bind_lift.
  destruct (decodeNote noteString) as [note|e]; [|left; auto].
  assert (Hnote : exists note', Ok note = Ok note' :> result DepositNote)
    by now exists note.
  rewrite io_bind_call.
  destruct (requireResult (get_commitments c)) as [commitments|e]; [|right; auto].
  rewrite io_bind_lift.
  destruct (length commitments =? 0); [right; auto|].
  rewrite io_bind_lift.
  destruct (fromBufferLeaves commitments TREE_DEPTH) as [tree|e]; [|right; auto].
  rewrite io_bind_lift, computeCommitment_value.
  rewrite io_bind_lift.
  destruct (findIndex commitments _ 0) as [foundIndex|]; [|right; auto].
  rewrite io_bind_lift.
  destruct (getMerkleProof tree foundIndex) as [merkleProof|e]; [|right; auto].
  rewrite io_bind_call.
  destruct (requireResult (get_association_root c)) as [rootBuffer|e];
    [|right; auto].
  rewrite io_bind_lift.
  destruct (bufferToBigint rootBuffer) as [associationRoot|e]; [|right; auto].
  cbn [lift fst snd ctx_note]. auto.
Qed.



Lemma getMockAssociationProof_value (label : Z) :
  getMockAssociationProof label
  = Ok (poseidon2 (poseidon2 label (zeroAt 0)) (zeroAt 1), 0%Z,
        [Big (zeroAt 0); Big (zeroAt 1)]).
Proof. reflexivity. Qed.








(** Steps 1 to 6 use the note's leaf index for nothing but the log. *)
Lemma withdrawSteps1to6_leafIndex (c : Contract) (noteString noteString' : string)
    (n s v l : Z) (index index' : number) :
  decodeNote noteString = Ok (mkNote n s v l index) ->
  decodeNote noteString' = Ok (mkNote n s v l index') ->
  withdrawSteps1to6 c noteString'
  = (fst (withdrawSteps1to6 c noteString),
     match snd (withdrawSteps1to6 c noteString) with
     | Ok x => Ok (mkContext (mkNote n s v l index') (ctx_foundIndex x)
                     (ctx_siblings x) (ctx_root x) (ctx_associationRoot x))
     | Err e => Err e
     end).
Proof.
  intros Hdec Hdec'. unfold withdrawSteps1to6.
  rewrite Hdec, Hdec'. io_run. cbn [nullifier secret value label].
  destruct (requireResult (get_commitments c)) as [commitments|e];
    [|reflexivity].
  io_run.
  destruct (length commitments =? 0); [reflexivity|].
  io_run.
  destruct (fromBufferLeaves commitments TREE_DEPTH) as [tree|e]; [|reflexivity].
  io_run. rewrite !computeCommitment_value. io_run.
  destruct (findIndex commitments _ 0) as [foundIndex|]; [|reflexivity].
  io_run.
  destruct (getMerkleProof tree foundIndex) as [merkleProof|e]; [|reflexivity].
  io_run.
  destruct (requireResult (get_association_root c)) as [rootBuffer|e];
    [|reflexivity].
  io_run.
  destruct (bufferToBigint rootBuffer) as [associationRoot|e]; reflexivity.
Qed.

(** X21.  Neither copy of [handleWithdraw] uses the leaf index written
    in the note: two note strings that decode to the same nullifier,
    secret, value and label make the same calls with the same bytes and
    get the same result; the position proved to the circuit is the one
    at which the commitment is found in the fetched list. *)
Theorem handleWithdraw_ignores_leafIndex (c : Contract)
    (noteString noteString' : string) (note note' : DepositNote) :
  decodeNote noteString = Ok note ->
  decodeNote noteString' = Ok note' ->
  nullifier note = nullifier note' -> secret note = secret note' ->
  value note = value note' -> label note = label note' ->
  handleWithdraw_demo c noteString = handleWithdraw_demo c noteString'
  /\ handleWithdraw_prover c noteString = handleWithdraw_prover c noteString'.
Proof.
  destruct note as [n s v l index], note' as [n' s' v' l' index'].
  cbn [nullifier secret value label]. intros Hdec Hdec' <- <- <- <-.
  pose proof (@withdrawSteps1to6_leafIndex c _ _ _ _ _ _ _ _ Hdec Hdec') as Hsteps'.
  pose proof (withdrawSteps1to6_calls c noteString) as Hcalls.
  unfold handleWithdraw_demo, handleWithdraw_prover. rewrite Hsteps'.
  destruct (withdrawSteps1to6 c noteString) as [tr [x|e]]; cbn [fst snd];
    [|now rewrite !io_bind_pair].
  destruct Hcalls as [_ Hx]. rewrite Hdec in Hx. injection Hx as Hx.
  destruct x as [xnote foundIndex siblings root associationRoot].
  cbn [ctx_note] in Hx. subst xnote.
  rewrite !io_bind_pair. cbv beta iota. unfold circuitParams.
  cbn [ctx_note ctx_foundIndex ctx_siblings ctx_root ctx_associationRoot
       nullifier secret value label].
  split; reflexivity.
Qed.

Lemma fromBufferLeaves_value (buffers : list bytes) (d : nat) :
  Forall (fun b => length b = 32 /\ Forall isByte b) buffers ->
  fromBufferLeaves buffers d = Ok (mkTree (map beValue buffers) d).
Proof.
  clear poseidon1 poseidon2.
  intros Hall. unfold fromBufferLeaves.
  assert (Hmap : mapResult bufferToBigint buffers = Ok (map beValue buffers)).
  { induction Hall as [|b bs [Hlen Hb] Hbs IH]; [reflexivity|].
    cbn [mapResult map]. rewrite bufferToBigint_value, IH; trivial.
    destruct b; [discriminate|congruence]. }
  now rewrite Hmap.
Qed.

(** Steps 1 to 6 on a pool that lists the note's commitment. *)
Lemma withdrawSteps1to6_listed (c : Contract) (noteString : string)
    (note : DepositNote) (commitments : list bytes) (rootBuffer : bytes) :
  decodeNote noteString = Ok note ->
  get_commitments c = Ok (Some commitments) ->
  Forall (fun b => length b = 32 /\ Forall isByte b) commitments ->
  length commitments <= 2 ^ TREE_DEPTH ->
  In (bigintToBuffer
        (poseidon2 (poseidon2 (value note) (label note))
           (poseidon2 (nullifier note) (secret note)))) commitments ->
  get_association_root c = Ok (Some rootBuffer) ->
  length rootBuffer = 32 -> Forall isByte rootBuffer ->
  exists i,
    findIndex commitments
      (bigintToBuffer
         (poseidon2 (poseidon2 (value note) (label note))
            (poseidon2 (nullifier note) (secret note)))) 0 = Some i
    /\ i < length commitments
    /\ withdrawSteps1to6 c noteString
       = ([Queried "get_commitments"; Queried "get_association_root"],
          Ok (mkContext note i
                (map Big (pathUp TREE_DEPTH 0 (map beValue commitments) i))
                (Big (referenceRoot TREE_DEPTH (map beValue commitments)))
                (beValue rootBuffer))).
Proof.
  intros Hdec Hget Hall Hlen Hin Hroot Hrlen Hrbytes.
  set (target := bigintToBuffer _) in *.
  pose proof (findIndex_first commitments target 0) as Hfirst.
  destruct (findIndex commitments target 0) as [i|] eqn:Hfind; [|contradiction].
  destruct Hfirst as (k & -> & Hk & _). cbn [Nat.add] in *.
  assert (Hi : k < length commitments)
    by (apply nth_error_Some; congruence).
  exists k. split; [reflexivity|]. split; [exact Hi|].
  unfold withdrawSteps1to6.
  rewrite Hdec, Hget. cbn [requireResult]. io_run.
  rewrite length_zero_false by (destruct commitments; simpl in *; [lia|congruence]).
  io_run. rewrite (fromBufferLeaves_value _ Hall). io_run.
  rewrite computeCommitment_value. io_run.
  fold target. rewrite Hfind. io_run.
  unfold getMerkleProof.
  rewrite getMerklePath_pathUp
    by (rewrite ?length_map; unfold TREE_DEPTH in *; lia).
  rewrite computeRoot_referenceRoot by (rewrite ?length_map; lia).
  cbn [bind]. io_run. rewrite Hroot. cbn [requireResult]. io_run.
  assert (Hrne : rootBuffer <> []) by (intros ->; discriminate Hrlen).
  rewrite (bufferToBigint_value Hrbytes Hrne).
  io_run. reflexivity.
Qed.

Lemma circuitInput_of_tree (note : DepositNote) (i : nat) (path : list Z)
    (root associationRoot : Z) :
  length path = 8 ->
  createWithdrawCircuitInput
    (circuitParams (mkContext note i (map Big path) (Big root) associationRoot)
       0 [Big (zeroAt 0); Big (zeroAt 1)])
  = Ok (mkCircuitInput
          (bigintToString 10 FIXED_AMOUNT_STROOPS)
          (bigintToString 10 root)
          (bigintToString 10 associationRoot)
          (bigintToString 10 (label note))
          (bigintToString 10 (value note))
          (bigintToString 10 (nullifier note))
          (bigintToString 10 (secret note))
          (map (bigintToString 10) path)
          (bigintToString 10 (Z.of_nat i))
          (bigintToString 10 0)
          [bigintToString 10 (zeroAt 0); bigintToString 10 (zeroAt 1)]).
Proof.
  intros Hlen. unfold createWithdrawCircuitInput, circuitParams.
  cbn [p_withdrawnValue p_stateRoot p_associationRoot p_label p_value
       p_nullifier p_secret p_stateSiblings p_stateIndex p_labelIndex
       p_labelSiblings ctx_note ctx_foundIndex ctx_siblings ctx_root
       ctx_associationRoot jsToString bind].
  unfold circuitStateSiblings. rewrite padWithZero_Big, Hlen.
  cbn [Nat.sub repeat]. rewrite app_nil_r.
  rewrite firstn_all2 by (rewrite length_map; lia).
  rewrite mapToString_Big. cbn [bind].
  reflexivity.
Qed.

(** X22.  A note whose commitment is among the at most [2^TREE_DEPTH]
    32-byte commitments the contract lists is withdrawn when the
    contract calls succeed: both copies of [handleWithdraw] make all
    their calls and report success with the transaction hash (the first
    copy when the association root is not zero, the second when the
    prover returns a proof that serializes).  The circuit input given to
    the prover is a Merkle proof of that commitment: its state root is
    the reference root of the listed commitments, its state index the
    place where the commitment is listed, and its state siblings fold
    from the commitment at that place to that root. *)
Theorem listed_note_withdraws (c : Contract) (noteString : string)
    (note : DepositNote) (commitments : list bytes) (rootBuffer : bytes)
    (txHash : option string) :
  decodeNote noteString = Ok note ->
  get_commitments c = Ok (Some commitments) ->
  Forall (fun b => length b = 32 /\ Forall isByte b) commitments ->
  length commitments <= 2 ^ TREE_DEPTH ->
  In (bigintToBuffer
        (poseidon2 (poseidon2 (value note) (label note))
           (poseidon2 (nullifier note) (secret note)))) commitments ->
  get_association_root c = Ok (Some rootBuffer) ->
  length rootBuffer = 32 -> Forall isByte rootBuffer ->
  (forall proofBytes signals, withdraw c proofBytes signals = Ok tt) ->
  signAndSend c = Ok ([], txHash) ->
  (beValue rootBuffer <> 0%Z ->
   exists signals,
     handleWithdraw_demo c noteString
     = ([Queried "get_commitments"; Queried "get_association_root";
         TxBuilt [] signals; TxSubmitted], WithdrawSuccess txHash))
  /\ (forall proof publicSignals proofBytes signals,
        (forall input, fullProve c input = Ok (proof, publicSignals)) ->
        serializeProofForSoroban proof = Ok proofBytes ->
        serializePublicSignalsForSoroban publicSignals = Ok signals ->
        exists input i path,
          handleWithdraw_prover c noteString
          = ([Queried "get_commitments"; Queried "get_association_root";
              ProofRequested input; TxBuilt proofBytes signals; TxSubmitted],
             WithdrawSuccess txHash)
          /\ nth_error commitments i
             = Some (bigintToBuffer
                       (poseidon2 (poseidon2 (value note) (label note))
                          (poseidon2 (nullifier note) (secret note))))
          /\ ci_stateIndex input = bigintToString 10 (Z.of_nat i)
          /\ ci_stateSiblings input = map (bigintToString 10) path
          /\ ci_stateRoot input
             = bigintToString 10
                 (referenceRoot TREE_DEPTH (map beValue commitments))
          /\ foldPath (beValue (nth i commitments [])) i path
             = referenceRoot TREE_DEPTH (map beValue commitments)).
Proof.
  intros Hdec Hget Hall Hlen Hin Hroot Hrlen Hrbytes Hwithdraw Hsend.
  destruct (@withdrawSteps1to6_listed c _ _ _ _ Hdec Hget Hall Hlen Hin Hroot Hrlen
              Hrbytes)
    as (i & Hfind & Hi & Hsteps).
  pose proof (circuitInput_of_tree note i
                (pathUp TREE_DEPTH 0 (map beValue commitments) i)
                (referenceRoot TREE_DEPTH (map beValue commitments))
                (beValue rootBuffer)
                (pathUp_length TREE_DEPTH 0 (map beValue commitments) i))
    as Hinput.
  split.
  - intros Hnz. eexists.
    unfold handleWithdraw_demo. rewrite Hsteps. io_run.
    cbn [ctx_note ctx_associationRoot].
    replace (beValue rootBuffer =? 0)%Z with false
      by (symmetry; now apply Z.eqb_neq).
    io_run. rewrite getMockAssociationProof_value. io_run.
    rewrite Hinput. io_run.
    change (computeNullifierHash (nullifier note))
      with (Ok (poseidon1 (nullifier note))).
    io_run. cbv zeta. unfold submitWithdraw. io_run.
    rewrite Hwithdraw. io_run. rewrite Hsend. io_run.
    cbn [lift fst snd length Nat.eqb app]. rewrite catchWithdraw_pair.
    reflexivity.
  - intros proof publicSignals proofBytes signals Hprove Hpb Hsb.
    eexists _, i, (pathUp TREE_DEPTH 0 (map beValue commitments) i).
    split; [|split; [|split; [|split; [|split]]]].
    + unfold handleWithdraw_prover. rewrite Hsteps. io_run.
      cbn [ctx_note ctx_associationRoot].
      replace (if (beValue rootBuffer =? 0)%Z
               then getMockAssociationProof (label note)
               else getMockAssociationProof (label note))
        with (getMockAssociationProof (label note))
        by (now destruct (beValue rootBuffer =? 0)%Z).
      rewrite getMockAssociationProof_value. io_run. rewrite Hinput. io_run.
      unfold generateWithdrawProof. rewrite Hprove. io_run.
      cbn [fst snd]. rewrite Hpb. io_run. rewrite Hsb. io_run.
      unfold submitWithdraw. io_run.
      rewrite Hwithdraw. io_run. rewrite Hsend. io_run.
      cbn [lift fst snd length Nat.eqb app]. rewrite catchWithdraw_pair.
      reflexivity.
    + pose proof (findIndex_first commitments
                    (bigintToBuffer
                       (poseidon2 (poseidon2 (value note) (label note))
                          (poseidon2 (nullifier note) (secret note)))) 0)
        as Hfirst.
      rewrite Hfind in Hfirst. destruct Hfirst as (k & -> & Hk & _).
      exact Hk.
    + reflexivity.
    + reflexivity.
    + reflexivity.
    + replace (beValue (nth i commitments []))
        with (nth i (map beValue commitments) 0%Z)
        by (change 0%Z with (beValue []); apply map_nth).
      rewrite foldPath_root by (rewrite ?length_map; trivial).
      symmetry. apply referenceRoot_layersUp; [|now rewrite length_map].
      destruct commitments; [simpl in Hi; lia|discriminate].
Qed.

End Poseidon.

(** ** The claims at concrete inputs *)

(** C1 at depth 3: the path of the second of three leaves verifies. *)
Lemma own_path_verifies_witness :
  (1 <= 3 <= S TREE_DEPTH /\ length [5; 7; 9]%Z <= 2 ^ 3 /\ 1 < length [5; 7; 9]%Z)
  /\ (addLeaves (newTree 3) [5; 7; 9]%Z = Ok (mkTree [5; 7; 9]%Z 3)
      /\ exists siblings root,
           getMerklePath mix1 mix2 (mkTree [5; 7; 9]%Z 3) (Z.of_nat 1) = Ok siblings
           /\ computeRoot mix1 mix2 (mkTree [5; 7; 9]%Z 3) = Ok root
           /\ verifyProof mix1 mix2 (mkTree [5; 7; 9]%Z 3)
                (js_nth (map Big [5; 7; 9]%Z) 1) (Z.of_nat 1) siblings root
              = Ok true).
Proof.
  split.
  - unfold TREE_DEPTH. simpl. lia.
  - apply (own_path_verifies mix1 mix2 (d := 3) [5; 7; 9]%Z (i := 1));
      unfold TREE_DEPTH; simpl; lia.
Defined.

(** C1 as stated fails at depth 10: a lone leaf is added, but its path
    cannot be produced, so there is nothing for [verifyProof] to accept. *)
Lemma own_path_fails_beyond_zero_table :
  addLeaves (newTree 10) [5%Z] = Ok (mkTree [5%Z] 10)
  /\ getMerklePath mix1 mix2 (mkTree [5%Z] 10) 0 = Err PoseidonInputError
  /\ verifyOwnPath mix1 mix2 (mkTree [5%Z] 10) 0 = Err PoseidonInputError.
Proof. repeat split; reflexivity. Qed.

(** C2 at depth 3 with two leaves. *)
Lemma computeRoot_reference_witness :
  (length [5; 7]%Z <= 2 ^ 3 /\ (3 <= TREE_DEPTH \/ (3 = S TREE_DEPTH /\ [5; 7]%Z <> [])))
  /\ (addLeaves (newTree 3) [5; 7]%Z = Ok (mkTree [5; 7]%Z 3)
      /\ computeRoot mix1 mix2 (mkTree [5; 7]%Z 3)
         = Ok (Big (referenceRoot mix2 3 [5; 7]%Z))).
Proof.
  split.
  - split; [simpl; lia|left; unfold TREE_DEPTH; lia].
  - apply (proj1 (computeRoot_reference mix1 mix2) 3 [5; 7]%Z).
    + simpl. lia.
    + left. unfold TREE_DEPTH. lia.
Defined.

(** C2 as stated fails at depth 9: the empty tree's root is [undefined],
    not [zero[9]]. *)
Lemma computeRoot_empty_beyond_zero_table :
  computeRoot mix1 mix2 (newTree 9) = Ok Undefined
  /\ referenceRoot mix2 9 [] = zeroAt mix2 9
  /\ computeRoot mix1 mix2 (newTree 9) <> Ok (Big (referenceRoot mix2 9 [])).
Proof.
  split; [reflexivity|]. split; [apply referenceRoot_empty|].
  rewrite computeRoot_depth9_empty. discriminate.
Qed.

(** C4 on four inputs. *)
Lemma poseidonHash_sequential_witness :
  2 < length [1; 2; 3; 4]%Z
  /\ poseidonHash mix1 mix2 (map Big [1; 2; 3; 4]%Z)
     = Ok (mix2 (mix2 (mix2 1 2) 3) 4).
Proof.
  split.
  - simpl. lia.
  - apply (poseidonHash_sequential mix1 mix2 [1; 2; 3; 4]%Z). simpl. lia.
Defined.

(** C5 on a tree of depth 1: the second insert gets index 1, the third
    is refused and leaves the tree as it was. *)
Lemma addLeaf_index_or_full_witness :
  (length [4%Z] < 2 ^ 1
   /\ addLeaf (mkTree [4%Z] 1) 6 = (Ok 1, mkTree [4; 6]%Z 1))
  /\ (2 ^ 1 <= length [4; 6]%Z
      /\ addLeaf (mkTree [4; 6]%Z 1) 8 = (Err TreeAtCapacity, mkTree [4; 6]%Z 1)).
Proof.
  split; split.
  - simpl. lia.
  - apply (proj1 (addLeaf_index_or_full (mkTree [4%Z] 1) 6)). simpl. lia.
  - simpl. lia.
  - apply (proj2 (proj2 (addLeaf_index_or_full (mkTree [4; 6]%Z 1) 8))). simpl. lia.
Defined.

(** C6 on the decimal string of 5. *)
Lemma encoders_emit_value_unreduced_witness :
  (BigInt "5" = Ok 5%Z /\ (0 <= 5 < 2 ^ 256)%Z)
  /\ exists word,
       fieldElementToBytes "5" = Ok word
       /\ length word = 32 /\ Forall isByte word /\ beValue word = 5%Z
       /\ ((5 < SNARK_SCALAR_FIELD)%Z -> beValue word = (5 mod SNARK_SCALAR_FIELD)%Z).
Proof.
  split.
  - split; [reflexivity|lia].
  - apply (proj1 encoders_emit_value_unreduced "5"%string 5%Z); [reflexivity|lia].
Defined.

(** C6 as stated fails at the field modulus itself: the word emitted
    denotes the modulus, not its residue 0, and is out of range. *)
Lemma fieldElementToBytes_emits_modulus :
  exists word,
    fieldElementToBytes
      "21888242871839275222246405745257275088548364400416034343698204186575808495617"
    = Ok word
    /\ beValue word = SNARK_SCALAR_FIELD
    /\ (SNARK_SCALAR_FIELD mod SNARK_SCALAR_FIELD = 0)%Z
    /\ (beValue word <? SNARK_SCALAR_FIELD)%Z = false.
Proof.
  eexists. split; [reflexivity|]. repeat split; vm_compute; reflexivity.
Qed.

(** C7 on the sample note. *)
Lemma note_roundtrip_witness :
  nonNegativeNote sampleNote
  /\ decodeNote (encodeNote sampleNote) = Ok sampleNote
  /\ (note' <- decodeNote (encodeNote sampleNote) ;; Ok (encodeNote note'))
     = Ok (encodeNote sampleNote)
  /\ (forall s : string,
        length (split "-"%char s) = 6 -> decodeNote s = Err InvalidNoteFormat).
Proof.
  assert (Hnote : nonNegativeNote sampleNote).
  { unfold nonNegativeNote, sampleNote, FIXED_AMOUNT_STROOPS, MAX_SAFE_INTEGER.
    cbn [nullifier secret value label leafIndex].
    repeat split; try lia. exists 0%Z. split; [reflexivity|lia]. }
  split; [exact Hnote|].
  exact (note_roundtrip Hnote).
Defined.

(** C7 as stated fails on a note with a negative bigint: its minus sign
    is one more separator, and the string no longer decodes. *)
Lemma negative_note_does_not_decode :
  encodeNote (mkNote (-1) 0 0 0 (Int 0)) = "opaque-1--1-0-0-0-0"%string
  /\ decodeNote (encodeNote (mkNote (-1) 0 0 0 (Int 0))) = Err InvalidNoteFormat.
Proof. split; reflexivity. Qed.

(** C8 on an empty sibling list at depth 1. *)
Lemma depth_mismatch_tolerated_witness :
  length (@nil jsval) <> depth (mkTree [] 1)
  /\ verifyProof mix1 mix2 (mkTree [] 1) (Big 0) 0 [] (Big 0) = Ok false.
Proof.
  assert (Hne : length (@nil jsval) <> depth (mkTree [] 1)) by (simpl; lia).
  split; [exact Hne|].
  exact (proj1 (depth_mismatch_tolerated mix1 mix2) (mkTree [] 1) (Big 0) 0%Z [] (Big 0) Hne).
Defined.

(** C8 as stated fails: with no sibling at depth 1 [verifyProof] returns
    [false] rather than an error, and one state sibling and three label
    siblings come out of [createWithdrawCircuitInput] as eight and three. *)
Lemma depth_mismatch_raises_no_error :
  verifyProof mix1 mix2 (mkTree [] 1) (Big 0) 0 [] (Big 0) = Ok false
  /\ createWithdrawCircuitInput
       (mkParams 1 (Big 2) 3 4 5 6 7 [Big 8] 0 0 [Big 1; Big 2; Big 3])
     = Ok (mkCircuitInput "1" "2" "3" "4" "5" "6" "7"
             ["8"; "0"; "0"; "0"; "0"; "0"; "0"; "0"]%string "0" "0"
             ["1"; "2"; "3"]%string)
  /\ option_map (@length string)
       (match createWithdrawCircuitInput
                (mkParams 1 (Big 2) 3 4 5 6 7 (repeat (Big 9) 20) 0 0 [])
        with
        | Ok input => Some (ci_stateSiblings input)
        | Err _ => None
        end) = Some 8.
Proof. repeat split; reflexivity. Qed.

(** C9 at a zero association root.  The copy of [handleWithdraw] that
    calls the prover builds and submits the withdrawal and reports
    success; the other copy stops with 'Association root not set' after
    its two queries. *)
Lemma handleWithdraw_prover_submits_on_zero_root :
  bufferToBigint (zeroBytes 32) = Ok 0%Z
  /\ existsb isTxEvent
       (fst (handleWithdraw_prover mix1 mix2 (samplePool mix2 (zeroBytes 32) [])
               (encodeNote sampleNote))) = true
  /\ snd (handleWithdraw_prover mix1 mix2 (samplePool mix2 (zeroBytes 32) [])
            (encodeNote sampleNote))
     = WithdrawSuccess (Some "txhash"%string)
  /\ handleWithdraw_demo mix1 mix2 (samplePool mix2 (zeroBytes 32) [])
       (encodeNote sampleNote)
     = ([Queried "get_commitments"; Queried "get_association_root"],
        WithdrawError AssociationRootNotSet).
Proof. repeat split; vm_compute; reflexivity. Qed.

(** C10 on the sample pool: the note is spent once its nullifier hash is
    listed. *)
Lemma isNoteSpent_only_when_listed_witness :
  isNoteSpent mix1 mix2
    (samplePool mix2 (zeroBytes 32) [zeroBytes 32; bigintToBuffer (mix1 11)])
    (encodeNote sampleNote) = true
  /\ isNoteSpent mix1 mix2 (samplePool mix2 (zeroBytes 32) [zeroBytes 32])
       (encodeNote sampleNote) = false
  /\ isNoteSpent mix1 mix2
       (samplePool mix2 (zeroBytes 32) [bigintToBuffer (mix1 11)])
       "opaque-1-b-16"%string = false.
Proof.
  split; [|split; vm_compute; reflexivity].
  apply (proj1 (isNoteSpent_only_when_listed mix1 mix2
                  (samplePool mix2 (zeroBytes 32)
                     [zeroBytes 32; bigintToBuffer (mix1 11)])
                  (encodeNote sampleNote))).
  exists sampleNote, [zeroBytes 32; bigintToBuffer (mix1 11)], (bigintToBuffer (mix1 11)).
  repeat split; try reflexivity.
  right. left. reflexivity.
Defined.

(** ** The further properties at concrete inputs *)

Ltac bytes_ok :=
  match goal with
  | |- Forall isByte ?b =>
      let v := eval vm_compute in b in
      change (Forall isByte v);
      repeat (constructor; [unfold isByte; lia|]); constructor
  end.

(** X1 on a value of ten digits. *)
Lemma buffer_of_bigint_roundtrip_witness :
  (0 <= 1000000007 < 2 ^ 256)%Z
  /\ length (bigintToBuffer 1000000007) = 32
  /\ Forall isByte (bigintToBuffer 1000000007)
  /\ bufferToBigint (bigintToBuffer 1000000007) = Ok 1000000007%Z.
Proof.
  assert (H : (0 <= 1000000007 < 2 ^ 256)%Z) by lia.
  split; [exact H|]. exact (buffer_of_bigint_roundtrip H).
Defined.

(** X2 on a buffer of three bytes. *)
Lemma bigint_of_buffer_witness :
  Forall isByte [1; 2; 3]%Z
  /\ bufferToBigint [1; 2; 3]%Z = Ok (beValue [1; 2; 3]%Z).
Proof.
  assert (H : Forall isByte [1; 2; 3]%Z) by bytes_ok.
  split; [exact H|].
  apply (proj1 (proj2 (bigint_of_buffer H))). discriminate.
Defined.

(** X3 at depth 3, on the second of two leaves. *)
Lemma getMerklePath_shape_witness :
  ((- MAX_SAFE_INTEGER <= 1 <= MAX_SAFE_INTEGER)%Z
   /\ (0 <= 1 < Z.of_nat (getLeafCount (mkTree [5; 7]%Z 3)))%Z
   /\ depth (mkTree [5; 7]%Z 3) <= S TREE_DEPTH)
  /\ exists siblings,
       getMerklePath mix1 mix2 (mkTree [5; 7]%Z 3) 1 = Ok siblings.
Proof.
  assert (Hsafe : (- MAX_SAFE_INTEGER <= 1 <= MAX_SAFE_INTEGER)%Z)
    by (unfold MAX_SAFE_INTEGER; lia).
  assert (Hin : (0 <= 1 < Z.of_nat (getLeafCount (mkTree [5; 7]%Z 3)))%Z)
    by (unfold getLeafCount; simpl; lia).
  assert (Hd : depth (mkTree [5; 7]%Z 3) <= S TREE_DEPTH)
    by (unfold TREE_DEPTH; simpl; lia).
  split; [split; [exact Hsafe|split; [exact Hin|exact Hd]]|].
  exact (proj1 (proj1 (proj2 (@getMerklePath_shape mix1 mix2
                                (mkTree [5; 7]%Z 3) 1%Z Hsafe)) Hin) Hd).
Defined.

(** X5 at depth 3: index 9 is read as index 1. *)
Lemma verifyProof_index_modulo_witness :
  ((- MAX_SAFE_INTEGER <= 1 <= MAX_SAFE_INTEGER)%Z
   /\ (- MAX_SAFE_INTEGER
       <= 1 + 1 * 2 ^ Z.of_nat (depth (mkTree [5; 7]%Z 3))
       <= MAX_SAFE_INTEGER)%Z)
  /\ verifyProof mix1 mix2 (mkTree [5; 7]%Z 3) (Big 7)
       (1 + 1 * 2 ^ Z.of_nat (depth (mkTree [5; 7]%Z 3)))
       [Big 5; Big 1; Big 9] (Big 0)
     = verifyProof mix1 mix2 (mkTree [5; 7]%Z 3) (Big 7) 1
         [Big 5; Big 1; Big 9] (Big 0).
Proof.
  assert (Hsafe : (- MAX_SAFE_INTEGER <= 1 <= MAX_SAFE_INTEGER)%Z)
    by (unfold MAX_SAFE_INTEGER; lia).
  assert (Hsafe' : (- MAX_SAFE_INTEGER
                    <= 1 + 1 * 2 ^ Z.of_nat (depth (mkTree [5; 7]%Z 3))
                    <= MAX_SAFE_INTEGER)%Z)
    by (unfold MAX_SAFE_INTEGER; simpl; lia).
  split; [split; [exact Hsafe|exact Hsafe']|].
  exact (@verifyProof_index_modulo mix1 mix2 (mkTree [5; 7]%Z 3) (Big 7)
           1%Z 1%Z [Big 5; Big 1; Big 9] (Big 0) Hsafe Hsafe').
Defined.

(** X4 at depth 3, on the second of two leaves. *)
Lemma verifyProof_accepts_only_root_witness :
  (3 <= S TREE_DEPTH /\ length [5; 7]%Z <= 2 ^ 3 /\ 1 < length [5; 7]%Z)
  /\ exists siblings root,
       getMerklePath mix1 mix2 (mkTree [5; 7]%Z 3) (Z.of_nat 1) = Ok siblings
       /\ computeRoot mix1 mix2 (mkTree [5; 7]%Z 3) = Ok (Big root)
       /\ forall claimed : jsval,
            verifyProof mix1 mix2 (mkTree [5; 7]%Z 3)
              (js_nth (map Big [5; 7]%Z) 1) (Z.of_nat 1) siblings claimed
            = Ok (jsval_eqb (Big root) claimed).
Proof.
  split.
  - unfold TREE_DEPTH. simpl. lia.
  - apply (verifyProof_accepts_only_root mix1 mix2 (d := 3) [5; 7]%Z (i := 1));
      unfold TREE_DEPTH; simpl; lia.
Defined.

(** X6 at depth 3 with two leaves. *)
Lemma zero_leaf_keeps_root_witness :
  (3 <= TREE_DEPTH /\ length [5; 7]%Z < 2 ^ 3)
  /\ fst (addLeaf (mkTree [5; 7]%Z 3) 0) = Ok (length [5; 7]%Z)
  /\ computeRoot mix1 mix2 (snd (addLeaf (mkTree [5; 7]%Z 3) 0))
     = computeRoot mix1 mix2 (mkTree [5; 7]%Z 3).
Proof.
  split.
  - unfold TREE_DEPTH. simpl. lia.
  - apply (zero_leaf_keeps_root mix1 mix2 (d := 3) [5; 7]%Z);
      unfold TREE_DEPTH; simpl; lia.
Defined.

(** X9 on two commitments. *)
Lemma mirror_tree_is_inserted_tree_witness :
  (Forall (fun x => (0 <= x < 2 ^ 256)%Z) [5; 7]%Z
   /\ length [5; 7]%Z <= 2 ^ TREE_DEPTH)
  /\ buildMerkleTreeFromCommitments (map bigintToBuffer [5; 7]%Z)
     = addLeaves (newTree TREE_DEPTH) [5; 7]%Z
  /\ addLeaves (newTree TREE_DEPTH) [5; 7]%Z = Ok (mkTree [5; 7]%Z TREE_DEPTH).
Proof.
  assert (H : Forall (fun x => (0 <= x < 2 ^ 256)%Z) [5; 7]%Z)
    by (repeat constructor; lia).
  assert (Hlen : length [5; 7]%Z <= 2 ^ TREE_DEPTH)
    by (unfold TREE_DEPTH; simpl; lia).
  split; [split; [exact H|exact Hlen]|].
  exact (mirror_tree_is_inserted_tree H Hlen).
Defined.

(** X11 on a value of five digits. *)
Lemma signal_word_is_bigint_buffer_witness :
  (0 <= 12345 < 2 ^ 256)%Z
  /\ fieldElementToBytes (bigintToString 10 12345) = Ok (bigintToBuffer 12345).
Proof.
  assert (H : (0 <= 12345 < 2 ^ 256)%Z) by lia.
  split; [exact H|]. exact (signal_word_is_bigint_buffer H).
Defined.

(** X13 on the sample note's string. *)
Lemma decodeNote_returns_encodable_note_witness :
  decodeNote "opaque-1-b-16-3b9aca00-21-0" = Ok sampleNote
  /\ ((0 <= nullifier sampleNote)%Z /\ (0 <= secret sampleNote)%Z
      /\ (0 <= value sampleNote)%Z /\ (0 <= label sampleNote)%Z)
  /\ ((forall z, leafIndex sampleNote = Int z -> (z <= MAX_SAFE_INTEGER)%Z) ->
      (leafIndex sampleNote = NaN
       \/ exists z, leafIndex sampleNote = Int z
                    /\ (0 <= z <= MAX_SAFE_INTEGER)%Z)
      /\ decodeNote (encodeNote sampleNote) = Ok sampleNote).
Proof.
  assert (H : decodeNote "opaque-1-b-16-3b9aca00-21-0" = Ok sampleNote)
    by reflexivity.
  split; [exact H|]. exact (@decodeNote_returns_encodable_note _ _ H).
Defined.

(** X15 on 32 bytes of 255, a draw above the field modulus. *)
Lemma generateRandom256Bit_in_field_witness :
  (length (repeat 255%Z 32) = 32 /\ Forall isByte (repeat 255%Z 32))
  /\ generateRandom256Bit (repeat 255%Z 32)
     = (beValue (repeat 255%Z 32) mod SNARK_SCALAR_FIELD)%Z
  /\ (0 <= generateRandom256Bit (repeat 255%Z 32) < SNARK_SCALAR_FIELD)%Z.
Proof.
  assert (Hlen : length (repeat 255%Z 32) = 32) by reflexivity.
  assert (H : Forall isByte (repeat 255%Z 32)) by bytes_ok.
  split; [split; [exact Hlen|exact H]|].
  split.
  - exact (proj1 (generateRandom256Bit_in_field Hlen H)).
  - exact (proj1 (proj2 (generateRandom256Bit_in_field Hlen H))).
Defined.


(** X21 on two strings of the sample note that differ in the leaf index. *)
Lemma handleWithdraw_ignores_leafIndex_witness :
  (decodeNote "opaque-1-b-16-3b9aca00-21-0" = Ok sampleNote
   /\ decodeNote "opaque-1-b-16-3b9aca00-21-7"
      = Ok (mkNote 11 22 FIXED_AMOUNT_STROOPS 33 (Int 7)))
  /\ handleWithdraw_demo mix1 mix2 (samplePool mix2 (bigintToBuffer 5) [])
       "opaque-1-b-16-3b9aca00-21-0"
     = handleWithdraw_demo mix1 mix2 (samplePool mix2 (bigintToBuffer 5) [])
         "opaque-1-b-16-3b9aca00-21-7"
  /\ handleWithdraw_prover mix1 mix2 (samplePool mix2 (bigintToBuffer 5) [])
       "opaque-1-b-16-3b9aca00-21-0"
     = handleWithdraw_prover mix1 mix2 (samplePool mix2 (bigintToBuffer 5) [])
         "opaque-1-b-16-3b9aca00-21-7".
Proof.
  assert (H : decodeNote "opaque-1-b-16-3b9aca00-21-0" = Ok sampleNote)
    by reflexivity.
  assert (H' : decodeNote "opaque-1-b-16-3b9aca00-21-7"
               = Ok (mkNote 11 22 FIXED_AMOUNT_STROOPS 33 (Int 7)))
    by reflexivity.
  split; [split; [exact H|exact H']|].
  exact (@handleWithdraw_ignores_leafIndex mix1 mix2
           (samplePool mix2 (bigintToBuffer 5) []) _ _ _ _ H H'
           eq_refl eq_refl eq_refl eq_refl).
Defined.

(** X22 on the sample pool with association root 5. *)
Lemma listed_note_withdraws_witness :
  exists signals,
    handleWithdraw_demo mix1 mix2 (samplePool mix2 (bigintToBuffer 5) [])
      "opaque-1-b-16-3b9aca00-21-0"
    = ([Queried "get_commitments"; Queried "get_association_root";
        TxBuilt [] signals; TxSubmitted], WithdrawSuccess (Some "txhash"%string)).
Proof.
  refine (proj1 (@listed_note_withdraws mix1 mix2
                   (samplePool mix2 (bigintToBuffer 5) [])
                   "opaque-1-b-16-3b9aca00-21-0" sampleNote
                   [bigintToBuffer
                      (mix2 (mix2 (value sampleNote) (label sampleNote))
                         (mix2 (nullifier sampleNote) (secret sampleNote)))]
                   (bigintToBuffer 5) (Some "txhash"%string)
                   _ _ _ _ _ _ _ _ _ _) _).
  - reflexivity.
  - reflexivity.
  - constructor; [split; [reflexivity|bytes_ok]|constructor].
  - unfold TREE_DEPTH. cbn [length]. simpl. lia.
  - left. reflexivity.
  - reflexivity.
  - reflexivity.
  - bytes_ok.
  - intros proofBytes signals. reflexivity.
  - reflexivity.
  - vm_compute. discriminate.
Defined.
